(** * PDPL compliance checker: retrieval, coverage scoring and aggregation

    A shallow embedding of the scoring core of the repository
    ([utils/text_utils.py], [utils/scoring_utils.py],
    [services/llm_service.py], [services/matching_service.py]) together with
    the properties its specification states about it.

    Conventions of the embedding:
    - Python [float] scores are read as exact rationals ([Q]); [round(x, 2)]
      is rounding to the nearest hundredth, ties to even.
    - Python [dict]s with a fixed set of keys are records; a key that the code
      reads with [.get(key, default)] is an [option] field.
    - A raised exception is the [Raise] case of [result].
    - Text is 7-bit text: the character classes [\s] and [\w] and
      [str.lower] are the ASCII ones.
    - [print] calls are dropped. *)

From Stdlib Require Import ZArith QArith Qround Qminmax List String Ascii Bool Lia Lqa.
From Stdlib Require Import DecimalString DecimalZ DecimalPos Sorted Permutation.
Import ListNotations.

Open Scope string_scope.
Open Scope Q_scope.

(** ** Exceptions *)

Inductive exn : Type :=
| RuntimeError (msg : string)
| ZeroDivisionError
| KeyError (key : string).

Inductive result (A : Type) : Type :=
| Ok (a : A)
| Raise (e : exn).

Arguments Ok {A} a.
Arguments Raise {A} e.

Definition bind {A B : Type} (m : result A) (k : A -> result B) : result B :=
  match m with
  | Ok a => k a
  | Raise e => Raise e
  end.

Notation "x <- m ;; k" := (bind m (fun x => k))
  (at level 61, m at next level, right associativity).

(** ** Text utilities ([utils/text_utils.py]) *)

Module TextUtils.

Definition code (c : ascii) : N := N_of_ascii c.

(** [str.isspace] / [\s] on 7-bit text: TAB..CR, FS..US and the space. *)
Definition is_space (c : ascii) : bool :=
  let n := code c in
  ((9 <=? n) && (n <=? 13) || (28 <=? n) && (n <=? 32))%N.

(** [\w] on 7-bit text: letters, digits and the underscore. *)
Definition is_word (c : ascii) : bool :=
  let n := code c in
  ((48 <=? n) && (n <=? 57) || (65 <=? n) && (n <=? 90)
   || (97 <=? n) && (n <=? 122) || (n =? 95))%N.

Definition lower_char (c : ascii) : ascii :=
  let n := code c in
  if ((65 <=? n) && (n <=? 90))%N then ascii_of_N (n + 32) else c.

Definition chars (s : string) : list ascii := list_ascii_of_string s.
Definition of_chars (l : list ascii) : string := string_of_list_ascii l.

(** [str.lower] *)
Definition lower (s : string) : string := of_chars (map lower_char (chars s)).

Fixpoint lstrip_chars (l : list ascii) : list ascii :=
  match l with
  | c :: l' => if is_space c then lstrip_chars l' else l
  | [] => []
  end.

(** [str.strip()] *)
Definition strip (s : string) : string :=
  of_chars (rev (lstrip_chars (rev (lstrip_chars (chars s))))).

(** [re.sub(r'\s+', ' ', s)]: [in_run] tells that the previous character
    belonged to a whitespace run already replaced by one space. *)
Fixpoint collapse_ws (in_run : bool) (l : list ascii) : list ascii :=
  match l with
  | [] => []
  | c :: l' =>
      if is_space c
      then (if in_run then collapse_ws true l' else " "%char :: collapse_ws true l')
      else c :: collapse_ws false l'
  end.

Definition sub_whitespace_runs (s : string) : string :=
  of_chars (collapse_ws false (chars s)).

(** [re.sub(r'[^\w\s]', '', s)] *)
Definition sub_special (s : string) : string :=
  of_chars (filter (fun c => is_word c || is_space c) (chars s)).

Definition normalize_text (s : string) : string :=
  let t := sub_whitespace_runs (strip (lower s)) in
  sub_special t.

End TextUtils.

(** ** Numbers *)

Definition Qlt_bool (x y : Q) : bool := negb (Qle_bool y x).

(** Python's [min(a, b)]: the second argument only when it is smaller. *)
Definition py_min (a b : Q) : Q := if Qlt_bool b a then b else a.

(** Nearest integer, ties to the even neighbour. *)
Definition round_half_even (x : Q) : Z :=
  let f := Qfloor x in
  match Qcompare (x - inject_Z f) (1 # 2) with
  | Lt => f
  | Gt => (f + 1)%Z
  | Eq => if Z.even f then f else (f + 1)%Z
  end.

(** [round(x, 2)] *)
Definition round2 (x : Q) : Q := Qmake (round_half_even (x * 100)) 100.

(** [sum(xs)] *)
Definition sum (xs : list Q) : Q := fold_left Qplus xs 0.

(** [str(n)] for an [int] *)
Definition str_of_int (n : Z) : string := NilZero.string_of_int (Z.to_int n).

(** ** Data model *)

(** A clause entry of a main article, as [load_pdpl_articles] builds it. *)
Record Clause : Type := {
  c_id : string;
  c_label : string;
  c_path : string;
  c_text : string
}.

(** An entry of the article corpus; the fields are the keys the scorer reads,
    with the defaults of its [.get] calls filled in. *)
Record Article : Type := {
  id : string;
  article_number : Z;
  label : string;
  path : string;
  text : string;
  title : string;
  is_main_article : bool;
  clauses : list Clause
}.

(** An entry that is not a main article is scored as its own single clause
    ([clauses = [article]]). *)
Definition as_clause (a : Article) : Clause :=
  {| c_id := id a; c_label := label a; c_path := path a; c_text := text a |}.

Inductive Band : Type := Full | Partial | Missing.

Inductive CoverageType : Type := covered | partially_covered | missing.

Inductive Method : Type :=
| llm_only_scoring
| llm_only_scoring_article
| traditional_bm25_e5.

(** ['llm' in matching_method] *)
Definition mentions_llm (m : Method) : bool :=
  match m with
  | traditional_bm25_e5 => false
  | _ => true
  end.

(** What a judge call returns when it does not return [None]. *)
Record JudgeResult : Type := {
  score : Q;
  explanation : string;
  confidence : string
}.

(** [llm_clause_match_func(clause_text, pdf_text, article_number, clause_label)] *)
Definition Judge : Type := string -> string -> Z -> string -> option JudgeResult.

(** The [debug_scores] entry of a clause judgment (its [formula] text, a
    display string, is left out). *)
Record DebugScores : Type := {
  llm_score : Q;
  traditional_score : Q;
  traditional_before_boost : Q;
  final_score : Q;
  mode : string;
  boost_applied : bool
}.

Record ClauseInfo : Type := {
  ci_id : string;
  ci_article_number : Z;
  ci_label : string;
  ci_path : string;
  ci_text : string;
  coverage_score : Q;
  matching_method : Method;
  debug_scores : option DebugScores;
  llm_explanation : option string;
  llm_confidence : option string;
  ci_band : option Band;
  partial_reason : option string;
  missing_reason : option string
}.

(** The coverage record of the clause loop and of the article-level path. *)
Record CoverageRecord : Type := {
  band : Band;
  coverage_percentage : Q;
  covered_clauses : list ClauseInfo;
  partially_covered_clauses : list ClauseInfo;
  missing_clauses : list ClauseInfo;
  total_clauses : nat;
  covered_clauses_count : nat;
  partially_covered_clauses_count : nat;
  missing_clauses_count : nat;
  article_id : string;
  cr_article_number : Z
}.

(** The record of the no-clauses branch: it carries [coverage_type] and no
    [band], and lists the article itself. *)
Record SingleItemRecord : Type := {
  coverage_type : CoverageType;
  si_coverage_percentage : Q;
  si_covered_clauses : list Article;
  si_missing_clauses : list Article;
  si_total_clauses : nat;
  si_covered_clauses_count : nat;
  si_missing_clauses_count : nat;
  si_article_id : string;
  si_article_number : Z
}.

Inductive CoverageInfo : Type :=
| Banded (r : CoverageRecord)
| SingleItem (r : SingleItemRecord).

Definition percentage_of (c : CoverageInfo) : Q :=
  match c with
  | Banded r => coverage_percentage r
  | SingleItem r => si_coverage_percentage r
  end.

Definition judgments_of (c : CoverageInfo) : list ClauseInfo :=
  match c with
  | Banded r => covered_clauses r ++ partially_covered_clauses r ++ missing_clauses r
  | SingleItem _ => []
  end.

(** One page of extracted document text. *)
Record Page : Type := {
  page : Z;
  page_text : string
}.

(** ** Coverage scoring ([utils/scoring_utils.py]) *)

Module ScoringUtils.

Import TextUtils.

(** [text[:200] + '...' if len(text) > 200 else text] *)
Definition preview (t : string) : string :=
  if (200 <? String.length t)%nat then substring 0 200 t ++ "..." else t.

(** Truth value of an optional string: [None] and [''] are false. *)
Definition truthy (s : option string) : bool :=
  match s with
  | Some (String _ _) => true
  | _ => false
  end.

(** [a or b] on strings *)
Definition str_or (a b : string) : string :=
  match a with
  | EmptyString => b
  | _ => a
  end.

Definition _traditional_clause_match
    (clause_text full_text_normalized : string) (bm25_score e5_score : Q)
  : Q * option string * option string * Method :=
  let bm25_normalized :=
    if Qlt_bool 0 bm25_score then py_min 1.0 (bm25_score / 10.0) else 0.0 in
  let traditional_score := (0.4 * bm25_normalized) + (0.6 * e5_score) in
  (traditional_score, None, None, traditional_bm25_e5).

(** The values one iteration of the scoring code settles before it builds
    the clause entry. *)
Record Scored : Type := {
  s_coverage : Q;
  s_explanation : option string;
  s_confidence : option string;
  s_method : Method;
  s_llm_score_raw : option Q;
  s_traditional_score_raw : option Q;
  s_traditional_score_before_boost : option Q
}.

Definition scored_traditional (clause_text full_text_normalized : string)
    (bm25_score e5_score : Q) : Scored :=
  let '(clause_coverage, llm_explanation, llm_confidence, matching_method) :=
    _traditional_clause_match clause_text full_text_normalized bm25_score e5_score in
  {| s_coverage := clause_coverage;
     s_explanation := llm_explanation;
     s_confidence := llm_confidence;
     s_method := matching_method;
     s_llm_score_raw := None;
     s_traditional_score_raw := None;
     s_traditional_score_before_boost := None |}.

Definition scored_llm (llm_result : JudgeResult) (matching_method : Method)
    (bm25_score e5_score : Q) : Scored :=
  let llm_score := score llm_result in
  let bm25_normalized :=
    if Qlt_bool 0 bm25_score then py_min 1.0 (bm25_score / 10.0) else 0.0 in
  let traditional_score := (0.4 * bm25_normalized) + (0.6 * e5_score) in
  {| s_coverage := llm_score;
     s_explanation := Some (explanation llm_result);
     s_confidence := Some (confidence llm_result);
     s_method := matching_method;
     s_llm_score_raw := Some llm_score;
     s_traditional_score_raw := Some traditional_score;
     s_traditional_score_before_boost := Some traditional_score |}.

Section Scorer.

(** The module-level flag of the strict judge-only mode. *)
Variable _llm_only_mode : bool.

Definition make_debug_scores (s : Scored) (final : Q) : option DebugScores :=
  match s_llm_score_raw s, s_traditional_score_raw s with
  | Some llm_score_raw, Some traditional_score_raw =>
      let before :=
        match s_traditional_score_before_boost s with
        | Some b => b
        | None => traditional_score_raw
        end in
      Some {| llm_score := round2 (llm_score_raw * 100);
              traditional_score := round2 (traditional_score_raw * 100);
              traditional_before_boost := round2 (before * 100);
              final_score := final;
              mode := if _llm_only_mode then "llm_only" else "hybrid";
              boost_applied :=
                match s_traditional_score_before_boost s with
                | Some b => Qlt_bool b traditional_score_raw
                | None => false
                end |}
  | _, _ => None
  end.

(** The accumulators of the clause loop. *)
Record LoopState : Type := {
  ls_covered : list ClauseInfo;
  ls_partially_covered : list ClauseInfo;
  ls_missing : list ClauseInfo;
  clause_coverage_scores : list Q
}.

Definition loop_start : LoopState :=
  {| ls_covered := []; ls_partially_covered := []; ls_missing := [];
     clause_coverage_scores := [] |}.

Definition score_clause (article_number : Z) (full_text full_text_normalized : string)
    (llm_clause_match_func : option Judge) (bm25_score e5_score : Q)
    (clause : Clause) : result Scored :=
  let clause_text := normalize_text (c_text clause) in
  _ <- match llm_clause_match_func with
       | Some _ => Ok tt
       | None =>
           if _llm_only_mode
           then Raise (RuntimeError
                  ("LLM-only mode: LLM function not provided for Article "
                   ++ str_of_int article_number
                   ++ ". Cannot score in LLM-only mode without LLM."))
           else Ok tt
       end ;;
  match llm_clause_match_func with
  | Some f =>
      match f (c_text clause) full_text article_number (c_label clause) with
      | Some llm_result =>
          Ok (scored_llm llm_result llm_only_scoring bm25_score e5_score)
      | None =>
          if _llm_only_mode
          then Raise (RuntimeError
                 ("LLM-only mode: LLM failed for Article "
                  ++ str_of_int article_number ++ ", Clause " ++ c_label clause
                  ++ ". No fallback allowed in LLM-only mode."))
          else Ok (scored_traditional clause_text full_text_normalized
                     bm25_score e5_score)
      end
  | None =>
      if _llm_only_mode
      then Raise (RuntimeError
             ("LLM-only mode: Cannot use traditional scoring for Article "
              ++ str_of_int article_number ++ "."))
      else Ok (scored_traditional clause_text full_text_normalized
                 bm25_score e5_score)
  end.

Definition clause_entry (article_number : Z) (clause : Clause) (s : Scored) : ClauseInfo :=
  let coverage_score := round2 (s_coverage s * 100) in
  let llm_explanation := s_explanation s in
  let with_llm := truthy llm_explanation && mentions_llm (s_method s) in
  {| ci_id := c_id clause;
     ci_article_number := article_number;
     ci_label := c_label clause;
     ci_path := c_path clause;
     ci_text := preview (c_text clause);
     coverage_score := coverage_score;
     matching_method := s_method s;
     debug_scores := make_debug_scores s coverage_score;
     llm_explanation := if truthy llm_explanation then llm_explanation else None;
     llm_confidence := if truthy (s_confidence s) then s_confidence s else None;
     ci_band :=
       if Qle_bool 75 coverage_score then None
       else if Qle_bool 40 coverage_score then Some Partial
       else None;
     partial_reason :=
       if Qle_bool 75 coverage_score then None
       else if Qle_bool 40 coverage_score then
         if with_llm then llm_explanation
         else Some ("Partial coverage: some elements of Article "
                    ++ str_of_int article_number ++ ", Label " ++ c_label clause
                    ++ " are present but incomplete")
       else None;
     missing_reason :=
       if Qle_bool 75 coverage_score then None
       else if Qle_bool 40 coverage_score then None
       else if with_llm then llm_explanation
       else Some ("Article " ++ str_of_int article_number ++ ", Label "
                  ++ c_label clause ++ " is missing - no matching content found")
  |}.

(** One iteration of [for clause in clauses]. *)
Definition loop_body (article_number : Z) (full_text full_text_normalized : string)
    (llm_clause_match_func : option Judge) (bm25_score e5_score : Q)
    (st : LoopState) (clause : Clause) : result LoopState :=
  let clause_text := normalize_text (c_text clause) in
  if (clause_text =? "")%string
     || (clause_text =? "article")%string
     || (clause_text =? "article " ++ str_of_int article_number)%string
  then Ok st
  else
    s <- score_clause article_number full_text full_text_normalized
           llm_clause_match_func bm25_score e5_score clause ;;
    let clause_info := clause_entry article_number clause s in
    let coverage_score := coverage_score clause_info in
    let scores := (clause_coverage_scores st ++ [s_coverage s])%list in
    if Qle_bool 75 coverage_score then
      Ok {| ls_covered := (ls_covered st ++ [clause_info])%list;
            ls_partially_covered := ls_partially_covered st;
            ls_missing := ls_missing st;
            clause_coverage_scores := scores |}
    else if Qle_bool 40 coverage_score then
      Ok {| ls_covered := ls_covered st;
            ls_partially_covered := (ls_partially_covered st ++ [clause_info])%list;
            ls_missing := ls_missing st;
            clause_coverage_scores := scores |}
    else
      Ok {| ls_covered := ls_covered st;
            ls_partially_covered := ls_partially_covered st;
            ls_missing := (ls_missing st ++ [clause_info])%list;
            clause_coverage_scores := scores |}.

Fixpoint clause_loop (article_number : Z) (full_text full_text_normalized : string)
    (llm_clause_match_func : option Judge) (bm25_score e5_score : Q)
    (clauses : list Clause) (st : LoopState) : result LoopState :=
  match clauses with
  | [] => Ok st
  | clause :: rest =>
      st' <- loop_body article_number full_text full_text_normalized
               llm_clause_match_func bm25_score e5_score st clause ;;
      clause_loop article_number full_text full_text_normalized
        llm_clause_match_func bm25_score e5_score rest st'
  end.

(** The tail of [calculate_article_coverage]: the clause loop and the
    article-level average. *)
Definition clause_level_coverage (article : Article) (clauses : list Clause)
    (full_text full_text_normalized : string)
    (llm_clause_match_func : option Judge) (bm25_score e5_score : Q)
  : result CoverageInfo :=
  let article_number := article_number article in
  st <- clause_loop article_number full_text full_text_normalized
          llm_clause_match_func bm25_score e5_score clauses loop_start ;;
  let total_clauses := List.length (clause_coverage_scores st) in
  let coverage_percentage :=
    if (0 <? total_clauses)%nat then
      let average_coverage :=
        sum (clause_coverage_scores st) / inject_Z (Z.of_nat total_clauses) in
      round2 (average_coverage * 100)
    else 0.0 in
  let band :=
    if Qle_bool 75 coverage_percentage then Full
    else if Qle_bool 40 coverage_percentage then Partial
    else Missing in
  Ok (Banded
        {| band := band;
           coverage_percentage := coverage_percentage;
           covered_clauses := ls_covered st;
           partially_covered_clauses := ls_partially_covered st;
           missing_clauses := ls_missing st;
           total_clauses := total_clauses;
           covered_clauses_count := List.length (ls_covered st);
           partially_covered_clauses_count := List.length (ls_partially_covered st);
           missing_clauses_count := List.length (ls_missing st);
           article_id := id article;
           cr_article_number := article_number |}).

(** The [if not clauses] branch: the entry is scored as one item from the
    retrieval scores. *)
Definition single_item_coverage (article : Article) (bm25_score e5_score : Q)
  : CoverageInfo :=
  let bm25_normalized :=
    if Qlt_bool 0 bm25_score then py_min 1.0 (bm25_score / 10.0) else 0.0 in
  let coverage := (0.4 * bm25_normalized) + (0.6 * e5_score) in
  let coverage_percentage := round2 (coverage * 100) in
  let coverage_type :=
    if Qle_bool 75 coverage_percentage then covered
    else if Qle_bool 40 coverage_percentage then partially_covered
    else missing in
  SingleItem
    {| coverage_type := coverage_type;
       si_coverage_percentage := coverage_percentage;
       si_covered_clauses := if Qlt_bool coverage_percentage 40 then [] else [article];
       si_missing_clauses := if Qlt_bool coverage_percentage 40 then [article] else [];
       si_total_clauses := 1;
       si_covered_clauses_count := if Qle_bool 40 coverage_percentage then 1 else 0;
       si_missing_clauses_count := if Qle_bool 40 coverage_percentage then 0 else 1;
       si_article_id := id article;
       si_article_number := article_number article |}.

Definition _calculate_article_coverage_llm_article_level
    (article : Article) (full_text full_text_normalized : string)
    (article_number : Z) (article_id : string) (clauses : list Clause)
    (llm_clause_match_func : option Judge) (bm25_score e5_score : Q)
  : result CoverageInfo :=
  let raw_article_text :=
    strip (str_or (text article) (String.concat " " (map c_text clauses))) in
  if (raw_article_text =? "")%string then
    Ok (Banded
          {| band := Missing;
             coverage_percentage := 0.0;
             covered_clauses := [];
             partially_covered_clauses := [];
             missing_clauses := [];
             total_clauses := 0;
             covered_clauses_count := 0;
             partially_covered_clauses_count := 0;
             missing_clauses_count := 0;
             article_id := article_id;
             cr_article_number := article_number |})
  else
    let article_text_normalized := normalize_text raw_article_text in
    let llm_result :=
      match llm_clause_match_func with
      | Some f => f raw_article_text full_text article_number "Article-level"
      | None => None
      end in
    s <- match llm_result with
         | Some r =>
             Ok (scored_llm r llm_only_scoring_article bm25_score e5_score)
         | None =>
             if _llm_only_mode
             then Raise (RuntimeError
                    ("LLM-only mode: LLM failed for Article "
                     ++ str_of_int article_number
                     ++ " (article-level). No fallback allowed in LLM-only mode."))
             else Ok (scored_traditional article_text_normalized
                        full_text_normalized bm25_score e5_score)
         end ;;
    let article_coverage := s_coverage s in
    let llm_explanation := s_explanation s in
    let coverage_percentage := round2 (article_coverage * 100) in
    let band :=
      if Qle_bool 75 coverage_percentage then Full
      else if Qle_bool 40 coverage_percentage then Partial
      else Missing in
    let clause_label := str_or (title article) ("Article " ++ str_of_int article_number) in
    let clause_info :=
      {| ci_id := article_id;
         ci_article_number := article_number;
         ci_label := clause_label;
         ci_path := path article;
         ci_text := preview raw_article_text;
         coverage_score := coverage_percentage;
         matching_method := s_method s;
         debug_scores := make_debug_scores s coverage_percentage;
         llm_explanation := if truthy llm_explanation then llm_explanation else None;
         llm_confidence := if truthy (s_confidence s) then s_confidence s else None;
         ci_band :=
           if Qle_bool 75 coverage_percentage then None
           else if Qle_bool 40 coverage_percentage then Some Partial
           else None;
         partial_reason :=
           if Qle_bool 75 coverage_percentage then None
           else if Qle_bool 40 coverage_percentage then
             if truthy llm_explanation then llm_explanation
             else Some ("Article " ++ str_of_int article_number
                        ++ " has partial coverage based on article-level analysis.")
           else None;
         missing_reason :=
           if Qle_bool 75 coverage_percentage then None
           else if Qle_bool 40 coverage_percentage then None
           else if truthy llm_explanation then llm_explanation
           else Some ("Article " ++ str_of_int article_number
                      ++ " appears missing or very weak based on article-level analysis.")
      |} in
    let covered_clauses :=
      if Qle_bool 75 coverage_percentage then [clause_info] else [] in
    let partially_covered_clauses :=
      if Qle_bool 75 coverage_percentage then []
      else if Qle_bool 40 coverage_percentage then [clause_info] else [] in
    let missing_clauses :=
      if Qle_bool 75 coverage_percentage then []
      else if Qle_bool 40 coverage_percentage then [] else [clause_info] in
    Ok (Banded
          {| band := band;
             coverage_percentage := coverage_percentage;
             covered_clauses := covered_clauses;
             partially_covered_clauses := partially_covered_clauses;
             missing_clauses := missing_clauses;
             total_clauses := 1;
             covered_clauses_count := List.length covered_clauses;
             partially_covered_clauses_count := List.length partially_covered_clauses;
             missing_clauses_count := List.length missing_clauses;
             article_id := article_id;
             cr_article_number := article_number |}).

Definition calculate_article_coverage
    (article : Article) (extracted_text : list Page) (pdpl_articles : list Article)
    (llm_clause_match_func : option Judge) (bm25_score e5_score : Q)
  : result CoverageInfo :=
  let full_text := String.concat " " (map page_text extracted_text) in
  let full_text_normalized := normalize_text full_text in
  let article_number := article_number article in
  let article_id := id article in
  let clauses :=
    if is_main_article article then clauses article else [as_clause article] in
  match llm_clause_match_func, is_main_article article with
  | Some _, true =>
      _calculate_article_coverage_llm_article_level article full_text
        full_text_normalized article_number article_id clauses
        llm_clause_match_func bm25_score e5_score
  | _, _ =>
      match clauses with
      | [] => Ok (single_item_coverage article bm25_score e5_score)
      | _ :: _ =>
          clause_level_coverage article clauses full_text full_text_normalized
            llm_clause_match_func bm25_score e5_score
      end
  end.

End Scorer.

(** *** Aggregation *)

Definition GOV_ONLY_ARTICLES : list Z := [].

Definition INCLUDED_ARTICLES_FOR_OVERALL : list Z :=
  [4; 5; 10; 11; 12; 13; 15; 20; 25; 26; 29]%Z.

(** [n in s] *)
Definition mem (n : Z) (s : list Z) : bool := existsb (Z.eqb n) s.

(** Truth value of a collection: non-empty. *)
Definition nonempty {A : Type} (l : list A) : bool :=
  match l with
  | [] => false
  | _ :: _ => true
  end.

(** [list(range(lo, hi))] *)
Definition range (lo hi : Z) : list Z :=
  map (fun i => (lo + Z.of_nat i)%Z) (seq 0 (Z.to_nat (hi - lo))).

Fixpoint insert_sorted (x : Z) (l : list Z) : list Z :=
  match l with
  | [] => [x]
  | y :: l' => if (x <=? y)%Z then x :: l else y :: insert_sorted x l'
  end.

(** [sorted(l)] on article numbers *)
Definition sorted (l : list Z) : list Z := fold_right insert_sorted [] l.

(** What the aggregator reads of a match: each key is looked up with
    [.get] and may be absent. *)
Record MatchRecord : Type := {
  m_article_number : option Z;
  m_coverage_percentage : option Q;
  m_band : option Band
}.

Definition get {A : Type} (field : option A) (default : A) : A :=
  match field with
  | Some v => v
  | None => default
  end.

(** A [dict] keyed by article number, in insertion order. *)
Definition dict (V : Type) : Type := list (Z * V).

Definition keys {V : Type} (d : dict V) : list Z := map fst d.
Definition values {V : Type} (d : dict V) : list V := map snd d.

(** [if k not in d: d[k] = v] *)
Definition set_if_absent {V : Type} (d : dict V) (k : Z) (v : V) : dict V :=
  if mem k (keys d) then d else (d ++ [(k, v)])%list.

(** Whether the first loop skips a record. *)
Definition skipped (article_num : Z) : bool :=
  (nonempty INCLUDED_ARTICLES_FOR_OVERALL
     && negb (mem article_num INCLUDED_ARTICLES_FOR_OVERALL))
  || mem article_num GOV_ONLY_ARTICLES.

Definition collect_scores (matches : list MatchRecord) : dict Q :=
  fold_left
    (fun article_scores m =>
       let article_num := get (m_article_number m) 0%Z in
       if skipped article_num then article_scores
       else set_if_absent article_scores article_num
              (get (m_coverage_percentage m) 0))
    matches [].

Definition collect_bands (matches : list MatchRecord) : dict Band :=
  fold_left
    (fun unique_articles_by_band m =>
       let article_num := get (m_article_number m) 0%Z in
       if skipped article_num then unique_articles_by_band
       else set_if_absent unique_articles_by_band article_num
              (get (m_band m) Missing))
    matches [].

Definition band_eqb (a b : Band) : bool :=
  match a, b with
  | Full, Full | Partial, Partial | Missing, Missing => true
  | _, _ => false
  end.

Definition with_band (b : Band) (d : dict Band) : list Z :=
  sorted (map fst (filter (fun kv => band_eqb (snd kv) b) d)).

(** The report; the empty-input report has no article lists but
    [missing_articles]. *)
Record OverallReport : Type := {
  overall_score : Q;
  compliance_level : string;
  total_articles : nat;
  articles_analyzed : nat;
  covered_count : nat;
  covered_articles : option (list Z);
  partially_covered_count : nat;
  partially_covered_articles : option (list Z);
  low_coverage_count : nat;
  low_coverage_articles : option (list Z);
  missing_count : nat;
  missing_articles : list Z;
  average_article_coverage : Q
}.

(** The article numbers the score is computed over, from the caller's list. *)
Definition scope_of (all_article_numbers : option (list Z)) : list Z :=
  let all_article_numbers :=
    match all_article_numbers with
    | None => range 2 46
    | Some l => l
    end in
  if nonempty INCLUDED_ARTICLES_FOR_OVERALL
  then filter (fun num => mem num INCLUDED_ARTICLES_FOR_OVERALL) all_article_numbers
  else filter (fun num => negb (mem num GOV_ONLY_ARTICLES)) all_article_numbers.

Definition calculate_overall_score (matches : list MatchRecord) (total_articles : nat)
    (all_article_numbers : option (list Z)) : result OverallReport :=
  let all_article_numbers := scope_of all_article_numbers in
  let total_articles := List.length all_article_numbers in
  match matches with
  | [] =>
      Ok {| overall_score := 0.0;
            compliance_level := "Critical";
            total_articles := total_articles;
            articles_analyzed := 0;
            covered_count := 0;
            covered_articles := None;
            partially_covered_count := 0;
            partially_covered_articles := None;
            low_coverage_count := 0;
            low_coverage_articles := None;
            missing_count := total_articles;
            missing_articles := all_article_numbers;
            average_article_coverage := 0.0 |}
  | _ :: _ =>
      let article_scores := collect_scores matches in
      let total_coverage := sum (values article_scores) in
      if (total_articles =? 0)%nat then Raise ZeroDivisionError
      else
        let overall_score :=
          round2 (total_coverage / inject_Z (Z.of_nat total_articles)) in
        let unique_articles_by_band := collect_bands matches in
        let covered_articles := with_band Full unique_articles_by_band in
        let partially_covered_articles := with_band Partial unique_articles_by_band in
        let low_coverage_articles := with_band Missing unique_articles_by_band in
        let found_article_numbers := keys article_scores in
        let missing_article_numbers :=
          sorted (filter (fun num => negb (mem num found_article_numbers))
                    all_article_numbers) in
        let compliance_level :=
          if Qle_bool 75 overall_score then "compliant"
          else if Qle_bool 40 overall_score then "partially_compliant"
          else "not_compliant" in
        Ok {| overall_score := overall_score;
              compliance_level := compliance_level;
              total_articles := total_articles;
              articles_analyzed := List.length article_scores;
              covered_count := List.length covered_articles;
              covered_articles := Some covered_articles;
              partially_covered_count := List.length partially_covered_articles;
              partially_covered_articles := Some partially_covered_articles;
              low_coverage_count := List.length low_coverage_articles;
              low_coverage_articles := Some low_coverage_articles;
              missing_count := List.length missing_article_numbers;
              missing_articles := missing_article_numbers;
              average_article_coverage :=
                if nonempty article_scores
                then round2 (sum (values article_scores)
                             / inject_Z (Z.of_nat (List.length article_scores)))
                else 0.0 |}
  end.

(** The keys of a coverage record that the aggregator reads once
    [match.update(coverage_info)] has merged it into the match. *)
Definition as_match_record (c : CoverageInfo) : MatchRecord :=
  match c with
  | Banded r =>
      {| m_article_number := Some (cr_article_number r);
         m_coverage_percentage := Some (coverage_percentage r);
         m_band := Some (band r) |}
  | SingleItem r =>
      {| m_article_number := Some (si_article_number r);
         m_coverage_percentage := Some (si_coverage_percentage r);
         m_band := None |}
  end.

End ScoringUtils.

(** ** LLM re-ranking ([services/llm_service.py]) *)

Module LlmService.

(** A retrieval candidate, as [hybrid_retrieval_bm25_e5] builds it and
    [llm_rerank_articles] extends it. *)
Record Candidate : Type := {
  cand_article : Article;
  bm25_score : Q;
  index : Z;
  e5_similarity : option Q;
  similarity : option Q;
  llm_relevance_score : option Q;
  final_score : option Q
}.

(** [cand.get("e5_similarity", cand.get("similarity", default))] *)
Definition embedding_score (cand : Candidate) (default : Q) : Q :=
  match e5_similarity cand with
  | Some s => s
  | None =>
      match similarity cand with
      | Some s => s
      | None => default
      end
  end.

Definition key_final_score (cand : Candidate) : Q :=
  match final_score cand with
  | Some s => s
  | None => 0
  end.

Fixpoint insert_desc {A : Type} (key : A -> Q) (x : A) (l : list A) : list A :=
  match l with
  | [] => [x]
  | y :: l' => if Qle_bool (key y) (key x) then x :: l else y :: insert_desc key x l'
  end.

(** [l.sort(key=key, reverse=True)]: stable, largest key first. *)
Definition sort_desc {A : Type} (key : A -> Q) (l : list A) : list A :=
  fold_right (insert_desc key) [] l.

(** The body of [for i, cand in enumerate(candidates_to_rank)], with
    [scores[i:]] as second argument. *)
Definition apply_score (cand : Candidate) (score_i : option Q) : Candidate :=
  match score_i with
  | Some s =>
      let llm_relevance_score := s / 100.0 in
      let e5_score := embedding_score cand 0.5 in
      {| cand_article := cand_article cand;
         bm25_score := bm25_score cand;
         index := index cand;
         e5_similarity := e5_similarity cand;
         similarity := similarity cand;
         llm_relevance_score := Some llm_relevance_score;
         final_score := Some (0.7 * llm_relevance_score + 0.3 * e5_score) |}
  | None =>
      {| cand_article := cand_article cand;
         bm25_score := bm25_score cand;
         index := index cand;
         e5_similarity := e5_similarity cand;
         similarity := similarity cand;
         llm_relevance_score := llm_relevance_score cand;
         final_score := Some (embedding_score cand 0) |}
  end.

Fixpoint apply_scores (candidates_to_rank : list Candidate) (scores : list Q)
  : list Candidate :=
  match candidates_to_rank with
  | [] => []
  | cand :: rest =>
      match scores with
      | s :: scores' => apply_score cand (Some s) :: apply_scores rest scores'
      | [] => apply_score cand None :: apply_scores rest []
      end
  end.

(** [llm_rerank_articles].  [llm_enabled] and [openai_client] are the two
    attributes of the model holder the function tests; [reply] is the
    outcome of the request and of the parsing of its answer: the parsed
    score list, or the exception either of them raised. *)
Definition llm_rerank_articles (llm_enabled openai_client : bool)
    (reply : result (list Q)) (query_text : string)
    (candidates : list Candidate) (top_k : nat) : list Candidate :=
  if negb llm_enabled || negb openai_client then firstn top_k candidates
  else
    match candidates with
    | [] => []
    | _ :: _ =>
        match reply with
        | Raise _ => firstn top_k candidates
        | Ok [] => firstn top_k candidates
        | Ok scores =>
            let n := Nat.min 50 (List.length candidates) in
            let candidates_to_rank := apply_scores (firstn n candidates) scores in
            let candidates_to_rank := sort_desc key_final_score candidates_to_rank in
            let remaining :=
              map (fun cand => apply_score cand None) (skipn n candidates) in
            let all_results := (candidates_to_rank ++ remaining)%list in
            firstn top_k all_results
        end
    end.

(** What the regular expressions of [llm_clause_match] find in the answer of
    the model: the digits after [SCORE:], the word after [CONFIDENCE:] and
    the text after [EXPLANATION:], each absent when its pattern does not
    match. *)
Record ParsedReply : Type := {
  score_match : option Z;
  conf_match : option string;
  exp_match : option string
}.

(** The result [llm_clause_match] builds from a parsed answer. *)
Definition judge_result (p : ParsedReply) : JudgeResult :=
  let score :=
    match score_match p with
    | Some n => Z.min 100 (Z.max 0 n)
    | None => 0%Z
    end in
  {| score := inject_Z score / 100.0;
     explanation :=
       match exp_match p with
       | Some e => e
       | None => "LLM provided score but no explanation"
       end;
     confidence :=
       match conf_match p with
       | Some c => c
       | None => "medium"
       end |}.

(** [llm_clause_match].  The three flags are the attributes of the model
    holder it tests; [ask] is the request to the model together with the
    matching of its answer, [Raise] when either fails. *)
Definition llm_clause_match (llm_clause_matching llm_enabled openai_client : bool)
    (ask : string -> string -> Z -> string -> result ParsedReply) : Judge :=
  fun clause_text pdf_text article_number clause_label =>
    if negb llm_clause_matching || negb llm_enabled then None
    else if negb openai_client then None
    else
      match ask clause_text pdf_text article_number clause_label with
      | Ok p => Some (judge_result p)
      | Raise _ => None
      end.

End LlmService.

(** ** Matching pipeline ([services/matching_service.py]) *)

Module MatchingService.

(** A match, as the retrieval stage or the text matcher returns it. *)
Record Match : Type := {
  article : Article;
  similarity : option Q;
  match_type : string;
  bm25_score : option Q;
  e5_score : option Q;
  e5_similarity : option Q
}.

(** A match after [match.update(coverage_info)]. *)
Record ScoredMatch : Type := {
  retrieved : Match;
  coverage : CoverageInfo
}.

Definition MINIMUM_SIMILARITY : Q := 0.70.

(** [(article.get("id") or article.get("article_id"), article_num)]; corpus
    entries carry no [article_id] key. *)
Definition key_of (m : Match) : option string * Z :=
  (match id (article m) with
   | EmptyString => None
   | s => Some s
   end,
   article_number (article m)).

Definition key_eqb (a b : option string * Z) : bool :=
  match fst a, fst b with
  | Some x, Some y => (x =? y)%string
  | None, None => true
  | _, _ => false
  end && (snd a =? snd b)%Z.

Definition seen (k : option string * Z) (seen_keys : list (option string * Z)) : bool :=
  existsb (key_eqb k) seen_keys.

(** The loop over the hybrid-retrieval matches; the state is
    [(seen_keys, combined_matches)]. *)
Definition add_semantic (st : list (option string * Z) * list Match) (m : Match)
  : list (option string * Z) * list Match :=
  let '(seen_keys, combined_matches) := st in
  let similarity :=
    match similarity m with
    | Some s => s
    | None => 0.0
    end in
  if Qlt_bool similarity MINIMUM_SIMILARITY then st
  else
    let key := key_of m in
    if seen key seen_keys then st
    else (key :: seen_keys, (combined_matches ++ [m])%list).

(** The loop over the text matches; [match["similarity"]] raises when the
    key is absent. *)
Definition add_text (threshold : Q)
    (st : result (list (option string * Z) * list Match)) (m : Match)
  : result (list (option string * Z) * list Match) :=
  st <- st ;;
  let '(seen_keys, combined_matches) := st in
  let key := key_of m in
  if seen key seen_keys then Ok st
  else
    match similarity m with
    | None => Raise (KeyError "similarity")
    | Some s =>
        if Qle_bool threshold s
        then Ok (key :: seen_keys, (combined_matches ++ [m])%list)
        else Ok st
    end.

Definition combine_matches (semantic_matches text_matches : list Match)
    (threshold : Q) (use_text_fallback : bool) : result (list Match) :=
  let st := fold_left add_semantic semantic_matches ([], []) in
  st <- (if use_text_fallback
         then fold_left (add_text threshold) text_matches (Ok st)
         else Ok st) ;;
  Ok (snd st).

Definition get2 (a b : option Q) (default : Q) : Q :=
  match a with
  | Some v => v
  | None =>
      match b with
      | Some v => v
      | None => default
      end
  end.

Section Pipeline.

Variable _llm_only_mode : bool.

(** The judge adapter handed to the scorer. *)
Variable llm_clause_match : Judge.

Fixpoint score_all (extracted_text : list Page) (pdpl_articles : list Article)
    (combined_matches : list Match) : result (list ScoredMatch) :=
  match combined_matches with
  | [] => Ok []
  | m :: rest =>
      let bm25_score := ScoringUtils.get (bm25_score m) 0.0 in
      let e5_score := get2 (e5_score m) (e5_similarity m) 0.0 in
      coverage_info <-
        ScoringUtils.calculate_article_coverage _llm_only_mode (article m)
          extracted_text pdpl_articles (Some llm_clause_match)
          bm25_score e5_score ;;
      rest' <- score_all extracted_text pdpl_articles rest ;;
      Ok ({| retrieved := m; coverage := coverage_info |} :: rest')
  end.

(** [match_with_pdpl].  [semantic_matches] is what
    [hybrid_retrieval_bm25_e5] returned and [text_matcher] what
    [match_with_pdpl_text] returns for the main articles at [threshold]. *)
Definition match_with_pdpl (semantic_matches text_matcher : list Match)
    (extracted_text : list Page) (pdpl_articles : list Article)
    (threshold : Q) (top_k : nat) (use_text_fallback use_llm_rerank : bool)
  : result (list ScoredMatch) :=
  let text_matches := if use_text_fallback then text_matcher else [] in
  combined_matches <-
    combine_matches semantic_matches text_matches threshold use_text_fallback ;;
  scored <- score_all extracted_text pdpl_articles combined_matches ;;
  Ok (LlmService.sort_desc (fun sm => percentage_of (coverage sm)) scored).

End Pipeline.

End MatchingService.

(** ** Vocabulary of the specification *)

(** A coverage percentage in the closed interval from 0 to 100. *)
Definition percent (p : Q) : Prop := 0 <= p <= 100.

(** The contract of the judge adapter: a returned score lies in 0..1. *)
Definition judge_contract (llm_clause_match_func : option Judge) : Prop :=
  forall f, llm_clause_match_func = Some f ->
  forall clause_text pdf_text article_number clause_label r,
    f clause_text pdf_text article_number clause_label = Some r ->
    0 <= score r <= 1.

(** A judge that is unavailable for every item. *)
Definition always_null (f : Judge) : Prop :=
  forall clause_text pdf_text article_number clause_label,
    f clause_text pdf_text article_number clause_label = None.

(** The retrieval confidence as the scorer computes it: the lexical score is
    normalised only when it is positive. *)
Definition retrieval_blend (bm25_score e5_score : Q) : Q :=
  0.4 * (if Qlt_bool 0 bm25_score then py_min 1.0 (bm25_score / 10.0) else 0.0)
  + 0.6 * e5_score.

(** The band thresholds as the specification words them. *)
Definition thresholds (is_full is_partial is_missing : Prop) (p : Q) : Prop :=
  (is_full <-> 75 <= p) /\ (is_partial <-> 40 <= p /\ p < 75) /\ (is_missing <-> p < 40).

(** The fallback score as the specification words it:
    0.4 x min(1, lexical/10) + 0.6 x embedding. *)
Definition spec_traditional_score (lexical embedding : Q) : Q :=
  0.4 * Qmin 1 (lexical / 10) + 0.6 * embedding.

(** What the clause loop maintains. *)
Definition loop_ranges (st : ScoringUtils.LoopState) : Prop :=
  Forall (fun j => percent (coverage_score j))
    (ScoringUtils.ls_covered st ++ ScoringUtils.ls_partially_covered st
   ++ ScoringUtils.ls_missing st)
  /\ Forall (fun x => 0 <= x <= 1) (ScoringUtils.clause_coverage_scores st).

(** Every band and every clause category of a coverage record follows the
    thresholds. *)
Definition banded_by_thresholds (info : CoverageInfo) : Prop :=
  match info with
  | Banded r =>
      thresholds (band r = Full) (band r = Partial) (band r = Missing)
        (coverage_percentage r)
      /\ forall j, In j (judgments_of info) ->
           thresholds (In j (covered_clauses r)) (In j (partially_covered_clauses r))
             (In j (missing_clauses r)) (coverage_score j)
  | SingleItem r =>
      thresholds (coverage_type r = covered) (coverage_type r = partially_covered)
        (coverage_type r = missing) (si_coverage_percentage r)
  end.

(** What the clause loop maintains about its three lists. *)
Definition loop_sorted_by_band (st : ScoringUtils.LoopState) : Prop :=
  Forall (fun j => 75 <= coverage_score j) (ScoringUtils.ls_covered st)
  /\ Forall (fun j => 40 <= coverage_score j /\ coverage_score j < 75)
       (ScoringUtils.ls_partially_covered st)
  /\ Forall (fun j => coverage_score j < 40) (ScoringUtils.ls_missing st).

(** ** Sample inputs *)

Module Samples.

Definition consent_clause : Clause :=
  {| c_id := "PDPL:4:1"; c_label := "1"; c_path := "4/1";
     c_text := "The controller shall obtain consent." |}.

(** A main article with one clause. *)
Definition consent_article : Article :=
  {| id := "PDPL:4"; article_number := 4; label := "0"; path := "4";
     text := "Consent. The controller shall obtain consent."; title := "";
     is_main_article := true; clauses := [consent_clause] |}.

(** A main article without clauses. *)
Definition heading_article : Article :=
  {| id := "PDPL:5"; article_number := 5; label := "0"; path := "5";
     text := "Rights of the data subject"; title := "";
     is_main_article := true; clauses := [] |}.

(** A clause entry scored on its own. *)
Definition clause_entry_article : Article :=
  {| id := "PDPL:4:1"; article_number := 4; label := "1"; path := "4/1";
     text := "The controller shall obtain consent."; title := "";
     is_main_article := false; clauses := [] |}.

Definition policy : list Page :=
  [ {| page := 1; page_text := "We ask for consent" |};
    {| page := 2; page_text := "before we process data." |} ].

(** A judge that is unavailable. *)
Definition judge_null : Judge := fun _ _ _ _ => None.

(** A judge that answers every request with the same score. *)
Definition judge_const (s : Q) : Judge :=
  fun _ _ _ _ => Some {| score := s; explanation := "Consent is requested.";
                         confidence := "high" |}.

End Samples.

(** The counts of a coverage record agree with its lists, and its band and
    its clause categories follow the thresholds. *)
Definition well_formed (r : CoverageRecord) : Prop :=
  banded_by_thresholds (Banded r)
  /\ covered_clauses_count r = List.length (covered_clauses r)
  /\ partially_covered_clauses_count r = List.length (partially_covered_clauses r)
  /\ missing_clauses_count r = List.length (missing_clauses r)
  /\ total_clauses r = List.length (judgments_of (Banded r)).

(** The text the article-level path hands to the judge. *)
Definition article_requirement (a : Article) (cls : list Clause) : string :=
  TextUtils.strip
    (ScoringUtils.str_or (text a) (String.concat " " (map c_text cls))).

(** The document text the scorer works on. *)
Definition document_text (pages : list Page) : string :=
  String.concat " " (map page_text pages).

(** The test by which the clause loop passes over a clause: its normalized
    text is empty, the heading word alone, or the heading word with the
    article's number. *)
Definition skipped_clause (article_number : Z) (clause : Clause) : bool :=
  let clause_text := TextUtils.normalize_text (c_text clause) in
  (clause_text =? "")%string
  || (clause_text =? "article")%string
  || (clause_text =? "article " ++ str_of_int article_number)%string.

(** The ids of the items the scorer judges for an entry, in the order in
    which it judges them.  With a judge function a main article is one item,
    judged as a whole (no item when it has no requirement text); otherwise
    the items are the clauses the loop does not pass over, the entry itself
    standing for its only clause when it is not a main article. *)
Definition scored_items (with_judge : bool) (a : Article) : list string :=
  if with_judge && is_main_article a then
    if (article_requirement a (clauses a) =? "")%string then [] else [id a]
  else
    map c_id
      (filter (fun c => negb (skipped_clause (article_number a) c))
         (if is_main_article a then clauses a else [as_clause a])).

(** A record whose judgments all carry the traditional method and the score
    [t], with consistent counts and the article percentage [t] decides. *)
Definition traditional_record (t : Q) (rec : CoverageRecord) : Prop :=
  covered_clauses_count rec = List.length (covered_clauses rec)
  /\ partially_covered_clauses_count rec = List.length (partially_covered_clauses rec)
  /\ missing_clauses_count rec = List.length (missing_clauses rec)
  /\ total_clauses rec = List.length (judgments_of (Banded rec))
  /\ Forall (fun j => matching_method j = traditional_bm25_e5
                      /\ coverage_score j = round2 (t * 100))
       (judgments_of (Banded rec))
  /\ (judgments_of (Banded rec) <> [] -> coverage_percentage rec = round2 (t * 100))
  /\ (judgments_of (Banded rec) = [] -> coverage_percentage rec == 0).

(** What the traditional path yields for an entry whose traditional score is
    [t] and whose items to judge are [items]: exactly one judgment for each
    item, in their order, each with the traditional method and the score
    [t] as a rounded percentage; [t] as the article percentage as soon as
    there is an item (zero when there is none); and counts that agree with
    the lists. *)
Definition fallback_outcome (t : Q) (items : list string) (rec : CoverageRecord) : Prop :=
  map ci_id (judgments_of (Banded rec)) = items
  /\ Forall (fun j => matching_method j = traditional_bm25_e5
                      /\ coverage_score j = round2 (t * 100))
       (judgments_of (Banded rec))
  /\ (items <> [] -> coverage_percentage rec = round2 (t * 100))
  /\ (items = [] -> coverage_percentage rec == 0)
  /\ covered_clauses_count rec = List.length (covered_clauses rec)
  /\ partially_covered_clauses_count rec = List.length (partially_covered_clauses rec)
  /\ missing_clauses_count rec = List.length (missing_clauses rec)
  /\ total_clauses rec = List.length items.

(** The re-rank blend as the specification words it. *)
Definition spec_blend (llm_score embedding : Q) : Q :=
  0.7 * (llm_score / 100) + 0.3 * embedding.

(** [c'] is candidate [c], the [i]-th of the embedding-ranked list, after the
    re-rank stage: the blend when it lies within the first 50 and a parsed
    score exists for it, its embedding score otherwise. *)
Definition reranked_as (scores : list Q) (i : nat)
    (c c' : LlmService.Candidate) : Prop :=
  LlmService.cand_article c' = LlmService.cand_article c
  /\ LlmService.e5_similarity c' = LlmService.e5_similarity c
  /\ forall e, LlmService.e5_similarity c = Some e ->
       (forall s, (i < 50)%nat -> nth_error scores i = Some s ->
          exists v, LlmService.final_score c' = Some v /\ v == spec_blend s e)
       /\ ((50 <= i)%nat \/ nth_error scores i = None ->
           LlmService.final_score c' = Some e).

Module RerankSamples.

(** A candidate as the embedding stage leaves it. *)
Definition candidate (a : Article) (embedding : Q) : LlmService.Candidate :=
  {| LlmService.cand_article := a;
     LlmService.bm25_score := 3;
     LlmService.index := 0;
     LlmService.e5_similarity := Some embedding;
     LlmService.similarity := Some embedding;
     LlmService.llm_relevance_score := None;
     LlmService.final_score := None |}.

Definition shortlist : list LlmService.Candidate :=
  [ candidate Samples.consent_article 0.6;
    candidate Samples.heading_article 0.5 ].

End RerankSamples.

(** *** Aggregation, as the specification words it *)

(** The article number the aggregator reads from a record. *)
Definition record_number (m : ScoringUtils.MatchRecord) : Z :=
  ScoringUtils.get (ScoringUtils.m_article_number m) 0%Z.

Definition record_percentage (m : ScoringUtils.MatchRecord) : Q :=
  ScoringUtils.get (ScoringUtils.m_coverage_percentage m) 0.

(** The percentage of article [n]: that of its first record, zero when the
    article was never retrieved. *)
Definition first_percentage (n : Z) (matches : list ScoringUtils.MatchRecord) : Q :=
  match find (fun m => (record_number m =? n)%Z) matches with
  | Some m => record_percentage m
  | None => 0
  end.

(** [sum(coveragePercentage for scoped articles found)] *)
Definition found_scoped_sum (scope : list Z) (matches : list ScoringUtils.MatchRecord) : Q :=
  sum (map (fun n => first_percentage n matches) scope).

(** [sum(...) / count(scopeArticleNumbers)] *)
Definition spec_overall_score (scope : list Z) (matches : list ScoringUtils.MatchRecord) : Q :=
  found_scoped_sum scope matches / inject_Z (Z.of_nat (List.length scope)).

(** [d.get(n)] *)
Definition lookup {V : Type} (n : Z) (d : ScoringUtils.dict V) : option V :=
  option_map snd (find (fun kv => (fst kv =? n)%Z) d).

(** One step of the loop that fills [article_scores]. *)
Definition score_step (article_scores : ScoringUtils.dict Q) (m : ScoringUtils.MatchRecord)
  : ScoringUtils.dict Q :=
  if ScoringUtils.skipped (record_number m) then article_scores
  else ScoringUtils.set_if_absent article_scores (record_number m) (record_percentage m).

Module AggregatorSamples.

Definition record (n : Z) (p : Q) (b : Band) : ScoringUtils.MatchRecord :=
  {| ScoringUtils.m_article_number := Some n;
     ScoringUtils.m_coverage_percentage := Some p;
     ScoringUtils.m_band := Some b |}.

(** Scope 4, 5, 10; only article 4 retrieved, at 90% (Full). *)
Definition only_article_4 : list ScoringUtils.MatchRecord := [record 4 90 Full].

(** The same with article 4 fully covered. *)
Definition article_4_complete : list ScoringUtils.MatchRecord := [record 4 100 Full].

Definition scope_4_5_10 : list Z := [4; 5; 10]%Z.

End AggregatorSamples.

(** *** Where a scored match comes from *)

(** A match that entered the scoring loop: a hybrid-retrieval match at or
    above the similarity floor, or, with the text fallback enabled, a text
    match at or above the caller's threshold. *)
Definition admitted (semantic_matches text_matches : list MatchingService.Match)
    (threshold : Q) (use_text_fallback : bool) (m : MatchingService.Match) : Prop :=
  (In m semantic_matches
   /\ exists s, MatchingService.similarity m = Some s
                /\ MatchingService.MINIMUM_SIMILARITY <= s)
  \/ (use_text_fallback = true
      /\ In m text_matches
      /\ exists s, MatchingService.similarity m = Some s /\ threshold <= s).


Module MatchingSamples.

(** A text match whose similarity lies between the threshold and the floor. *)
Definition text_match : MatchingService.Match :=
  {| MatchingService.article := Samples.consent_article;
     MatchingService.similarity := Some 0.55;
     MatchingService.match_type := "text";
     MatchingService.bm25_score := None;
     MatchingService.e5_score := None;
     MatchingService.e5_similarity := None |}.

(** A hybrid-retrieval match above the floor. *)
Definition hybrid_match : MatchingService.Match :=
  {| MatchingService.article := Samples.heading_article;
     MatchingService.similarity := Some 0.82;
     MatchingService.match_type := "hybrid_bm25_e5";
     MatchingService.bm25_score := Some 4;
     MatchingService.e5_score := Some 0.82;
     MatchingService.e5_similarity := None |}.

End MatchingSamples.

(** *** Text, as lists of characters *)

(** A character the normalizer keeps: a word character or whitespace. *)
Definition plain_char (c : ascii) : bool :=
  TextUtils.is_word c || TextUtils.is_space c.

(** A character of normalized text: a word character that [str.lower] leaves
    alone, or the space. *)
Definition normal_char (c : ascii) : Prop :=
  (TextUtils.is_word c = true /\ TextUtils.lower_char c = c) \/ c = " "%char.

(** [normalize_text] on the list of characters. *)
Definition normalize_chars (l : list ascii) : list ascii :=
  filter plain_char
    (TextUtils.collapse_ws false
       (rev (TextUtils.lstrip_chars (rev (TextUtils.lstrip_chars
          (map TextUtils.lower_char l)))))).

(** The list is empty or starts with a character that is not whitespace. *)
Definition head_ok (l : list ascii) : Prop :=
  match l with
  | [] => True
  | c :: _ => TextUtils.is_space c = false
  end.

(** ** Keyword overlap and the text matcher
       ([utils/text_utils.py], [services/matching_service.py]) *)

Module TextMatching.

Import TextUtils.

(** [str.split()]: the maximal runs of characters that are not whitespace;
    [tok] holds, reversed, the run being read. *)
Fixpoint split_from (tok : list ascii) (l : list ascii) : list string :=
  match l with
  | [] =>
      match tok with
      | [] => []
      | _ :: _ => [of_chars (rev tok)]
      end
  | c :: l' =>
      if is_space c then
        match tok with
        | [] => split_from [] l'
        | _ :: _ => of_chars (rev tok) :: split_from [] l'
        end
      else split_from (c :: tok) l'
  end.

Definition split (s : string) : list string := split_from [] (chars s).

(** [set(words)], as the list of its distinct members. *)
Definition set_of (words : list string) : list string := nodup string_dec words.

(** [k in s] for a set of words *)
Definition member (k : string) (s : list string) : bool := existsb (String.eqb k) s.

Definition calculate_keyword_overlap (text1 text2 : string) : Q :=
  let keywords1 := set_of (split text1) in
  let keywords2 := set_of (split text2) in
  match keywords1 with
  | [] => 0
  | _ :: _ =>
      inject_Z (Z.of_nat (List.length (filter (fun k => member k keywords2) keywords1)))
      / inject_Z (Z.of_nat (List.length keywords1))
  end.

(** [a in b] for strings *)
Fixpoint contains (a b : string) : bool :=
  if String.prefix a b then true
  else
    match b with
    | EmptyString => false
    | String _ b' => contains a b'
    end.

(** Python's [max(a, b)]: the second argument only when it is larger. *)
Definition py_max (a b : Q) : Q := if Qlt_bool a b then b else a.

(** A match of the text matcher. *)
Record TextMatch : Type := {
  article : Article;
  similarity : Q;
  match_type : string;
  keyword_overlap : Q
}.

Section Matcher.

(** [SequenceMatcher(None, a, b).ratio()] of the standard library. *)
Variable ratio : string -> string -> Q.

Definition similarity_score (text1 text2 : string) : Q :=
  let text1_clean := sub_whitespace_runs (strip (lower text1)) in
  let text2_clean := sub_whitespace_runs (strip (lower text2)) in
  ratio text1_clean text2_clean.

(** The score the matcher gives an article from the two measures. *)
Definition final_score_of (sim keyword_overlap : Q) : Q :=
  if Qle_bool 0.95 sim && Qle_bool 0.95 keyword_overlap then 1.0
  else if Qle_bool 0.99 keyword_overlap then py_max sim 0.95
  else py_max sim (keyword_overlap * 0.9).

(** The body of [for article in pdpl_articles]: the match it appends, if
    any. *)
Definition match_article (full_text_normalized : string) (threshold : Q)
    (a : Article) : option TextMatch :=
  match text a with
  | EmptyString => None
  | article_text =>
      let article_text_normalized := normalize_text article_text in
      let sim := similarity_score full_text_normalized article_text_normalized in
      let partial_match :=
        contains article_text_normalized full_text_normalized
        || contains full_text_normalized article_text_normalized in
      let keyword_overlap :=
        calculate_keyword_overlap article_text_normalized full_text_normalized in
      let final_score := final_score_of sim keyword_overlap in
      if Qle_bool threshold final_score || partial_match then
        Some {| article := a;
                similarity := final_score;
                match_type := if Qle_bool threshold sim then "text" else "partial";
                keyword_overlap := keyword_overlap |}
      else None
  end.

Fixpoint collect_matches (full_text_normalized : string) (threshold : Q)
    (pdpl_articles : list Article) : list TextMatch :=
  match pdpl_articles with
  | [] => []
  | a :: rest =>
      match match_article full_text_normalized threshold a with
      | Some m => m :: collect_matches full_text_normalized threshold rest
      | None => collect_matches full_text_normalized threshold rest
      end
  end.

Definition match_with_pdpl_text (extracted_text : list Page)
    (pdpl_articles : list Article) (threshold : Q) : list TextMatch :=
  let full_text := String.concat " " (map page_text extracted_text) in
  let full_text_normalized := normalize_text full_text in
  LlmService.sort_desc similarity
    (collect_matches full_text_normalized threshold pdpl_articles).

End Matcher.

(** A text match as [match_with_pdpl] reads it. *)
Definition as_match (m : TextMatch) : MatchingService.Match :=
  {| MatchingService.article := article m;
     MatchingService.similarity := Some (similarity m);
     MatchingService.match_type := match_type m;
     MatchingService.bm25_score := None;
     MatchingService.e5_score := None;
     MatchingService.e5_similarity := None |}.

End TextMatching.

(** A list in the order [sort(key=key, reverse=True)] leaves it: the keys
    never increase. *)
Definition descending {A : Type} (key : A -> Q) (l : list A) : Prop :=
  Sorted (fun a b => key b <= key a) l.

(** The measured similarity lies between 0 and 1 (as a
    [SequenceMatcher] ratio does). *)
Definition ratio_in_unit (ratio : string -> string -> Q) : Prop :=
  forall a b, 0 <= ratio a b <= 1.

(** *** More vocabulary for the scorer *)

(** The record of the article-level path for an article without text. *)
Definition empty_article_record (a : Article) : CoverageRecord :=
  {| band := Missing;
     coverage_percentage := 0.0;
     covered_clauses := [];
     partially_covered_clauses := [];
     missing_clauses := [];
     total_clauses := 0;
     covered_clauses_count := 0;
     partially_covered_clauses_count := 0;
     missing_clauses_count := 0;
     article_id := id a;
     cr_article_number := article_number a |}.

(** The counts a coverage result reports agree with the lists it carries. *)
Definition counts_consistent (info : CoverageInfo) : Prop :=
  match info with
  | Banded r =>
      covered_clauses_count r = List.length (covered_clauses r)
      /\ partially_covered_clauses_count r = List.length (partially_covered_clauses r)
      /\ missing_clauses_count r = List.length (missing_clauses r)
      /\ total_clauses r
         = (covered_clauses_count r + partially_covered_clauses_count r
            + missing_clauses_count r)%nat
  | SingleItem r =>
      si_covered_clauses_count r = List.length (si_covered_clauses r)
      /\ si_missing_clauses_count r = List.length (si_missing_clauses r)
      /\ si_total_clauses r = (si_covered_clauses_count r + si_missing_clauses_count r)%nat
  end.

(** What the clause loop maintains about the number of its entries. *)
Definition loop_counted (st : ScoringUtils.LoopState) : Prop :=
  List.length (ScoringUtils.clause_coverage_scores st)
  = (List.length (ScoringUtils.ls_covered st)
     + List.length (ScoringUtils.ls_partially_covered st)
     + List.length (ScoringUtils.ls_missing st))%nat.

(** What the clause loop maintains when every clause gets the traditional
    score [t]. *)
Definition loop_traditional (t : Q) (st : ScoringUtils.LoopState) : Prop :=
  Forall (fun j => matching_method j = traditional_bm25_e5
                   /\ coverage_score j = round2 (t * 100))
    (ScoringUtils.ls_covered st ++ ScoringUtils.ls_partially_covered st
     ++ ScoringUtils.ls_missing st)
  /\ Forall (fun x => x = t) (ScoringUtils.clause_coverage_scores st).

(** What the clause loop maintains when every clause it scores gets the
    percentage [p]: the judgments filed so far are those of the clauses
    [ids], in their order, all in the one list [p] selects. *)
Definition loop_filed (p : Q) (ids : list string) (st : ScoringUtils.LoopState) : Prop :=
  map ci_id (ScoringUtils.ls_covered st ++ ScoringUtils.ls_partially_covered st
             ++ ScoringUtils.ls_missing st) = ids
  /\ if Qle_bool 75 p
     then ScoringUtils.ls_partially_covered st = [] /\ ScoringUtils.ls_missing st = []
     else if Qle_bool 40 p
     then ScoringUtils.ls_covered st = [] /\ ScoringUtils.ls_missing st = []
     else ScoringUtils.ls_covered st = [] /\ ScoringUtils.ls_partially_covered st = [].

(** One step of the loop that fills [unique_articles_by_band]. *)
Definition band_step (unique_articles_by_band : ScoringUtils.dict Band)
    (m : ScoringUtils.MatchRecord) : ScoringUtils.dict Band :=
  if ScoringUtils.skipped (record_number m) then unique_articles_by_band
  else ScoringUtils.set_if_absent unique_articles_by_band (record_number m)
         (ScoringUtils.get (ScoringUtils.m_band m) Missing).

(** Some record of the list is about article [n]. *)
Definition retrieved_article (matches : list ScoringUtils.MatchRecord) (n : Z) : Prop :=
  exists m, In m matches /\ record_number m = n.

(** ** The article numbers of the corpus ([utils/scoring_utils.py]) *)

Module Corpus.

(** [get_applicable_article_numbers]: the distinct article numbers of the
    corpus, in ascending order; an entry whose number is missing or 0 is left
    out. *)
Definition get_applicable_article_numbers (pdpl_articles : list Article) : list Z :=
  ScoringUtils.sorted
    (nodup Z.eq_dec
       (filter (fun n => negb (n =? 0)%Z) (map article_number pdpl_articles))).

End Corpus.

(** What both loops of the combination maintain: the seen keys are the keys
    of the combined matches, which are pairwise distinct. *)
Definition combining
    (st : list (option string * Z) * list MatchingService.Match) : Prop :=
  (forall k, In k (fst st) <-> In k (map MatchingService.key_of (snd st)))
  /\ NoDup (map MatchingService.key_of (snd st)).

(** ** Retrieval ([services/retrieval_service.py]) *)

Module RetrievalService.

(** [semantic_search_pdpl].  [qdrant_client] tells whether the vector store
    exists; [search] is the embedding of the query and the search of the
    store for [top_k] hits, each an article with its score, [Raise] when
    either fails. *)
Definition semantic_search_pdpl (qdrant_client : bool)
    (search : nat -> result (list (Article * Q))) (query_text : string) (top_k : nat)
  : list MatchingService.Match :=
  if negb qdrant_client then []
  else
    match search top_k with
    | Ok search_results =>
        map (fun hit : Article * Q =>
               {| MatchingService.article := fst hit;
                  MatchingService.similarity := Some (snd hit);
                  MatchingService.match_type := "semantic";
                  MatchingService.bm25_score := None;
                  MatchingService.e5_score := None;
                  MatchingService.e5_similarity := None |})
            search_results
    | Raise _ => []
    end.

(** A candidate after the embedding stage. *)
Definition embedded (cosine : Article -> Q) (hit : Article * Q * Z)
  : LlmService.Candidate :=
  let '(a, bm25, idx) := hit in
  {| LlmService.cand_article := a;
     LlmService.bm25_score := bm25;
     LlmService.index := idx;
     LlmService.e5_similarity := Some (cosine a);
     LlmService.similarity := Some (cosine a);
     LlmService.llm_relevance_score := None;
     LlmService.final_score := None |}.

(** [x['e5_similarity']] as sort key *)
Definition key_e5 (c : LlmService.Candidate) : Q :=
  match LlmService.e5_similarity c with
  | Some s => s
  | None => 0
  end.

(** The conversion of a candidate to the standard match format;
    [candidate['e5_similarity']] raises when the key is absent.  (The
    [llm_relevance_score] the code copies is read by no later stage.) *)
Definition to_match (match_type : string) (candidate : LlmService.Candidate)
  : result MatchingService.Match :=
  match LlmService.e5_similarity candidate with
  | None => Raise (KeyError "e5_similarity")
  | Some e5 =>
      Ok {| MatchingService.article := LlmService.cand_article candidate;
            MatchingService.similarity :=
              Some (match LlmService.final_score candidate with
                    | Some f => f
                    | None => e5
                    end);
            MatchingService.match_type := match_type;
            MatchingService.bm25_score := Some (LlmService.bm25_score candidate);
            MatchingService.e5_score := Some e5;
            MatchingService.e5_similarity := None |}
  end.

Fixpoint to_matches (match_type : string) (top_candidates : list LlmService.Candidate)
  : result (list MatchingService.Match) :=
  match top_candidates with
  | [] => Ok []
  | c :: rest =>
      m <- to_match match_type c ;;
      ms <- to_matches match_type rest ;;
      Ok (m :: ms)
  end.

Section Hybrid.

(** The model holder: whether the lexical index is built, and the three LLM
    attributes. *)
Variables bm25_ready llm_enabled llm_reranking openai_client : bool.

(** The fallback search, already applied to the query. *)
Variable semantic_search : nat -> list MatchingService.Match.

(** The lexical stage: the candidates it selects, best first, each with its
    lexical score and its index ([Raise] when the stage fails). *)
Variable lexical_stage : result (list (Article * Q * Z)).

(** The embedding stage: the cosine similarity between the query and an
    article ([Raise] when the embedding model fails). *)
Variable embedding_stage : result (Article -> Q).

(** The answer of the re-rank request, as [llm_rerank_articles] takes it. *)
Variable reply : result (list Q).

Definition hybrid_retrieval_bm25_e5 (query_text : string) (top_k_bm25 top_k_final : nat)
    (use_llm_rerank : bool) : list MatchingService.Match :=
  if negb bm25_ready then semantic_search top_k_final
  else
    match lexical_stage with
    | Raise _ => semantic_search top_k_final
    | Ok [] => semantic_search top_k_final
    | Ok hits =>
        match embedding_stage with
        | Raise _ => semantic_search top_k_final
        | Ok cosine =>
            let candidates := map (embedded cosine) hits in
            let candidates := LlmService.sort_desc key_e5 candidates in
            let top_candidates :=
              if use_llm_rerank && llm_enabled && llm_reranking
              then LlmService.llm_rerank_articles llm_enabled openai_client reply
                     query_text candidates top_k_final
              else firstn top_k_final candidates in
            let match_type :=
              if use_llm_rerank && llm_enabled
              then "hybrid_bm25_e5_llm" else "hybrid_bm25_e5" in
            match to_matches match_type top_candidates with
            | Ok matches => matches
            | Raise _ => semantic_search top_k_final
            end
        end
    end.

End Hybrid.

End RetrievalService.

(** ** The judge-only pipeline ([services/matching_service.py]) *)

Module LlmOnly.

(** A match of [match_with_pdpl_llm_only] after [match.update(coverage_info)]. *)
Record Entry : Type := {
  article : Article;
  entry_article_number : Z;
  article_title : string;
  coverage : CoverageInfo
}.

Section Pipeline.

Variable _llm_only_mode : bool.
Variable llm_clause_match : Judge.

Fixpoint score_main_articles (extracted_text : list Page) (pdpl_articles : list Article)
    (main_articles : list Article) : result (list Entry) :=
  match main_articles with
  | [] => Ok []
  | a :: rest =>
      coverage_info <-
        ScoringUtils.calculate_article_coverage _llm_only_mode a extracted_text
          pdpl_articles (Some llm_clause_match) 0.0 0.0 ;;
      rest' <- score_main_articles extracted_text pdpl_articles rest ;;
      Ok ({| article := a;
             entry_article_number := article_number a;
             article_title := title a;
             coverage := coverage_info |} :: rest')
  end.

Definition match_with_pdpl_llm_only (extracted_text : list Page)
    (pdpl_articles : list Article) : result (list Entry) :=
  let main_articles := filter is_main_article pdpl_articles in
  matches <- score_main_articles extracted_text pdpl_articles main_articles ;;
  Ok (LlmService.sort_desc (fun m => percentage_of (coverage m)) matches).

End Pipeline.

End LlmOnly.

(** What the judge-only pipeline stores for a main article: the empty record
    when the article has no requirement text, the judge's score as a
    percentage when the judge answers, and 0 from the traditional score
    (there are no retrieval scores) when it does not. *)
Definition judged_entry (judge : Judge) (pages : list Page) (e : LlmOnly.Entry) : Prop :=
  let a := LlmOnly.article e in
  let requirement := article_requirement a (clauses a) in
  exists r,
    LlmOnly.coverage e = Banded r
    /\ (requirement = "" -> r = empty_article_record a)
    /\ (requirement <> "" ->
        match judge requirement (document_text pages) (article_number a)
                "Article-level" with
        | Some answer => coverage_percentage r = round2 (score answer * 100)
        | None => coverage_percentage r == 0
        end).

(** Every main article with requirement text gets an answer from the judge. *)
Definition judge_answers_all (judge : Judge) (pages : list Page)
    (main_articles : list Article) : Prop :=
  forall a, In a main_articles ->
    article_requirement a (clauses a) <> "" ->
    judge (article_requirement a (clauses a)) (document_text pages) (article_number a)
      "Article-level" <> None.

(** [x.get("similarity", 0)] as a ranking key *)
Definition similarity_key (m : MatchingService.Match) : Q :=
  match MatchingService.similarity m with
  | Some s => s
  | None => 0
  end.

(** A match of the hybrid path without re-ranking: its similarity is its
    embedding score, it carries its lexical score, and it is typed as
    such. *)
Definition embedding_ranked (m : MatchingService.Match) : Prop :=
  exists e,
    MatchingService.similarity m = Some e
    /\ MatchingService.e5_score m = Some e
    /\ MatchingService.bm25_score m <> None
    /\ MatchingService.match_type m = "hybrid_bm25_e5".

(** ** The pipeline with its retrieval stages in place *)

Module Pipeline.

Section Composed.

Variable _llm_only_mode : bool.
Variable llm_clause_match : Judge.
Variable ratio : string -> string -> Q.
Variables bm25_ready llm_enabled llm_reranking openai_client qdrant_client : bool.
Variable search : nat -> result (list (Article * Q)).
Variable lexical_stage : result (list (Article * Q * Z)).
Variable embedding_stage : result (Article -> Q).
Variable reply : result (list Q).

(** [match_with_pdpl] with the retrieval it calls: the hybrid retrieval for
    three times [top_k] matches, and the text matcher over the main
    articles. *)
Definition match_with_pdpl (extracted_text : list Page) (pdpl_articles : list Article)
    (threshold : Q) (top_k : nat) (use_text_fallback use_llm_rerank : bool)
  : result (list MatchingService.ScoredMatch) :=
  let full_text := String.concat " " (map page_text extracted_text) in
  let main_articles := filter is_main_article pdpl_articles in
  let semantic_matches :=
    RetrievalService.hybrid_retrieval_bm25_e5 bm25_ready llm_enabled llm_reranking
      openai_client
      (RetrievalService.semantic_search_pdpl qdrant_client search full_text)
      lexical_stage embedding_stage reply full_text 200 (top_k * 3) use_llm_rerank in
  let text_matcher :=
    map TextMatching.as_match
      (TextMatching.match_with_pdpl_text ratio extracted_text main_articles threshold) in
  MatchingService.match_with_pdpl _llm_only_mode llm_clause_match semantic_matches
    text_matcher extracted_text pdpl_articles threshold top_k use_text_fallback
    use_llm_rerank.

End Composed.

End Pipeline.

(** The embedding score [match_with_pdpl] hands to the scorer for a match. *)
Definition scorer_embedding_input (m : MatchingService.Match) : Q :=
  MatchingService.get2 (MatchingService.e5_score m) (MatchingService.e5_similarity m) 0.0.

(** The cosine similarities of the embedding stage do not exceed 1. *)
Definition cosine_at_most_one (embedding_stage : result (Article -> Q)) : Prop :=
  forall cosine, embedding_stage = Ok cosine -> forall a, cosine a <= 1.

(** ** Loading the corpus ([utils/file_utils.py]) *)

Module FileUtils.

(** A clause of the nested JSON format, with the defaults of the [.get]
    calls filled in: its label, its text and its sub-clauses. *)
Unset Elimination Schemes.
Inductive RawClause : Type :=
| raw_clause (label text : string) (clauses : list RawClause).
Set Elimination Schemes.

(** An article of the nested JSON format; [raw_text] is absent when the
    article has no ['text'] key. *)
Record RawArticle : Type := {
  number : Z;
  raw_text : option string;
  raw_clauses : list RawClause
}.

(** The entry [process_clauses_recursively] builds for a clause. *)
Record ClauseEntry : Type := {
  e_id : string;
  e_article_number : Z;
  e_label : string;
  e_text : string;
  e_path : string;
  e_parent_id : string;
  e_is_main_article : bool;
  e_full_path : string
}.

(** [s.replace(a, b)] for single characters *)
Fixpoint replace (a b : ascii) (s : string) : string :=
  match s with
  | EmptyString => EmptyString
  | String c s' => String (if Ascii.eqb c a then b else c) (replace a b s')
  end.

(** Truth value of a string: [''] is false. *)
Definition has_text (t : string) : bool :=
  match t with
  | EmptyString => false
  | String _ _ => true
  end.

(** [parent_id or default] *)
Definition or_default (parent_id : option string) (default : string) : string :=
  match parent_id with
  | Some (String _ _ as s) => s
  | _ => default
  end.

(** The body of [for clause in clauses], with the recursive call in it. *)
Fixpoint process_clause (article_number : Z) (parent_path : string)
    (parent_id : option string) (clause : RawClause) : list ClauseEntry :=
  match clause with
  | raw_clause clause_label clause_text sub =>
      let current_path :=
        match parent_path with
        | EmptyString => clause_label
        | _ => (parent_path ++ "/" ++ clause_label)%string
        end in
      let clause_entry :=
        {| e_id := ("PDPL:" ++ str_of_int article_number ++ ":"
                    ++ replace "/" ":" current_path)%string;
           e_article_number := article_number;
           e_label := clause_label;
           e_text := clause_text;
           e_path := (str_of_int article_number ++ "/" ++ current_path)%string;
           e_parent_id :=
             or_default parent_id ("PDPL:" ++ str_of_int article_number)%string;
           e_is_main_article := false;
           e_full_path := current_path |} in
      clause_entry
      :: match sub with
         | [] => []
         | _ :: _ =>
             flat_map (process_clause article_number current_path
                         (Some (e_id clause_entry))) sub
         end
  end.

Definition process_clauses_recursively (clauses : list RawClause) (article_number : Z)
    (parent_path : string) (parent_id : option string) : list ClauseEntry :=
  flat_map (process_clause article_number parent_path parent_id) clauses.

(** A clause entry as the scorer reads it. *)
Definition entry_clause (e : ClauseEntry) : Clause :=
  {| c_id := e_id e; c_label := e_label e; c_path := e_path e; c_text := e_text e |}.

(** The body of [for article in data.get('articles', [])]. *)
Definition article_entry (article : RawArticle) : Article :=
  let article_number := number article in
  let article_text :=
    match raw_text article with
    | Some t => t
    | None => ("Article " ++ str_of_int article_number)%string
    end in
  let all_clauses :=
    process_clauses_recursively (raw_clauses article) article_number "" None in
  let clause_texts :=
    String.concat " "
      (filter has_text (map e_text all_clauses)) in
  let combined_text :=
    match clause_texts with
    | EmptyString => article_text
    | _ => (article_text ++ ". " ++ clause_texts)%string
    end in
  {| id := ("PDPL:" ++ str_of_int article_number)%string;
     article_number := article_number;
     label := "0";
     path := str_of_int article_number;
     text := combined_text;
     title := "";
     is_main_article := true;
     clauses := map entry_clause all_clauses |}.

(** What opening and parsing the corpus file gives: one of the two
    exceptions the function catches, a JSON list (the old format), the
    nested format, or any other JSON value. *)
Inductive PdplFile : Type :=
| FileNotFoundError
| JSONDecodeError
| old_format (data : list Article)
| nested_format (articles : list RawArticle)
| other_value.

Definition load_pdpl_articles (file : PdplFile) : list Article :=
  match file with
  | FileNotFoundError => []
  | JSONDecodeError => []
  | old_format data => data
  | other_value => []
  | nested_format articles => map article_entry articles
  end.

End FileUtils.

(** The labels and texts of a clause and of all clauses below it, the clause
    before its sub-clauses and these in their order. *)
Fixpoint preorder (c : FileUtils.RawClause) : list (string * string) :=
  match c with
  | FileUtils.raw_clause label text sub => (label, text) :: flat_map preorder sub
  end.

(** Every entry names as its parent one of the known ids or an entry before
    it in the list. *)
Fixpoint parents_known (known : list string) (l : list FileUtils.ClauseEntry) : Prop :=
  match l with
  | [] => True
  | e :: rest =>
      In (FileUtils.e_parent_id e) known
      /\ parents_known (FileUtils.e_id e :: known) rest
  end.

(* ================================================================ *)
(** * Properties *)

(** ** Sanity checks of the embedding *)

Example normalize_case_and_spaces :
  TextUtils.normalize_text "Data   Breach!" = TextUtils.normalize_text "data breach".
Proof. reflexivity. Qed.

Example normalize_terms :
  TextUtils.normalize_text "Terms & Conditions" = "terms  conditions"
  /\ TextUtils.normalize_text "terms  conditions" = "terms conditions".
Proof. split; reflexivity. Qed.

Example round2_third : round2 (100 / 3) == 33.33.
Proof. reflexivity. Qed.

Example round2_tie_even : round2 (1 # 8) == 0.12 /\ round2 (3 # 8) == 0.38.
Proof. split; reflexivity. Qed.

(** ** Arithmetic of the score model *)

Section Arithmetic.

Lemma Qlt_bool_iff (x y : Q) : Qlt_bool x y = true <-> x < y.
Proof.
  unfold Qlt_bool. rewrite negb_true_iff.
  destruct (Qle_bool y x) eqn:E.
  - apply Qle_bool_iff in E. split; [discriminate | intro H; lra].
  - split; [intros _ | reflexivity].
    apply Qnot_le_lt. intro H. apply Qle_bool_iff in H. congruence.
Qed.

Lemma Qle_bool_false (x y : Q) : Qle_bool x y = false <-> y < x.
Proof.
  destruct (Qle_bool x y) eqn:E.
  - apply Qle_bool_iff in E. split; [discriminate | intro H; lra].
  - split; [intros _ | reflexivity].
    apply Qnot_le_lt. intro H. apply Qle_bool_iff in H. congruence.
Qed.

Lemma Qlt_bool_false (x y : Q) : Qlt_bool x y = false <-> y <= x.
Proof.
  unfold Qlt_bool. rewrite negb_false_iff. apply Qle_bool_iff.
Qed.

Lemma round_half_even_between (a b : Z) (x : Q) :
  inject_Z a <= x -> x <= inject_Z b ->
  (a <= round_half_even x <= b)%Z.
Proof.
  intros Ha Hb. unfold round_half_even.
  assert (Hfa : (a <= Qfloor x)%Z).
  { rewrite <- (Qfloor_Z a). now apply Qfloor_resp_le. }
  assert (Hfb : (Qfloor x <= b)%Z).
  { rewrite <- (Qfloor_Z b). now apply Qfloor_resp_le. }
  assert (Hup : 1 # 2 <= x - inject_Z (Qfloor x) -> (Qfloor x + 1 <= b)%Z).
  { intros Hr.
    destruct (Z.eq_dec (Qfloor x) b) as [E | NE]; [| lia].
    exfalso. rewrite E in Hr. lra. }
  destruct (Qcompare_spec (x - inject_Z (Qfloor x)) (1 # 2)) as [E | L | G].
  - destruct (Z.even (Qfloor x)); [lia |].
    split; [lia | apply Hup; rewrite E; apply Qle_refl].
  - lia.
  - split; [lia | apply Hup; now apply Qlt_le_weak].
Qed.

Lemma round_half_even_comp (x y : Q) : x == y -> round_half_even x = round_half_even y.
Proof.
  intros E. unfold round_half_even.
  rewrite (Qfloor_comp _ _ E).
  assert (E' : x - inject_Z (Qfloor y) == y - inject_Z (Qfloor y)) by (rewrite E; reflexivity).
  rewrite (Qcompare_comp _ _ E' _ _ (Qeq_refl (1 # 2))).
  reflexivity.
Qed.

Lemma round2_comp (x y : Q) : x == y -> round2 x = round2 y.
Proof.
  intros E. unfold round2. f_equal. apply round_half_even_comp. now rewrite E.
Qed.

Lemma round2_percent (x : Q) : 0 <= x -> x <= 100 -> 0 <= round2 x <= 100.
Proof.
  intros H0 H1.
  destruct (round_half_even_between 0 10000 (x * 100)) as [L U].
  - change (inject_Z 0) with 0. lra.
  - change (inject_Z 10000) with (10000 # 1). lra.
  - unfold round2, Qle. simpl. lia.
Qed.

Lemma round2_zero : round2 0 == 0.
Proof. reflexivity. Qed.

Lemma sum_from (xs : list Q) (a : Q) : fold_left Qplus xs a == a + sum xs.
Proof.
  unfold sum. revert a.
  induction xs as [| x xs IH]; intros a; simpl.
  - lra.
  - rewrite IH, (IH (0 + x)). lra.
Qed.

Lemma sum_cons (x : Q) (xs : list Q) : sum (x :: xs) == x + sum xs.
Proof. unfold sum at 1. simpl. rewrite sum_from. lra. Qed.

Lemma sum_app (xs ys : list Q) : sum (xs ++ ys) == sum xs + sum ys.
Proof.
  induction xs as [| x xs IH]; simpl.
  - unfold sum at 2. simpl. lra.
  - rewrite !sum_cons, IH. lra.
Qed.

Lemma sum_unit_interval (xs : list Q) :
  Forall (fun x => 0 <= x <= 1) xs ->
  0 <= sum xs <= inject_Z (Z.of_nat (List.length xs)).
Proof.
  induction 1 as [| x xs Hx _ IH].
  - unfold sum. simpl. unfold inject_Z. lra.
  - rewrite sum_cons.
    replace (List.length (x :: xs)) with (S (List.length xs)) by reflexivity.
    rewrite Nat2Z.inj_succ, <- Z.add_1_r, inject_Z_plus.
    change (inject_Z 1) with 1. lra.
Qed.

Lemma average_unit_interval (xs : list Q) :
  xs <> [] ->
  Forall (fun x => 0 <= x <= 1) xs ->
  0 <= sum xs / inject_Z (Z.of_nat (List.length xs)) <= 1.
Proof.
  intros Hne H.
  destruct (sum_unit_interval xs H) as [L U].
  assert (Hpos : 0 < inject_Z (Z.of_nat (List.length xs))).
  { destruct xs as [| x xs]; [congruence |].
    change 0 with (inject_Z 0). rewrite <- Zlt_Qlt. simpl. lia. }
  split.
  - apply Qle_shift_div_l; [exact Hpos | lra].
  - apply Qle_shift_div_r; [exact Hpos | lra].
Qed.

End Arithmetic.

(** ** The coverage scorer stays within its ranges *)

Section ScorerRanges.

Import ScoringUtils.

Variable mode : bool.
Variables bm25 e5 : Q.
Hypothesis e5_range : 0 <= e5 <= 1.

Lemma bm25_normalized_unit :
  0 <= (if Qlt_bool 0 bm25 then py_min 1.0 (bm25 / 10.0) else 0.0) <= 1.
Proof.
  destruct (Qlt_bool 0 bm25) eqn:Hpos; [| lra].
  apply Qlt_bool_iff in Hpos.
  unfold py_min.
  destruct (Qlt_bool (bm25 / 10.0) 1.0) eqn:Hlt; [| lra].
  apply Qlt_bool_iff in Hlt.
  split; [| lra].
  apply Qle_shift_div_l; lra.
Qed.

Lemma scored_traditional_unit (clause_text doc : string) :
  0 <= s_coverage (scored_traditional clause_text doc bm25 e5) <= 1.
Proof.
  unfold scored_traditional, _traditional_clause_match. simpl.
  pose proof bm25_normalized_unit as H.
  destruct (Qlt_bool 0 bm25); lra.
Qed.

Lemma score_clause_unit (llm : option Judge) (n : Z) (doc doc_n : string)
    (clause : Clause) (s : Scored) :
  judge_contract llm ->
  score_clause mode n doc doc_n llm bm25 e5 clause = Ok s ->
  0 <= s_coverage s <= 1.
Proof.
  unfold score_clause. intros Hllm H.
  destruct llm as [f |]; simpl in H.
  - destruct (f (c_text clause) doc n (c_label clause)) as [r |] eqn:Er.
    + injection H as <-. simpl. eapply Hllm; eauto.
    + destruct mode; [discriminate |].
      injection H as <-. apply scored_traditional_unit.
  - destruct mode; simpl in H; [discriminate |].
    injection H as <-. apply scored_traditional_unit.
Qed.

Lemma clause_entry_percent (n : Z) (clause : Clause) (s : Scored) :
  0 <= s_coverage s <= 1 -> percent (coverage_score (clause_entry mode n clause s)).
Proof.
  intros H. unfold clause_entry, percent. simpl.
  apply round2_percent; lra.
Qed.

Lemma loop_body_ranges (llm : option Judge) (n : Z) (doc doc_n : string)
    (st st' : LoopState) (clause : Clause) :
  judge_contract llm ->
  loop_ranges st ->
  loop_body mode n doc doc_n llm bm25 e5 st clause = Ok st' ->
  loop_ranges st'.
Proof.
  intros Hllm [Hj Hs] H. unfold loop_body in H.
  destruct (_ || _); [injection H as <-; now split |].
  destruct (score_clause mode n doc doc_n llm bm25 e5 clause) as [s | e] eqn:Es;
    simpl in H; [| discriminate].
  pose proof (score_clause_unit _ _ _ _ _ _ Hllm Es) as Hu.
  pose proof (clause_entry_percent n clause s Hu) as Hp.
  rewrite !Forall_app in Hj. destruct Hj as (Hc & Hpa & Hm).
  assert (Hs' : Forall (fun x => 0 <= x <= 1) (clause_coverage_scores st ++ [s_coverage s])).
  { apply Forall_app. split; [assumption | constructor; [assumption | constructor]]. }
  destruct (Qle_bool 75 _); [| destruct (Qle_bool 40 _)];
    injection H as <-; split; simpl; try assumption;
    rewrite !Forall_app; repeat split; try assumption;
    constructor; try assumption; constructor.
Qed.

Lemma clause_loop_ranges (llm : option Judge) (n : Z) (doc doc_n : string)
    (cls : list Clause) :
  judge_contract llm ->
  forall st st',
    loop_ranges st ->
    clause_loop mode n doc doc_n llm bm25 e5 cls st = Ok st' ->
    loop_ranges st'.
Proof.
  intros Hllm.
  induction cls as [| clause rest IH]; intros st st' Hst H;
    cbn [clause_loop] in H.
  - now injection H as <-.
  - destruct (loop_body mode n doc doc_n llm bm25 e5 st clause) as [st1 | e] eqn:E1;
      cbn [bind] in H; [| discriminate].
    eapply IH; [| exact H]. eapply loop_body_ranges; eauto.
Qed.

Lemma clause_level_ranges (llm : option Judge) (a : Article) (cls : list Clause)
    (doc doc_n : string) (info : CoverageInfo) :
  judge_contract llm ->
  clause_level_coverage mode a cls doc doc_n llm bm25 e5 = Ok info ->
  percent (percentage_of info)
  /\ Forall (fun j => percent (coverage_score j)) (judgments_of info).
Proof.
  unfold clause_level_coverage. intros Hllm H.
  destruct (clause_loop mode (article_number a) doc doc_n llm bm25 e5 cls loop_start)
    as [st | e] eqn:El; simpl in H; [| discriminate].
  assert (Hst : loop_ranges st).
  { eapply clause_loop_ranges; [exact Hllm | | exact El].
    split; simpl; constructor. }
  destruct Hst as [Hj Hs].
  injection H as <-. simpl. split; [| exact Hj].
  destruct (clause_coverage_scores st) as [| x xs] eqn:Ex; simpl.
  - unfold percent. lra.
  - assert (Hne : x :: xs <> []) by discriminate.
    destruct (average_unit_interval (x :: xs) Hne Hs) as [L U].
    apply round2_percent; simpl in L, U |- *; lra.
Qed.

Lemma single_item_ranges (a : Article) :
  percent (percentage_of (single_item_coverage a bm25 e5)).
Proof.
  unfold single_item_coverage. simpl.
  pose proof bm25_normalized_unit as H.
  apply round2_percent; destruct (Qlt_bool 0 bm25); lra.
Qed.

Lemma article_level_ranges (llm : option Judge) (a : Article) (doc doc_n : string)
    (n : Z) (aid : string) (cls : list Clause) (info : CoverageInfo) :
  judge_contract llm ->
  _calculate_article_coverage_llm_article_level mode a doc doc_n n aid cls llm bm25 e5
    = Ok info ->
  percent (percentage_of info)
  /\ Forall (fun j => percent (coverage_score j)) (judgments_of info).
Proof.
  unfold _calculate_article_coverage_llm_article_level. intros Hllm H.
  destruct (_ =? _)%string.
  { injection H as <-. simpl. split; [unfold percent; lra | constructor]. }
  match type of H with
  | bind ?m _ = _ => destruct m as [s | e] eqn:Es; simpl in H; [| discriminate]
  end.
  assert (Hu : 0 <= s_coverage s <= 1).
  { destruct llm as [f |].
    - destruct (f _ doc n "Article-level") as [r |] eqn:Er.
      + injection Es as <-. simpl. eapply Hllm; eauto.
      + destruct mode; [discriminate |]. injection Es as <-.
        apply scored_traditional_unit.
    - destruct mode; [discriminate |]. injection Es as <-.
      apply scored_traditional_unit. }
  assert (Hp : percent (round2 (s_coverage s * 100))).
  { apply round2_percent; lra. }
  injection H as <-. simpl. split; [exact Hp |].
  destruct (Qle_bool 75 _); [| destruct (Qle_bool 40 _)]; simpl;
    constructor; try exact Hp; constructor.
Qed.

Lemma calculate_article_coverage_ranges (llm : option Judge) (a : Article)
    (pages : list Page) (corpus : list Article) (info : CoverageInfo) :
  judge_contract llm ->
  calculate_article_coverage mode a pages corpus llm bm25 e5 = Ok info ->
  percent (percentage_of info)
  /\ Forall (fun j => percent (coverage_score j)) (judgments_of info).
Proof.
  unfold calculate_article_coverage. intros Hllm H.
  destruct llm as [f |]; destruct (is_main_article a) eqn:Em.
  - eapply article_level_ranges; eauto.
  - eapply clause_level_ranges; eauto.
  - destruct (clauses a).
    + injection H as <-. split; [apply single_item_ranges | constructor].
    + eapply clause_level_ranges; eauto.
  - eapply clause_level_ranges; eauto.
Qed.

End ScorerRanges.

(** The judge adapter keeps the contract: it clamps the parsed score to
    0..100 before it scales it. *)
Lemma llm_clause_match_contract (llm_clause_matching llm_enabled openai_client : bool)
    (ask : string -> string -> Z -> string -> result LlmService.ParsedReply) :
  judge_contract
    (Some (LlmService.llm_clause_match llm_clause_matching llm_enabled openai_client ask)).
Proof.
  intros f Hf ct pdf n l r Hr. injection Hf as <-.
  unfold LlmService.llm_clause_match in Hr.
  destruct (_ || _); [discriminate |].
  destruct (negb openai_client); [discriminate |].
  destruct (ask ct pdf n l) as [p |]; [| discriminate].
  injection Hr as <-. unfold LlmService.judge_result. simpl.
  set (z := match LlmService.score_match p with
            | Some k => Z.min 100 (Z.max 0 k)
            | None => 0%Z
            end).
  assert (Hz : (0 <= z <= 100)%Z) by (unfold z; destruct (LlmService.score_match p); lia).
  destruct Hz as [Hz0 Hz1].
  rewrite Zle_Qle in Hz0, Hz1.
  change (inject_Z 0) with 0 in Hz0. change (inject_Z 100) with 100 in Hz1.
  split.
  - apply Qle_shift_div_l; lra.
  - apply Qle_shift_div_r; lra.
Qed.

(** With the repository's own adapter as judge the only assumption left is
    the one on the embedding score. *)
Lemma adapter_percentages_in_range (mode lcm en cl : bool)
    (ask : string -> string -> Z -> string -> result LlmService.ParsedReply)
    (a : Article) (pages : list Page) (corpus : list Article) (bm25 e5 : Q)
    (info : CoverageInfo) :
  0 <= e5 <= 1 ->
  ScoringUtils.calculate_article_coverage mode a pages corpus
    (Some (LlmService.llm_clause_match lcm en cl ask)) bm25 e5 = Ok info ->
  percent (percentage_of info)
  /\ Forall (fun j => percent (coverage_score j)) (judgments_of info).
Proof.
  intros He H.
  eapply calculate_article_coverage_ranges; eauto.
  apply llm_clause_match_contract.
Qed.

(** ** Claim C3: coverage percentages and the interval from 0 to 100 *)

(** C3, as stated, fails: with an embedding similarity of -0.5 (a cosine
    similarity may be negative), no lexical score and an unavailable judge in
    hybrid mode, the traditional fallback gives the article and its clause
    entry a coverage percentage of -30. *)
Lemma C3_negative_embedding_counterexample :
  exists info,
    ScoringUtils.calculate_article_coverage false Samples.consent_article
      Samples.policy [] (Some Samples.judge_null) 0 (- (1 # 2)) = Ok info
    /\ percentage_of info == - (30)
    /\ ~ percent (percentage_of info)
    /\ Exists (fun j => ~ percent (coverage_score j)) (judgments_of info).
Proof.
  eexists. split; [vm_compute; reflexivity |].
  split; [reflexivity |].
  split.
  - intros [H _]. vm_compute in H. apply H. reflexivity.
  - simpl. constructor. intros [H _]. vm_compute in H. apply H. reflexivity.
Qed.

(** C3, amended: when the embedding score handed to the scorer lies in 0..1
    and the judge keeps its contract (scores in 0..1), every coverage
    percentage the scorer produces, the article's and each clause
    judgment's, on the judge path and on the traditional path, lies in the
    closed interval from 0 to 100. *)
Theorem C3_coverage_percentages_in_range :
  forall (mode : bool) (a : Article) (pages : list Page) (corpus : list Article)
         (llm : option Judge) (bm25 e5 : Q) (info : CoverageInfo),
    0 <= e5 <= 1 ->
    judge_contract llm ->
    ScoringUtils.calculate_article_coverage mode a pages corpus llm bm25 e5 = Ok info ->
    percent (percentage_of info)
    /\ Forall (fun j => percent (coverage_score j)) (judgments_of info).
Proof.
  intros mode a pages corpus llm bm25 e5 info He Hllm H.
  eapply calculate_article_coverage_ranges; eauto.
Qed.

Lemma C3_coverage_percentages_in_range_witness :
  exists info,
    ScoringUtils.calculate_article_coverage false Samples.consent_article
      Samples.policy [] (Some (Samples.judge_const 0.9)) 5 0.8 = Ok info
    /\ percent (percentage_of info)
    /\ Forall (fun j => percent (coverage_score j)) (judgments_of info).
Proof.
  eexists. split; [vm_compute; reflexivity |].
  apply (C3_coverage_percentages_in_range false Samples.consent_article
           Samples.policy [] (Some (Samples.judge_const 0.9)) 5 0.8).
  - split; vm_compute; discriminate.
  - intros f Hf c d n l r Hr. injection Hf as <-. injection Hr as <-.
    split; vm_compute; discriminate.
  - vm_compute. reflexivity.
Defined.

(** ** Claim C8: the band thresholds *)

Section Bands.

Import ScoringUtils.

Lemma band_chain (p : Q) :
  let b := if Qle_bool 75 p then Full else if Qle_bool 40 p then Partial else Missing in
  thresholds (b = Full) (b = Partial) (b = Missing) p.
Proof.
  simpl. unfold thresholds.
  destruct (Qle_bool 75 p) eqn:E75; [| destruct (Qle_bool 40 p) eqn:E40].
  - apply Qle_bool_iff in E75.
    repeat split; intros; try discriminate; try assumption; lra.
  - apply Qle_bool_false in E75. apply Qle_bool_iff in E40.
    repeat split; intros; try discriminate; try assumption; lra.
  - apply Qle_bool_false in E75. apply Qle_bool_false in E40.
    repeat split; intros; try discriminate; try assumption; lra.
Qed.

Lemma coverage_type_chain (p : Q) :
  let t := if Qle_bool 75 p then covered
           else if Qle_bool 40 p then partially_covered else missing in
  thresholds (t = covered) (t = partially_covered) (t = missing) p.
Proof.
  simpl. unfold thresholds.
  destruct (Qle_bool 75 p) eqn:E75; [| destruct (Qle_bool 40 p) eqn:E40].
  - apply Qle_bool_iff in E75.
    repeat split; intros; try discriminate; try assumption; lra.
  - apply Qle_bool_false in E75. apply Qle_bool_iff in E40.
    repeat split; intros; try discriminate; try assumption; lra.
  - apply Qle_bool_false in E75. apply Qle_bool_false in E40.
    repeat split; intros; try discriminate; try assumption; lra.
Qed.

(** Three lists whose members satisfy the three ranges classify their
    members by the thresholds. *)
Lemma lists_by_thresholds (cov par mis : list ClauseInfo) :
  Forall (fun j => 75 <= coverage_score j) cov ->
  Forall (fun j => 40 <= coverage_score j /\ coverage_score j < 75) par ->
  Forall (fun j => coverage_score j < 40) mis ->
  forall j, In j (cov ++ par ++ mis) ->
    thresholds (In j cov) (In j par) (In j mis) (coverage_score j).
Proof.
  intros Hc Hp Hm j Hj.
  rewrite Forall_forall in Hc, Hp, Hm.
  rewrite !in_app_iff in Hj.
  unfold thresholds.
  split; [split; intros H | split; split; intros H].
  - now apply Hc.
  - destruct Hj as [Hj | [Hj | Hj]]; [assumption | |].
    + apply Hp in Hj. lra.
    + apply Hm in Hj. lra.
  - now apply Hp.
  - destruct Hj as [Hj | [Hj | Hj]]; [| assumption |].
    + apply Hc in Hj. lra.
    + apply Hm in Hj. lra.
  - now apply Hm.
  - destruct Hj as [Hj | [Hj | Hj]]; [| | assumption].
    + apply Hc in Hj. lra.
    + apply Hp in Hj. lra.
Qed.

Variable mode : bool.
Variable llm : option Judge.
Variables bm25 e5 : Q.

Lemma loop_body_sorted (n : Z) (doc doc_n : string) (st st' : LoopState)
    (clause : Clause) :
  loop_sorted_by_band st ->
  loop_body mode n doc doc_n llm bm25 e5 st clause = Ok st' ->
  loop_sorted_by_band st'.
Proof.
  intros (Hc & Hp & Hm) H. unfold loop_body in H.
  destruct (_ || _); [injection H as <-; now repeat split |].
  destruct (score_clause mode n doc doc_n llm bm25 e5 clause) as [s | e];
    simpl in H; [| discriminate].
  destruct (Qle_bool 75 _) eqn:E75; [| destruct (Qle_bool 40 _) eqn:E40];
    injection H as <-; repeat split; simpl; try assumption;
    apply Forall_app; split; try assumption; constructor; try constructor.
  - now apply Qle_bool_iff in E75.
  - now apply Qle_bool_iff in E40.
  - now apply Qle_bool_false in E75.
  - now apply Qle_bool_false in E40.
Qed.

Lemma clause_loop_sorted (n : Z) (doc doc_n : string) (cls : list Clause) :
  forall st st',
    loop_sorted_by_band st ->
    clause_loop mode n doc doc_n llm bm25 e5 cls st = Ok st' ->
    loop_sorted_by_band st'.
Proof.
  induction cls as [| clause rest IH]; intros st st' Hst H;
    cbn [clause_loop] in H.
  - now injection H as <-.
  - destruct (loop_body mode n doc doc_n llm bm25 e5 st clause) as [st1 | e] eqn:E1;
      cbn [bind] in H; [| discriminate].
    eapply IH; [| exact H]. eapply loop_body_sorted; eauto.
Qed.

Lemma clause_level_banded (a : Article) (cls : list Clause) (doc doc_n : string)
    (info : CoverageInfo) :
  clause_level_coverage mode a cls doc doc_n llm bm25 e5 = Ok info ->
  banded_by_thresholds info.
Proof.
  unfold clause_level_coverage. intros H.
  destruct (clause_loop mode (article_number a) doc doc_n llm bm25 e5 cls loop_start)
    as [st | e] eqn:El; simpl in H; [| discriminate].
  assert (Hst : loop_sorted_by_band st).
  { eapply clause_loop_sorted; [| exact El]. repeat split; constructor. }
  destruct Hst as (Hc & Hp & Hm).
  injection H as <-. split; simpl.
  - apply band_chain.
  - now apply lists_by_thresholds.
Qed.

Lemma article_level_banded (a : Article) (doc doc_n : string) (n : Z) (aid : string)
    (cls : list Clause) (info : CoverageInfo) :
  _calculate_article_coverage_llm_article_level mode a doc doc_n n aid cls llm bm25 e5
    = Ok info ->
  banded_by_thresholds info.
Proof.
  unfold _calculate_article_coverage_llm_article_level. intros H.
  destruct (_ =? _)%string.
  { injection H as <-. split; simpl.
    - apply (band_chain 0.0).
    - intros j []. }
  match type of H with
  | bind ?m _ = _ => destruct m as [s | e]; simpl in H; [| discriminate]
  end.
  injection H as <-. split; simpl.
  - apply band_chain.
  - set (p := round2 (s_coverage s * 100)).
    apply lists_by_thresholds.
    + destruct (Qle_bool 75 p) eqn:E75; repeat constructor.
      now apply Qle_bool_iff in E75.
    + destruct (Qle_bool 75 p) eqn:E75; [constructor |].
      destruct (Qle_bool 40 p) eqn:E40; repeat constructor; simpl.
      * now apply Qle_bool_iff in E40.
      * now apply Qle_bool_false in E75.
    + destruct (Qle_bool 75 p) eqn:E75; [constructor |].
      destruct (Qle_bool 40 p) eqn:E40; repeat constructor; simpl.
      now apply Qle_bool_false in E40.
Qed.

End Bands.

Lemma coverage_banded (mode : bool) (a : Article) (pages : list Page)
    (corpus : list Article) (llm : option Judge) (bm25 e5 : Q) (info : CoverageInfo) :
  ScoringUtils.calculate_article_coverage mode a pages corpus llm bm25 e5 = Ok info ->
  banded_by_thresholds info.
Proof.
  intros H.
  unfold ScoringUtils.calculate_article_coverage in H.
  destruct llm as [f |]; destruct (is_main_article a).
  - eapply article_level_banded; eauto.
  - eapply clause_level_banded; eauto.
  - destruct (clauses a).
    + injection H as <-. apply coverage_type_chain.
    + eapply clause_level_banded; eauto.
  - eapply clause_level_banded; eauto.
Qed.



(** ** Claim C4: the article-level judge score *)

Section ArticleLevel.

Import ScoringUtils.

Lemma traditional_matches_spec (bm25 e5 : Q) :
  0 <= bm25 ->
  retrieval_blend bm25 e5 == spec_traditional_score bm25 e5.
Proof.
  intros Hb. unfold retrieval_blend, spec_traditional_score.
  assert (Hd : bm25 / 10.0 == bm25 / 10) by (apply Qdiv_comp; reflexivity).
  destruct (Qlt_bool 0 bm25) eqn:Hpos.
  - unfold py_min.
    destruct (Qlt_bool (bm25 / 10.0) 1.0) eqn:Hlt.
    + apply Qlt_bool_iff in Hlt.
      rewrite (Q.min_r 1 (bm25 / 10)); [rewrite Hd; reflexivity |].
      rewrite <- Hd. lra.
    + apply Qlt_bool_false in Hlt.
      assert (Hge : 1 <= bm25 / 10) by (rewrite <- Hd; lra).
      rewrite (Q.min_l 1 (bm25 / 10)); [lra | exact Hge].
  - apply Qlt_bool_false in Hpos.
    assert (Hz : bm25 == 0) by lra.
    rewrite (Q.min_r 1 (bm25 / 10)).
    + rewrite Hz. reflexivity.
    + rewrite Hz. discriminate.
Qed.

(** The article-level path when the judge answers. *)
Lemma article_level_judged (mode : bool) (a : Article) (pages : list Page)
    (corpus : list Article) (f : Judge) (bm25 e5 : Q) (r : JudgeResult) :
  is_main_article a = true ->
  article_requirement a (clauses a) <> "" ->
  f (article_requirement a (clauses a)) (document_text pages) (article_number a)
    "Article-level" = Some r ->
  exists rec j d,
    calculate_article_coverage mode a pages corpus (Some f) bm25 e5 = Ok (Banded rec)
    /\ coverage_percentage rec = round2 (score r * 100)
    /\ judgments_of (Banded rec) = [j]
    /\ coverage_score j = round2 (score r * 100)
    /\ matching_method j = llm_only_scoring_article
    /\ debug_scores j = Some d
    /\ traditional_score d = round2 (retrieval_blend bm25 e5 * 100).
Proof.
  intros Hmain Hraw Hf.
  unfold calculate_article_coverage. rewrite Hmain.
  unfold _calculate_article_coverage_llm_article_level.
  fold (document_text pages). fold (article_requirement a (clauses a)).
  apply String.eqb_neq in Hraw. rewrite Hraw, Hf.
  cbn [bind scored_llm s_coverage s_method s_explanation s_confidence].
  set (p := round2 (score r * 100)).
  destruct (Qle_bool 75 p); [| destruct (Qle_bool 40 p)];
    do 3 eexists; repeat split; reflexivity.
Qed.

End ArticleLevel.

(** C4: for a main article whose judge call returns a result, the article's
    coverage percentage is the judge's score times 100, rounded to two
    decimals; the retrieval confidence is computed (it is stored, as a
    percentage, in the debug scores of the article's single judgment) and the
    percentage is the same whatever the lexical and embedding scores are. *)
Theorem C4_judge_score_is_coverage :
  forall (mode : bool) (a : Article) (pages : list Page) (corpus : list Article)
         (f : Judge) (bm25 e5 bm25' e5' : Q) (r : JudgeResult),
    is_main_article a = true ->
    article_requirement a (clauses a) <> "" ->
    f (article_requirement a (clauses a)) (document_text pages) (article_number a)
      "Article-level" = Some r ->
    0 <= bm25 ->
    exists rec rec' j d,
      ScoringUtils.calculate_article_coverage mode a pages corpus (Some f) bm25 e5
        = Ok (Banded rec)
      /\ coverage_percentage rec = round2 (score r * 100)
      /\ judgments_of (Banded rec) = [j]
      /\ debug_scores j = Some d
      /\ traditional_score d = round2 (spec_traditional_score bm25 e5 * 100)
      /\ ScoringUtils.calculate_article_coverage mode a pages corpus (Some f) bm25' e5'
         = Ok (Banded rec')
      /\ coverage_percentage rec' = coverage_percentage rec.
Proof.
  intros mode a pages corpus f bm25 e5 bm25' e5' r Hmain Hraw Hf Hb.
  destruct (article_level_judged mode a pages corpus f bm25 e5 r Hmain Hraw Hf)
    as (rec & j & d & H1 & H2 & H3 & _ & _ & H4 & H5).
  destruct (article_level_judged mode a pages corpus f bm25' e5' r Hmain Hraw Hf)
    as (rec' & _ & _ & H1' & H2' & _).
  exists rec, rec', j, d.
  repeat split; try assumption.
  - rewrite H5. apply round2_comp.
    rewrite (traditional_matches_spec bm25 e5 Hb). reflexivity.
  - congruence.
Qed.

Lemma C4_judge_score_is_coverage_witness :
  exists rec rec' j d,
    ScoringUtils.calculate_article_coverage false Samples.consent_article
      Samples.policy [] (Some (Samples.judge_const 0.9)) 5 0.8 = Ok (Banded rec)
    /\ coverage_percentage rec = round2 (0.9 * 100)
    /\ judgments_of (Banded rec) = [j]
    /\ debug_scores j = Some d
    /\ traditional_score d = round2 (spec_traditional_score 5 0.8 * 100)
    /\ ScoringUtils.calculate_article_coverage false Samples.consent_article
         Samples.policy [] (Some (Samples.judge_const 0.9)) 0 0.1 = Ok (Banded rec')
    /\ coverage_percentage rec' = coverage_percentage rec.
Proof.
  apply (C4_judge_score_is_coverage false Samples.consent_article Samples.policy []
           (Samples.judge_const 0.9) 5 0.8 0 0.1
           {| score := 0.9; explanation := "Consent is requested.";
              confidence := "high" |}).
  - reflexivity.
  - vm_compute. discriminate.
  - reflexivity.
  - vm_compute. discriminate.
Defined.

(** ** Claim C6: the traditional fallback in hybrid mode *)

Section Fallback.

Import ScoringUtils.

Variable f : Judge.
Hypothesis f_null : always_null f.
Variables bm25 e5 : Q.

Lemma article_level_fallback (a : Article) (pages : list Page) (corpus : list Article) :
  is_main_article a = true ->
  exists rec,
    calculate_article_coverage false a pages corpus (Some f) bm25 e5 = Ok (Banded rec)
    /\ fallback_outcome (retrieval_blend bm25 e5) (scored_items true a) rec.
Proof.
  intros Hmain.
  unfold calculate_article_coverage, scored_items. rewrite Hmain. cbn [andb].
  unfold _calculate_article_coverage_llm_article_level.
  fold (article_requirement a (clauses a)).
  destruct (article_requirement a (clauses a) =? "")%string.
  - eexists. split; [reflexivity |].
    unfold fallback_outcome. simpl.
    repeat split; try reflexivity; try constructor. intros C. now elim C.
  - rewrite f_null.
    cbn [bind scored_traditional _traditional_clause_match s_coverage s_method
         s_explanation s_confidence].
    change (0.4 * (if Qlt_bool 0 bm25 then py_min 1.0 (bm25 / 10.0) else 0.0)
            + 0.6 * e5) with (retrieval_blend bm25 e5).
    set (traditional := retrieval_blend bm25 e5).
    set (p := round2 (traditional * 100)).
    destruct (Qle_bool 75 p); [| destruct (Qle_bool 40 p)];
      (eexists; split; [reflexivity |]);
      unfold fallback_outcome; simpl;
      repeat split; try reflexivity; try discriminate;
      repeat constructor.
Qed.

Lemma clause_entry_fallback (a : Article) (pages : list Page) (corpus : list Article) :
  is_main_article a = false ->
  exists rec,
    calculate_article_coverage false a pages corpus (Some f) bm25 e5 = Ok (Banded rec)
    /\ fallback_outcome (retrieval_blend bm25 e5) (scored_items true a) rec.
Proof.
  intros Hmain.
  unfold calculate_article_coverage, scored_items. rewrite Hmain. cbn [andb filter].
  unfold clause_level_coverage.
  cbn [clause_loop bind]. unfold loop_body.
  change (((TextUtils.normalize_text (c_text (as_clause a)) =? "")%string
           || (TextUtils.normalize_text (c_text (as_clause a)) =? "article")%string
           || (TextUtils.normalize_text (c_text (as_clause a))
               =? "article " ++ str_of_int (article_number a))%string))
    with (skipped_clause (article_number a) (as_clause a)).
  destruct (skipped_clause (article_number a) (as_clause a)).
  - eexists. split; [reflexivity |].
    unfold fallback_outcome. simpl.
    repeat split; try reflexivity; try constructor. intros C. now elim C.
  - unfold score_clause. rewrite f_null.
    cbn [bind scored_traditional _traditional_clause_match s_coverage s_method
         s_explanation s_confidence].
    change (0.4 * (if Qlt_bool 0 bm25 then py_min 1.0 (bm25 / 10.0) else 0.0)
            + 0.6 * e5) with (retrieval_blend bm25 e5).
    set (traditional := retrieval_blend bm25 e5).
    assert (Havg : round2 (sum [traditional] / inject_Z (Z.of_nat 1) * 100)
                   = round2 (traditional * 100)).
    { apply round2_comp. unfold sum. simpl. field. }
    unfold clause_entry.
    cbn [coverage_score s_coverage s_method].
    set (p := round2 (traditional * 100)).
    destruct (Qle_bool 75 p); [| destruct (Qle_bool 40 p)];
      (eexists; split; [reflexivity |]);
      unfold fallback_outcome; simpl;
      repeat split; try reflexivity; try discriminate;
      try (intros _; exact Havg); repeat constructor.
Qed.

End Fallback.

Lemma fallback_outcome_comp (t t' : Q) (items : list string) (rec : CoverageRecord) :
  t == t' -> fallback_outcome t items rec -> fallback_outcome t' items rec.
Proof.
  intros E. unfold fallback_outcome.
  assert (Er : round2 (t * 100) = round2 (t' * 100)).
  { apply round2_comp. rewrite E. reflexivity. }
  rewrite Er. exact (fun H => H).
Qed.

(** C6: in hybrid mode, with a judge that returns null on every call, the
    scorer returns a coverage record (it does not raise).  The record is well
    formed and holds exactly one judgment for each item the entry offers to
    be judged (the article as a whole when it is a main article with
    requirement text; the entry as its own clause when it is not a main
    article and the clause loop does not pass over its text); every judgment
    carries the traditional method and the score
    0.4 x min(1, lexical/10) + 0.6 x embedding (as a percentage, rounded to
    two decimals), and that score is the article's coverage percentage
    whenever there is such an item (0 when the entry offers nothing to
    judge). *)
Theorem C6_fallback_to_traditional :
  forall (a : Article) (pages : list Page) (corpus : list Article)
         (f : Judge) (bm25 e5 : Q),
    always_null f ->
    0 <= bm25 ->
    exists rec,
      ScoringUtils.calculate_article_coverage false a pages corpus (Some f) bm25 e5
        = Ok (Banded rec)
      /\ well_formed rec
      /\ fallback_outcome (spec_traditional_score bm25 e5) (scored_items true a) rec.
Proof.
  intros a pages corpus f bm25 e5 Hnull Hb.
  assert (H : exists rec,
             ScoringUtils.calculate_article_coverage false a pages corpus (Some f)
               bm25 e5 = Ok (Banded rec)
             /\ fallback_outcome (retrieval_blend bm25 e5) (scored_items true a) rec).
  { destruct (is_main_article a) eqn:Hmain.
    - now apply article_level_fallback.
    - now apply clause_entry_fallback. }
  destruct H as (rec & Hrun & Hout).
  exists rec. split; [exact Hrun |]. split.
  - pose proof (coverage_banded _ _ _ _ _ _ _ _ Hrun) as Hb'.
    destruct Hout as (Hids & _ & _ & _ & C1 & C2 & C3 & C4).
    unfold well_formed.
    split; [exact Hb' |]. split; [exact C1 |]. split; [exact C2 |].
    split; [exact C3 |].
    rewrite C4, <- Hids, length_map. reflexivity.
  - eapply fallback_outcome_comp; [| exact Hout].
    now apply traditional_matches_spec.
Qed.

Lemma C6_fallback_to_traditional_witness :
  exists rec,
    ScoringUtils.calculate_article_coverage false Samples.consent_article
      Samples.policy [] (Some Samples.judge_null) 5 0.8 = Ok (Banded rec)
    /\ well_formed rec
    /\ fallback_outcome (spec_traditional_score 5 0.8) ["PDPL:4"] rec
    /\ coverage_percentage rec == 68.
Proof.
  destruct (C6_fallback_to_traditional Samples.consent_article Samples.policy []
              Samples.judge_null 5 0.8) as (rec & Hrun & Hwf & Hout).
  - intros c d n l. reflexivity.
  - vm_compute. discriminate.
  - exists rec. split; [exact Hrun |]. split; [exact Hwf |]. split; [exact Hout |].
    destruct Hout as (_ & _ & Hp & _).
    rewrite Hp by discriminate. vm_compute. reflexivity.
Defined.

(** ** Claim C5: the strict judge-only mode *)

Section StrictMode.

Import ScoringUtils.

(** Where the code does raise: an article-level judge call that returns
    null. *)
Lemma strict_article_level_raises (a : Article) (pages : list Page)
    (corpus : list Article) (f : Judge) (bm25 e5 : Q) :
  is_main_article a = true ->
  article_requirement a (clauses a) <> "" ->
  f (article_requirement a (clauses a)) (document_text pages) (article_number a)
    "Article-level" = None ->
  exists msg,
    calculate_article_coverage true a pages corpus (Some f) bm25 e5
    = Raise (RuntimeError msg).
Proof.
  intros Hmain Hraw Hf.
  unfold calculate_article_coverage. rewrite Hmain.
  unfold _calculate_article_coverage_llm_article_level.
  fold (document_text pages). fold (article_requirement a (clauses a)).
  apply String.eqb_neq in Hraw. rewrite Hraw, Hf.
  eexists. reflexivity.
Qed.

(** Where the code does raise: a clause that reaches the scoring step
    without a judge, or whose judge call returns null. *)
Lemma strict_clause_raises (n : Z) (doc doc_n : string) (llm : option Judge)
    (bm25 e5 : Q) (clause : Clause) :
  match llm with
  | Some f => f (c_text clause) doc n (c_label clause) = None
  | None => True
  end ->
  exists msg,
    score_clause true n doc doc_n llm bm25 e5 clause = Raise (RuntimeError msg).
Proof.
  intros H. unfold score_clause.
  destruct llm as [f |]; simpl.
  - rewrite H. eexists. reflexivity.
  - eexists. reflexivity.
Qed.

End StrictMode.

(** C5 fails on the code: in strict mode, a main article that has no clauses
    and is scored without a judge function does not raise; the
    [if not clauses] branch returns before any of the strict-mode checks and
    substitutes the traditional score (here 0.4 x 0.5 + 0.6 x 0.8 = 68%). *)
Theorem C5_strict_mode_no_clauses_scores_without_judge :
  exists r,
    ScoringUtils.calculate_article_coverage true Samples.heading_article
      Samples.policy [] None 5 0.8 = Ok (SingleItem r)
    /\ si_coverage_percentage r == 68
    /\ coverage_type r = partially_covered.
Proof.
  eexists. split; [vm_compute; reflexivity |].
  split; reflexivity.
Qed.

(** ** Claim C7: the re-rank blend *)

Section Rerank.

Import LlmService.

Lemma insert_desc_In {A : Type} (key : A -> Q) (x y : A) (l : list A) :
  In x (insert_desc key y l) <-> x = y \/ In x l.
Proof.
  induction l as [| z l IH]; simpl.
  - intuition congruence.
  - destruct (Qle_bool (key z) (key y)); simpl; [intuition congruence |].
    rewrite IH. intuition congruence.
Qed.

Lemma sort_desc_In {A : Type} (key : A -> Q) (x : A) (l : list A) :
  In x (sort_desc key l) <-> In x l.
Proof.
  unfold sort_desc.
  induction l as [| y l IH]; simpl; [tauto |].
  rewrite insert_desc_In, IH. intuition congruence.
Qed.

Lemma insert_desc_length {A : Type} (key : A -> Q) (y : A) (l : list A) :
  List.length (insert_desc key y l) = S (List.length l).
Proof.
  induction l as [| z l IH]; simpl; [reflexivity |].
  destruct (Qle_bool (key z) (key y)); simpl; [reflexivity | now rewrite IH].
Qed.

Lemma sort_desc_length {A : Type} (key : A -> Q) (l : list A) :
  List.length (sort_desc key l) = List.length l.
Proof.
  unfold sort_desc.
  induction l as [| y l IH]; simpl; [reflexivity |].
  now rewrite insert_desc_length, IH.
Qed.

Lemma in_firstn {A : Type} (n : nat) (x : A) (l : list A) :
  In x (firstn n l) -> In x l.
Proof.
  intros H. rewrite <- (firstn_skipn n l). apply in_or_app. now left.
Qed.

Lemma apply_scores_nth (l : list Candidate) :
  forall (scores : list Q) (i : nat),
    nth_error (apply_scores l scores) i
    = option_map (fun c => apply_score c (nth_error scores i)) (nth_error l i).
Proof.
  induction l as [| c l IH]; intros scores i.
  - destruct i; reflexivity.
  - destruct scores as [| s scores]; destruct i as [| i]; simpl; try reflexivity.
    + rewrite IH. destruct (nth_error l i); simpl; [| reflexivity].
      destruct i; reflexivity.
    + apply IH.
Qed.

Lemma apply_scores_length (l : list Candidate) :
  forall scores, List.length (apply_scores l scores) = List.length l.
Proof.
  induction l as [| c l IH]; intros [| s scores]; simpl; congruence.
Qed.

Lemma apply_score_reranked (scores : list Q) (i : nat) (c : Candidate) :
  reranked_as scores i c
    (apply_score c (if (i <? 50)%nat then nth_error scores i else None)).
Proof.
  unfold reranked_as.
  destruct (i <? 50)%nat eqn:Ei.
  - apply Nat.ltb_lt in Ei.
    destruct (nth_error scores i) as [s |]; simpl; repeat split; trivial.
    + intros s' _ Hs. injection Hs as <-.
      eexists. split; [reflexivity |].
      unfold embedding_score, spec_blend. rewrite H.
      assert (Hd : s / 100.0 == s / 100) by (apply Qdiv_comp; reflexivity).
      rewrite Hd. reflexivity.
    + intros [Hi | Hs]; [lia | discriminate].
    + intros s' _ Hs. discriminate.
    + intros _. unfold embedding_score. now rewrite H.
  - apply Nat.ltb_ge in Ei. simpl. repeat split; trivial.
    + intros s Hi. lia.
    + intros _. unfold embedding_score. now rewrite H.
Qed.

(** The candidates after the two scoring loops, in their input order. *)
Lemma rescored_nth (scores : list Q) (candidates : list Candidate) (i : nat) (c : Candidate) :
  nth_error candidates i = Some c ->
  let n := Nat.min 50 (List.length candidates) in
  nth_error (apply_scores (firstn n candidates) scores
             ++ map (fun cand => apply_score cand None) (skipn n candidates)) i
  = Some (apply_score c (if (i <? 50)%nat then nth_error scores i else None)).
Proof.
  intros Hc n.
  assert (Hlen : (i < List.length candidates)%nat).
  { apply nth_error_Some. congruence. }
  destruct (i <? 50)%nat eqn:Ei.
  - apply Nat.ltb_lt in Ei.
    rewrite nth_error_app1.
    + rewrite apply_scores_nth, nth_error_firstn.
      assert (Hn : (i <? n)%nat = true) by (apply Nat.ltb_lt; unfold n; lia).
      rewrite Hn, Hc. reflexivity.
    + rewrite apply_scores_length, length_firstn. unfold n. lia.
  - apply Nat.ltb_ge in Ei.
    assert (Hn : n = 50%nat) by (unfold n; lia).
    rewrite nth_error_app2.
    + rewrite apply_scores_length, length_firstn, nth_error_map, nth_error_skipn.
      replace (n + (i - Nat.min n (List.length candidates)))%nat with i by lia.
      rewrite Hc. reflexivity.
    + rewrite apply_scores_length, length_firstn. lia.
Qed.

End Rerank.

Lemma rescored_length (scores : list Q) (candidates : list LlmService.Candidate) (n : nat) :
  List.length (LlmService.apply_scores (firstn n candidates) scores
               ++ map (fun cand => LlmService.apply_score cand None) (skipn n candidates))
  = List.length candidates.
Proof.
  rewrite length_app, apply_scores_length, length_map, <- length_app, firstn_skipn.
  reflexivity.
Qed.

(** C7: when the re-rank stage runs on a parsed, non-empty score list, every
    candidate it returns is an input candidate whose final score is
    0.7 x (judge score / 100) + 0.3 x embedding score if it was among the
    first 50 and a parsed score exists at its position, and its embedding
    score otherwise; and when the result is not cut short ([top_k] at least
    the number of candidates) every input candidate is returned so. *)
Theorem C7_rerank_blend :
  forall (scores : list Q) (query_text : string)
         (candidates : list LlmService.Candidate) (top_k : nat),
    scores <> [] ->
    let out :=
      LlmService.llm_rerank_articles true true (Ok scores) query_text candidates top_k in
    (forall c', In c' out ->
       exists i c, nth_error candidates i = Some c /\ reranked_as scores i c c')
    /\ ((List.length candidates <= top_k)%nat ->
        forall i c, nth_error candidates i = Some c ->
          exists c', In c' out /\ reranked_as scores i c c').
Proof.
  intros scores query_text candidates top_k Hne out.
  destruct scores as [| s0 ss]; [congruence |].
  destruct candidates as [| c0 cs].
  { split.
    - intros c' [].
    - intros _ [| i] c; discriminate. }
  set (candidates := c0 :: cs) in *.
  set (scores := s0 :: ss) in *.
  set (n := Nat.min 50 (List.length candidates)).
  set (A := LlmService.apply_scores (firstn n candidates) scores).
  set (B := map (fun cand => LlmService.apply_score cand None) (skipn n candidates)).
  assert (Hout : out = firstn top_k (LlmService.sort_desc LlmService.key_final_score A ++ B))
    by reflexivity.
  assert (Hin : forall x, In x (LlmService.sort_desc LlmService.key_final_score A ++ B)
                          <-> In x (A ++ B)).
  { intros x. rewrite !in_app_iff, sort_desc_In. tauto. }
  split.
  - intros c' Hc'. rewrite Hout in Hc'.
    apply in_firstn, Hin, In_nth_error in Hc'.
    destruct Hc' as [i Hi].
    assert (Hlt : (i < List.length candidates)%nat).
    { rewrite <- (rescored_length scores candidates n).
      apply nth_error_Some. unfold A, B in Hi. congruence. }
    destruct (nth_error candidates i) as [c |] eqn:Hc.
    2: { apply nth_error_None in Hc. lia. }
    exists i, c. split; [exact Hc |].
    assert (Hr : nth_error (A ++ B) i
                 = Some (LlmService.apply_score c
                           (if (i <? 50)%nat then nth_error scores i else None)))
      by exact (rescored_nth scores candidates i c Hc).
    rewrite Hi in Hr. injection Hr as ->.
    apply apply_score_reranked.
  - intros Hk i c Hc.
    assert (Hr : nth_error (A ++ B) i
                 = Some (LlmService.apply_score c
                           (if (i <? 50)%nat then nth_error scores i else None)))
      by exact (rescored_nth scores candidates i c Hc).
    eexists. split; [| apply apply_score_reranked].
    rewrite Hout, firstn_all2.
    + apply Hin. eapply nth_error_In. exact Hr.
    + rewrite length_app, sort_desc_length, <- length_app.
      unfold A, B. rewrite rescored_length. exact Hk.
Qed.

(** The specification's example: embedding score 0.6 with judge relevance 80
    gives 0.74; the second candidate, for which no score was parsed, keeps
    its embedding score. *)
Lemma C7_rerank_blend_witness :
  [80] <> []
  /\ (forall c',
        In c' (LlmService.llm_rerank_articles true true (Ok [80]) "policy text"
                 RerankSamples.shortlist 20) ->
        exists i c, nth_error RerankSamples.shortlist i = Some c
                    /\ reranked_as [80] i c c')
  /\ Forall2 Qeq
       (map LlmService.key_final_score
          (LlmService.llm_rerank_articles true true (Ok [80]) "policy text"
             RerankSamples.shortlist 20))
       [0.74; 0.5].
Proof.
  assert (H : [80] <> []) by discriminate.
  split; [exact H |].
  split.
  - exact (proj1 (C7_rerank_blend [80] "policy text" RerankSamples.shortlist 20 H)).
  - vm_compute. repeat constructor.
Defined.

(** ** Claims C1 and C9: the aggregator *)

Section Aggregator.

Import ScoringUtils.

Lemma collect_scores_fold (matches : list MatchRecord) :
  collect_scores matches = fold_left score_step matches [].
Proof. reflexivity. Qed.

Lemma mem_In (n : Z) (s : list Z) : mem n s = true <-> In n s.
Proof.
  unfold mem. rewrite existsb_exists. split.
  - intros (x & Hx & E). apply Z.eqb_eq in E. now subst.
  - intros H. exists n. split; [assumption | apply Z.eqb_refl].
Qed.

Lemma lookup_None {V : Type} (n : Z) (d : dict V) :
  lookup n d = None <-> ~ In n (keys d).
Proof.
  unfold lookup, keys.
  induction d as [| [k v] d IH]; simpl; [tauto |].
  destruct (Z.eqb_spec k n) as [-> | NE]; simpl.
  - split; [discriminate | intros H; exfalso; apply H; now left].
  - rewrite IH. tauto.
Qed.

Lemma lookup_app {V : Type} (n : Z) (d d' : dict V) :
  lookup n (d ++ d')%list = match lookup n d with Some v => Some v | None => lookup n d' end.
Proof.
  unfold lookup.
  induction d as [| [k v] d IH]; simpl; [reflexivity |].
  destruct (k =? n)%Z; simpl; [reflexivity | exact IH].
Qed.

Lemma lookup_set_if_absent {V : Type} (n k : Z) (v : V) (d : dict V) :
  lookup n (set_if_absent d k v)
  = match lookup n d with
    | Some x => Some x
    | None => if (k =? n)%Z then Some v else None
    end.
Proof.
  unfold set_if_absent.
  destruct (mem k (keys d)) eqn:Hm.
  - destruct (lookup n d) eqn:Hl; [reflexivity |].
    destruct (Z.eqb_spec k n) as [-> | NE]; [| reflexivity].
    apply lookup_None in Hl. apply mem_In in Hm. contradiction.
  - rewrite lookup_app. destruct (lookup n d); [reflexivity |].
    unfold lookup. simpl. destruct (k =? n)%Z; reflexivity.
Qed.

Lemma keys_set_if_absent {V : Type} (k : Z) (v : V) (d : dict V) :
  keys (set_if_absent d k v) = if mem k (keys d) then keys d else (keys d ++ [k])%list.
Proof.
  unfold set_if_absent, keys. destruct (mem k (map fst d)); [reflexivity |].
  now rewrite map_app.
Qed.

Lemma NoDup_snoc (k : Z) (l : list Z) : NoDup l -> ~ In k l -> NoDup (l ++ [k])%list.
Proof.
  intros Hl Hk. induction Hl as [| x l Hx Hl IH]; simpl.
  - constructor; [intros [] | constructor].
  - constructor.
    + rewrite in_app_iff. simpl. intros [H | [H | []]]; [contradiction |].
      subst. apply Hk. now left.
    + apply IH. intros H. apply Hk. now right.
Qed.

(** The loop that fills [article_scores]: what it stores under a number,
    that its keys stay distinct, and where its keys come from. *)
Lemma score_loop_lookup (matches : list MatchRecord) :
  forall (d : dict Q) (n : Z),
    lookup n (fold_left score_step matches d)
    = match lookup n d with
      | Some v => Some v
      | None =>
          if skipped n then None
          else option_map record_percentage
                 (find (fun m => (record_number m =? n)%Z) matches)
      end.
Proof.
  induction matches as [| m ms IH]; intros d n; simpl.
  - destruct (lookup n d); [reflexivity | destruct (skipped n); reflexivity].
  - rewrite IH. unfold score_step.
    destruct (skipped (record_number m)) eqn:Hs.
    + destruct (lookup n d); [reflexivity |].
      destruct (Z.eqb_spec (record_number m) n) as [E | NE]; [| reflexivity].
      rewrite <- E, Hs. reflexivity.
    + rewrite lookup_set_if_absent.
      destruct (lookup n d); [reflexivity |].
      destruct (Z.eqb_spec (record_number m) n) as [E | NE]; [| reflexivity].
      rewrite <- E, Hs. reflexivity.
Qed.

Lemma score_loop_NoDup (matches : list MatchRecord) :
  forall d : dict Q, NoDup (keys d) -> NoDup (keys (fold_left score_step matches d)).
Proof.
  induction matches as [| m ms IH]; intros d Hd; simpl; [assumption |].
  apply IH. unfold score_step.
  destruct (skipped (record_number m)); [assumption |].
  rewrite keys_set_if_absent.
  destruct (mem (record_number m) (keys d)) eqn:Hm; [assumption |].
  apply NoDup_snoc; [assumption |].
  intros H. apply mem_In in H. congruence.
Qed.

Lemma score_loop_keys (matches : list MatchRecord) :
  forall (d : dict Q) (k : Z),
    In k (keys (fold_left score_step matches d)) ->
    In k (keys d)
    \/ exists m, In m matches /\ record_number m = k /\ skipped k = false.
Proof.
  induction matches as [| m ms IH]; intros d k H; simpl in H; [now left |].
  apply IH in H. destruct H as [H | (m' & Hm' & E & Hs)].
  - unfold score_step in H.
    destruct (skipped (record_number m)) eqn:Hs; [now left |].
    rewrite keys_set_if_absent in H.
    destruct (mem (record_number m) (keys d)); [now left |].
    apply in_app_iff in H. destruct H as [H | [<- | []]]; [now left |].
    right. exists m. repeat split; [now left | assumption].
  - right. exists m'. repeat split; [now right | assumption | assumption].
Qed.

End Aggregator.

Section AggregatorSums.

Import ScoringUtils.

Lemma sum_map_ext (f g : Z -> Q) (l : list Z) :
  (forall n, In n l -> f n == g n) -> sum (map f l) == sum (map g l).
Proof.
  induction l as [| x l IH]; intros H; simpl; [reflexivity |].
  rewrite !sum_cons, (H x (or_introl eq_refl)), IH; [reflexivity |].
  intros n Hn. apply H. now right.
Qed.

Lemma sum_zeros (l : list Z) : sum (map (fun _ => 0) l) == 0.
Proof.
  induction l as [| x l IH]; simpl; [reflexivity |].
  rewrite sum_cons, IH. lra.
Qed.

(** Putting [v] at one position [k] of a duplicate-free scope where [g]
    is zero adds [v] to the sum over the scope. *)
Lemma sum_update (k : Z) (v : Q) (g : Z -> Q) (scope : list Z) :
  NoDup scope -> In k scope -> g k == 0 ->
  sum (map (fun n => if (k =? n)%Z then v else g n) scope)
  == v + sum (map g scope).
Proof.
  intros Hnd Hk Hg.
  induction Hnd as [| x l Hx Hnd IH]; [destruct Hk |].
  simpl. rewrite !sum_cons.
  destruct (Z.eqb_spec k x) as [<- | NE].
  - rewrite (sum_map_ext (fun n => if (k =? n)%Z then v else g n) g l).
    + rewrite Hg. lra.
    + intros n Hn. destruct (Z.eqb_spec k n) as [<- | _]; [contradiction | reflexivity].
  - destruct Hk as [E | Hk]; [congruence |].
    rewrite (IH Hk). lra.
Qed.

(** The sum of the values of a dictionary is the sum, over a duplicate-free
    scope that holds its keys, of what is stored under each number. *)
Lemma sum_values_over_scope (d : dict Q) (scope : list Z) :
  NoDup (keys d) -> NoDup scope -> incl (keys d) scope ->
  sum (values d) == sum (map (fun n => get (lookup n d) 0) scope).
Proof.
  intros Hd Hs.
  induction d as [| [k v] d IH]; intros Hincl.
  - unfold values, lookup. simpl. rewrite sum_zeros. reflexivity.
  - simpl in Hd. inversion Hd as [| ? ? Hk Hd']; subst.
    assert (Hin : In k scope) by (apply Hincl; now left).
    assert (Hincl' : incl (keys d) scope).
    { intros x Hx. apply Hincl. now right. }
    unfold values in *. simpl. rewrite sum_cons, (IH Hd' Hincl').
    rewrite <- (sum_update k v (fun n => get (lookup n d) 0) scope Hs Hin).
    + apply sum_map_ext. intros n _. unfold lookup. simpl.
      destruct (k =? n)%Z; reflexivity.
    + apply lookup_None in Hk. rewrite Hk. reflexivity.
Qed.

Lemma scope_not_skipped (all_article_numbers : option (list Z)) (n : Z) :
  In n (scope_of all_article_numbers) ->
  skipped n = false /\ In n INCLUDED_ARTICLES_FOR_OVERALL.
Proof.
  unfold scope_of. simpl nonempty. cbv iota.
  intros H. apply filter_In in H. destruct H as [_ H].
  split; [| now apply mem_In].
  unfold skipped. rewrite H. reflexivity.
Qed.

Lemma skipped_false_included (n : Z) :
  skipped n = false -> In n INCLUDED_ARTICLES_FOR_OVERALL.
Proof.
  unfold skipped. intros H. apply orb_false_iff in H. destruct H as [H _].
  simpl nonempty in H. simpl andb in H. apply negb_false_iff in H.
  now apply mem_In.
Qed.

(** The numerator of the code is the numerator of the specification. *)
Lemma total_coverage_is_found_scoped_sum (matches : list MatchRecord)
    (all_article_numbers : option (list Z)) :
  NoDup (scope_of all_article_numbers) ->
  (forall m, In m matches ->
     In (record_number m) INCLUDED_ARTICLES_FOR_OVERALL ->
     In (record_number m) (scope_of all_article_numbers)) ->
  sum (values (collect_scores matches))
  == found_scoped_sum (scope_of all_article_numbers) matches.
Proof.
  intros Hnd Hrec.
  rewrite collect_scores_fold.
  rewrite (sum_values_over_scope _ (scope_of all_article_numbers)).
  - unfold found_scoped_sum. apply sum_map_ext. intros n Hn.
    rewrite score_loop_lookup.
    destruct (scope_not_skipped _ _ Hn) as [Hs _].
    unfold lookup at 1. simpl. rewrite Hs.
    unfold first_percentage.
    destruct (find _ matches); reflexivity.
  - apply score_loop_NoDup. constructor.
  - exact Hnd.
  - intros k Hk. apply score_loop_keys in Hk.
    destruct Hk as [[] | (m & Hm & <- & Hs)].
    apply Hrec; [assumption | now apply skipped_false_included].
Qed.

End AggregatorSums.

(** C1, as stated, fails: the code rounds the quotient to two decimals.  With
    scope 4, 5, 10 and only article 4 found, at 100%, the sum of the found
    percentages divided by the scope size is 100/3, and the reported overall
    score is 33.33. *)
Lemma C1_unrounded_quotient_counterexample :
  exists r,
    ScoringUtils.calculate_overall_score AggregatorSamples.article_4_complete 3%nat
      (Some AggregatorSamples.scope_4_5_10) = Ok r
    /\ ScoringUtils.overall_score r == 33.33
    /\ spec_overall_score AggregatorSamples.scope_4_5_10
         AggregatorSamples.article_4_complete == 100 / 3
    /\ ~ ScoringUtils.overall_score r
         == spec_overall_score AggregatorSamples.scope_4_5_10
              AggregatorSamples.article_4_complete.
Proof.
  eexists. split; [vm_compute; reflexivity |].
  split; [reflexivity |].
  split; [reflexivity |].
  intros H. vm_compute in H. discriminate H.
Qed.

(** C1, amended: for every list of coverage records and every caller's list of
    article numbers whose scope (the numbers kept by the configured include
    list) is non-empty and free of duplicates, and whose include-listed
    records all belong to that scope, the aggregator returns a report whose
    overall score is the sum of the found scoped articles' percentages (first
    record of an article wins, an article without record counts zero)
    divided by the number of articles in scope, rounded to two decimals.  In
    particular, scope 4, 5, 10 with only article 4 found at 90% (Full) gives
    overall score 30.0, missing articles 5 and 10, covered articles 4 and
    compliance level not_compliant. *)
Theorem C1_overall_score :
  (forall (matches : list ScoringUtils.MatchRecord) (total_articles : nat)
          (all_article_numbers : option (list Z)),
      ScoringUtils.scope_of all_article_numbers <> [] ->
      NoDup (ScoringUtils.scope_of all_article_numbers) ->
      (forall m, In m matches ->
         In (record_number m) ScoringUtils.INCLUDED_ARTICLES_FOR_OVERALL ->
         In (record_number m) (ScoringUtils.scope_of all_article_numbers)) ->
      exists r,
        ScoringUtils.calculate_overall_score matches total_articles all_article_numbers
          = Ok r
        /\ ScoringUtils.overall_score r
           == round2 (spec_overall_score (ScoringUtils.scope_of all_article_numbers)
                        matches))
  /\ exists r,
       ScoringUtils.calculate_overall_score AggregatorSamples.only_article_4 3%nat
         (Some AggregatorSamples.scope_4_5_10) = Ok r
       /\ ScoringUtils.overall_score r == 30.0
       /\ ScoringUtils.missing_articles r = [5; 10]%Z
       /\ ScoringUtils.covered_articles r = Some [4]%Z
       /\ ScoringUtils.compliance_level r = "not_compliant".
Proof.
  split.
  - intros matches total_articles all_article_numbers Hne Hnd Hrec.
    unfold ScoringUtils.calculate_overall_score.
    destruct matches as [| m ms].
    + eexists. split; [reflexivity |].
      cbn [ScoringUtils.overall_score].
      rewrite (round2_comp _ 0); [reflexivity |].
      unfold spec_overall_score, found_scoped_sum, first_percentage.
      simpl find. rewrite sum_zeros. reflexivity.
    + destruct (List.length (ScoringUtils.scope_of all_article_numbers) =? 0)%nat eqn:El.
      { apply Nat.eqb_eq, length_zero_iff_nil in El. contradiction. }
      eexists. split; [reflexivity |].
      cbn [ScoringUtils.overall_score].
      rewrite (round2_comp _ (spec_overall_score
                                (ScoringUtils.scope_of all_article_numbers) (m :: ms)));
        [reflexivity |].
      unfold spec_overall_score.
      rewrite (total_coverage_is_found_scoped_sum (m :: ms) all_article_numbers Hnd Hrec).
      reflexivity.
  - eexists. split; [vm_compute; reflexivity |].
    repeat split; reflexivity.
Qed.

Lemma C1_overall_score_witness :
  exists r,
    ScoringUtils.calculate_overall_score AggregatorSamples.article_4_complete 3%nat
      (Some AggregatorSamples.scope_4_5_10) = Ok r
    /\ ScoringUtils.overall_score r
       == round2 (spec_overall_score
                    (ScoringUtils.scope_of (Some AggregatorSamples.scope_4_5_10))
                    AggregatorSamples.article_4_complete).
Proof.
  apply (proj1 C1_overall_score AggregatorSamples.article_4_complete 3%nat
           (Some AggregatorSamples.scope_4_5_10)).
  - vm_compute. discriminate.
  - vm_compute. repeat constructor; simpl; intuition discriminate.
  - intros m [<- | []] _. vm_compute. now left.
Defined.

(** C9 fails on the code in its last part: for an empty record list the
    aggregator returns, without raising, a report with overall score 0.0 and
    every scoped article listed as missing, but the compliance level of that
    report is the string "Critical", not the "not_compliant" that the
    mapping documented in the same function assigns to scores below 40. *)
Theorem C9_empty_matches_report :
  forall (total_articles : nat) (all_article_numbers : option (list Z)),
  exists r,
    ScoringUtils.calculate_overall_score [] total_articles all_article_numbers = Ok r
    /\ ScoringUtils.overall_score r == 0
    /\ ScoringUtils.missing_articles r = ScoringUtils.scope_of all_article_numbers
    /\ ScoringUtils.missing_count r
       = List.length (ScoringUtils.scope_of all_article_numbers)
    /\ ScoringUtils.compliance_level r = "Critical"
    /\ ScoringUtils.compliance_level r <> "not_compliant".
Proof.
  intros total_articles all_article_numbers.
  eexists. split; [reflexivity |].
  repeat split; try reflexivity. discriminate.
Qed.

(** The sibling path: a non-empty record list with the same zero score is
    classified not_compliant. *)
Lemma zero_score_is_not_compliant :
  exists r,
    ScoringUtils.calculate_overall_score [AggregatorSamples.record 4 0 Missing] 3%nat
      (Some AggregatorSamples.scope_4_5_10) = Ok r
    /\ ScoringUtils.overall_score r == 0
    /\ ScoringUtils.compliance_level r = "not_compliant".
Proof.
  eexists. split; [vm_compute; reflexivity |].
  split; reflexivity.
Qed.

(** ** Claim C2: the text normalizer *)

(** C2 fails on the code: the whitespace runs are collapsed before the
    special characters are removed, so removing a character that stands
    between two spaces leaves a double space, which a second application
    collapses. *)
Theorem C2_normalize_not_idempotent :
  TextUtils.normalize_text "Terms & Conditions" = "terms  conditions"
  /\ TextUtils.normalize_text (TextUtils.normalize_text "Terms & Conditions")
     = "terms conditions"
  /\ TextUtils.normalize_text (TextUtils.normalize_text "Terms & Conditions")
     <> TextUtils.normalize_text "Terms & Conditions".
Proof.
  repeat split; try reflexivity.
  vm_compute. discriminate.
Qed.

(** ** Claim C10: which articles reach the scorer *)

Section Admission.

Import MatchingService.

Variables semantic_matches text_matches : list Match.
Variable threshold : Q.

Lemma add_semantic_admitted (use_text_fallback : bool) (l : list Match) :
  incl l semantic_matches ->
  forall st,
    Forall (admitted semantic_matches text_matches threshold use_text_fallback) (snd st) ->
    Forall (admitted semantic_matches text_matches threshold use_text_fallback)
      (snd (fold_left add_semantic l st)).
Proof.
  induction l as [| m l IH]; intros Hl st Hst; simpl; [assumption |].
  apply IH.
  - intros x Hx. apply Hl. now right.
  - unfold add_semantic. destruct st as [seen_keys combined].
    destruct (similarity m) as [s |] eqn:Es.
    + destruct (Qlt_bool s MINIMUM_SIMILARITY) eqn:Elt; [assumption |].
      destruct (seen (key_of m) seen_keys); [assumption |].
      simpl. apply Forall_app. split; [assumption |].
      constructor; [| constructor].
      left. split; [apply Hl; now left |].
      exists s. split; [assumption | now apply Qlt_bool_false in Elt].
    + destruct (Qlt_bool 0.0 MINIMUM_SIMILARITY) eqn:Elt; [assumption |].
      vm_compute in Elt. discriminate.
Qed.

Lemma add_text_admitted (l : list Match) :
  incl l text_matches ->
  forall st st',
    (forall x, st = Ok x ->
       Forall (admitted semantic_matches text_matches threshold true) (snd x)) ->
    fold_left (add_text threshold) l st = Ok st' ->
    Forall (admitted semantic_matches text_matches threshold true) (snd st').
Proof.
  induction l as [| m l IH]; intros Hl st st' Hst H; simpl in H.
  - now apply Hst.
  - eapply IH; [| | exact H].
    + intros x Hx. apply Hl. now right.
    + intros x Hx. unfold add_text in Hx.
      destruct st as [[seen_keys combined] | e]; simpl in Hx; [| discriminate].
      specialize (Hst _ eq_refl). simpl in Hst.
      destruct (seen (key_of m) seen_keys); [injection Hx as <-; assumption |].
      destruct (similarity m) as [s |] eqn:Es; [| discriminate].
      destruct (Qle_bool threshold s) eqn:Ele; injection Hx as <-; [| assumption].
      simpl. apply Forall_app. split; [assumption |].
      constructor; [| constructor].
      right. split; [reflexivity |]. split; [apply Hl; now left |].
      exists s. split; [assumption | now apply Qle_bool_iff].
Qed.

End Admission.

Lemma combine_matches_admitted (semantic_matches text_matches : list MatchingService.Match)
    (threshold : Q) (use_text_fallback : bool) (combined : list MatchingService.Match) :
  MatchingService.combine_matches semantic_matches text_matches threshold
    use_text_fallback = Ok combined ->
  Forall (admitted semantic_matches text_matches threshold use_text_fallback) combined.
Proof.
  unfold MatchingService.combine_matches. intros H.
  pose proof (add_semantic_admitted semantic_matches text_matches threshold
                use_text_fallback semantic_matches (incl_refl _) ([], [])
                (Forall_nil _)) as Hsem.
  destruct use_text_fallback.
  - destruct (fold_left (MatchingService.add_text threshold) text_matches _)
      as [st' |] eqn:Et; simpl in H; [| discriminate].
    injection H as <-.
    eapply add_text_admitted; [apply incl_refl | | exact Et].
    intros x Hx. injection Hx as <-. exact Hsem.
  - simpl in H. injection H as <-. exact Hsem.
Qed.

Lemma score_all_retrieved (mode : bool) (judge : Judge) (pages : list Page)
    (corpus : list Article) (combined : list MatchingService.Match) :
  forall scored,
    MatchingService.score_all mode judge pages corpus combined = Ok scored ->
    map MatchingService.retrieved scored = combined.
Proof.
  induction combined as [| m rest IH]; intros scored H;
    cbn [MatchingService.score_all] in H.
  - now injection H as <-.
  - destruct (ScoringUtils.calculate_article_coverage _ _ _ _ _ _ _) as [c |];
      cbn [bind] in H; [| discriminate].
    destruct (MatchingService.score_all mode judge pages corpus rest) as [rest' |];
      cbn [bind] in H; [| discriminate].
    injection H as <-. simpl. f_equal. now apply IH.
Qed.




(* ================================================================ *)
(** * Further properties of the code *)

(** ** The text normalizer *)

Section Normalizer.

Import TextUtils.

(** A boolean property that holds of the 256 characters holds of every
    character. *)
Lemma every_char (P : ascii -> bool) :
  forallb P (map ascii_of_nat (seq 0 256)) = true -> forall c, P c = true.
Proof.
  intros H c. rewrite forallb_forall in H. apply H.
  rewrite <- (ascii_nat_embedding c). apply in_map, in_seq.
  pose proof (nat_ascii_bounded c). lia.
Qed.

Lemma lower_char_idem (c : ascii) : lower_char (lower_char c) = lower_char c.
Proof.
  apply Ascii.eqb_eq.
  apply (every_char (fun c => Ascii.eqb (lower_char (lower_char c)) (lower_char c))).
  vm_compute. reflexivity.
Qed.

Lemma lower_char_space (c : ascii) : is_space (lower_char c) = is_space c.
Proof.
  apply Bool.eqb_prop.
  apply (every_char (fun c => Bool.eqb (is_space (lower_char c)) (is_space c))).
  vm_compute. reflexivity.
Qed.

Lemma lower_char_word (c : ascii) : is_word (lower_char c) = is_word c.
Proof.
  apply Bool.eqb_prop.
  apply (every_char (fun c => Bool.eqb (is_word (lower_char c)) (is_word c))).
  vm_compute. reflexivity.
Qed.

Lemma chars_of_chars (l : list ascii) : chars (of_chars l) = l.
Proof. apply list_ascii_of_string_of_list_ascii. Qed.

Lemma of_chars_chars (s : string) : of_chars (chars s) = s.
Proof. apply string_of_list_ascii_of_string. Qed.

Lemma normalize_text_chars (s : string) :
  normalize_text s = of_chars (normalize_chars (chars s)).
Proof.
  unfold normalize_text, sub_special, sub_whitespace_runs, strip, lower, normalize_chars.
  rewrite !chars_of_chars. reflexivity.
Qed.

Lemma lstrip_head_ok (l : list ascii) : head_ok (lstrip_chars l).
Proof.
  induction l as [| c l IH]; simpl; [exact I |].
  destruct (is_space c) eqn:E; [exact IH | exact E].
Qed.

Lemma lstrip_fixed (l : list ascii) : head_ok l -> lstrip_chars l = l.
Proof.
  destruct l as [| c l]; simpl; [reflexivity |].
  intros ->. reflexivity.
Qed.

Lemma lstrip_suffix (l : list ascii) :
  exists p, l = (p ++ lstrip_chars l)%list.
Proof.
  induction l as [| c l [p IH]]; simpl.
  - exists []. reflexivity.
  - destruct (is_space c).
    + exists (c :: p). simpl. now rewrite <- IH.
    + exists []. reflexivity.
Qed.

Lemma head_ok_app (l q : list ascii) : l <> [] -> head_ok (l ++ q) -> head_ok l.
Proof. destruct l; [congruence | intros _ H; exact H]. Qed.

(** The list [str.strip] returns has no whitespace at either end. *)
Lemma strip_trimmed (l : list ascii) :
  let t := rev (lstrip_chars (rev (lstrip_chars l))) in
  head_ok t /\ head_ok (rev t).
Proof.
  simpl. split.
  - pose proof (lstrip_head_ok l) as Ha.
    set (a := lstrip_chars l) in *.
    destruct (lstrip_suffix (rev a)) as [p Hp].
    set (b := lstrip_chars (rev a)) in *.
    destruct b as [| c b'] eqn:Eb; [exact I |].
    apply (head_ok_app _ (rev p)).
    + simpl. intros C. apply app_eq_nil in C. destruct C; discriminate.
    + rewrite <- rev_app_distr, <- Hp, rev_involutive. exact Ha.
  - rewrite rev_involutive. apply lstrip_head_ok.
Qed.

Lemma strip_fixed (l : list ascii) :
  head_ok l -> head_ok (rev l) ->
  rev (lstrip_chars (rev (lstrip_chars l))) = l.
Proof.
  intros H1 H2. rewrite (lstrip_fixed l H1), (lstrip_fixed _ H2).
  apply rev_involutive.
Qed.

Lemma collapse_head_ok (l : list ascii) : head_ok l -> head_ok (collapse_ws false l).
Proof.
  destruct l as [| c l]; simpl; [trivial |].
  intros E. rewrite E. exact E.
Qed.

Lemma collapse_snoc (l : list ascii) (c : ascii) :
  is_space c = false ->
  forall r, collapse_ws r (l ++ [c]) = (collapse_ws r l ++ [c])%list.
Proof.
  intros Ec. induction l as [| d l IH]; intros r; simpl.
  - rewrite Ec. reflexivity.
  - destruct (is_space d); [destruct r |]; simpl; now rewrite IH.
Qed.

Lemma collapse_last_ok (l : list ascii) :
  head_ok (rev l) -> head_ok (rev (collapse_ws false l)).
Proof.
  destruct (rev l) as [| c t] eqn:E.
  - apply (f_equal (@rev ascii)) in E. rewrite rev_involutive in E. subst. trivial.
  - apply (f_equal (@rev ascii)) in E. rewrite rev_involutive in E. simpl in E.
    subst. simpl. intros Ec.
    rewrite (collapse_snoc _ _ Ec), rev_app_distr. simpl. exact Ec.
Qed.

(** Collapsing the whitespace runs a second time changes nothing. *)
Lemma collapse_collapse (l : list ascii) :
  forall r,
    collapse_ws false (collapse_ws r l) = collapse_ws r l
    /\ collapse_ws true (collapse_ws true l) = collapse_ws true l.
Proof.
  induction l as [| c l IH]; intros r; simpl; [now split |].
  destruct (IH true) as [IHf IHt]. destruct (IH false) as [IHff _].
  destruct (is_space c) eqn:Ec.
  - split; [| exact IHt].
    destruct r; [exact IHf |].
    simpl. change (is_space " ") with true. cbv iota. now rewrite IHt.
  - split; simpl; rewrite Ec; now rewrite IHff.
Qed.

Lemma collapse_keeps (P : ascii -> Prop) (l : list ascii) :
  P " "%char -> Forall P l -> forall r, Forall P (collapse_ws r l).
Proof.
  intros Hsp H. induction H as [| c l Hc _ IH]; intros r; simpl; [constructor |].
  destruct (is_space c); [destruct r |]; auto.
Qed.

(** After the collapse the only whitespace left is the space. *)
Lemma collapse_spaces (l : list ascii) :
  forall r, Forall (fun c => is_space c = true -> c = " "%char) (collapse_ws r l).
Proof.
  induction l as [| c l IH]; intros r; simpl; [constructor |].
  destruct (is_space c) eqn:Ec; [destruct r |]; auto.
  constructor; [congruence | apply IH].
Qed.

Lemma lstrip_keeps (P : ascii -> Prop) (l : list ascii) :
  Forall P l -> Forall P (lstrip_chars l).
Proof.
  induction 1 as [| c l Hc H IH]; simpl; [constructor |].
  destruct (is_space c); [exact IH | now constructor].
Qed.

Lemma strip_keeps (P : ascii -> Prop) (l : list ascii) :
  Forall P l -> Forall P (rev (lstrip_chars (rev (lstrip_chars l)))).
Proof.
  intros H. apply Forall_rev, lstrip_keeps, Forall_rev, lstrip_keeps, H.
Qed.

Lemma filter_fixed (f : ascii -> bool) (l : list ascii) :
  Forall (fun c => f c = true) l -> filter f l = l.
Proof.
  induction 1 as [| c l Hc _ IH]; simpl; [reflexivity |].
  now rewrite Hc, IH.
Qed.

Lemma map_fixed (f : ascii -> ascii) (l : list ascii) :
  Forall (fun c => f c = c) l -> map f l = l.
Proof.
  induction 1 as [| c l Hc _ IH]; simpl; [reflexivity |].
  now rewrite Hc, IH.
Qed.

(** Every character of the normalized text is a word character fixed by
    [str.lower], or the space. *)
Lemma normalize_chars_alphabet (l : list ascii) : Forall normal_char (normalize_chars l).
Proof.
  unfold normalize_chars.
  set (y := collapse_ws false _).
  assert (Hl : Forall (fun c => lower_char c = c) y).
  { apply collapse_keeps; [reflexivity |].
    apply strip_keeps. apply Forall_forall. intros c Hc.
    apply in_map_iff in Hc. destruct Hc as (d & <- & _). apply lower_char_idem. }
  pose proof (collapse_spaces
                (rev (lstrip_chars (rev (lstrip_chars (map lower_char l))))) false) as Hs.
  fold y in Hs.
  apply Forall_forall. intros c Hc. apply filter_In in Hc. destruct Hc as [Hc Hp].
  rewrite Forall_forall in Hl, Hs.
  unfold plain_char in Hp. apply orb_true_iff in Hp.
  destruct Hp as [Hw | Hsp].
  - left. split; [exact Hw | now apply Hl].
  - right. now apply Hs.
Qed.

(** On text without special characters the normalizer is idempotent. *)
Lemma normalize_chars_idem (l : list ascii) :
  Forall (fun c => plain_char c = true) l ->
  normalize_chars (normalize_chars l) = normalize_chars l.
Proof.
  intros Hl. unfold normalize_chars at 2 3.
  set (x := rev (lstrip_chars (rev (lstrip_chars (map lower_char l))))).
  set (y := collapse_ws false x).
  assert (Hx : Forall (fun c => plain_char c = true) x).
  { apply strip_keeps. apply Forall_forall. intros c Hc.
    apply in_map_iff in Hc. destruct Hc as (d & <- & Hd).
    rewrite Forall_forall in Hl. specialize (Hl _ Hd).
    unfold plain_char in *. now rewrite lower_char_word, lower_char_space. }
  assert (Hy : Forall (fun c => plain_char c = true) y).
  { apply collapse_keeps; [reflexivity | exact Hx]. }
  assert (Hlow : Forall (fun c => lower_char c = c) y).
  { apply collapse_keeps; [reflexivity |].
    apply strip_keeps. apply Forall_forall. intros c Hc.
    apply in_map_iff in Hc. destruct Hc as (d & <- & _). apply lower_char_idem. }
  destruct (strip_trimmed (map lower_char l)) as [Hh Ht]. fold x in Hh, Ht.
  assert (Hcc : collapse_ws false y = y) by apply collapse_collapse.
  rewrite (filter_fixed _ y Hy).
  unfold normalize_chars.
  rewrite (map_fixed _ y Hlow).
  rewrite (strip_fixed y (collapse_head_ok x Hh) (collapse_last_ok x Ht)).
  rewrite Hcc. apply filter_fixed, Hy.
Qed.

Lemma normalize_chars_plain (l : list ascii) :
  Forall (fun c => plain_char c = true) (normalize_chars l).
Proof.
  apply Forall_forall. intros c Hc. unfold normalize_chars in Hc.
  apply filter_In in Hc. tauto.
Qed.

End Normalizer.

(** X1: whatever the input, the normalized text consists of word characters
    that [str.lower] leaves unchanged and of spaces; no other whitespace, no
    upper-case letter and no special character survives. *)
Theorem X1_normalize_text_alphabet :
  forall s : string,
    Forall normal_char (TextUtils.chars (TextUtils.normalize_text s)).
Proof.
  intros s. rewrite normalize_text_chars, chars_of_chars.
  apply normalize_chars_alphabet.
Qed.

(** X2: on text that holds only word characters and whitespace the
    normalizer is idempotent. *)
Theorem X2_normalize_text_idempotent_without_specials :
  forall s : string,
    Forall (fun c => plain_char c = true) (TextUtils.chars s) ->
    TextUtils.normalize_text (TextUtils.normalize_text s) = TextUtils.normalize_text s.
Proof.
  intros s H.
  rewrite !normalize_text_chars, chars_of_chars.
  f_equal. now apply normalize_chars_idem.
Qed.

Lemma X2_normalize_text_idempotent_without_specials_witness :
  Forall (fun c => plain_char c = true) (TextUtils.chars "  Data   Breach ")
  /\ TextUtils.normalize_text (TextUtils.normalize_text "  Data   Breach ")
     = TextUtils.normalize_text "  Data   Breach ".
Proof.
  assert (H : Forall (fun c => plain_char c = true) (TextUtils.chars "  Data   Breach ")).
  { apply Forall_forall, forallb_forall. vm_compute. reflexivity. }
  split; [exact H |].
  exact (X2_normalize_text_idempotent_without_specials "  Data   Breach " H).
Defined.

(** X3: a second application of the normalizer always reaches a fixed point:
    applying it a third time changes nothing. *)
Theorem X3_normalize_text_stable_after_two :
  forall s : string,
    TextUtils.normalize_text (TextUtils.normalize_text (TextUtils.normalize_text s))
    = TextUtils.normalize_text (TextUtils.normalize_text s).
Proof.
  intros s.
  rewrite !normalize_text_chars, !chars_of_chars.
  f_equal. apply normalize_chars_idem, normalize_chars_plain.
Qed.

(** ** Keyword overlap *)

Section Overlap.

Import TextMatching.

Lemma filter_length_le {A : Type} (f : A -> bool) (l : list A) :
  (List.length (filter f l) <= List.length l)%nat.
Proof.
  induction l as [| x l IH]; simpl; [lia |].
  destruct (f x); simpl; lia.
Qed.

Lemma filter_length_all {A : Type} (f : A -> bool) (l : list A) :
  List.length (filter f l) = List.length l <-> forall x, In x l -> f x = true.
Proof.
  induction l as [| x l IH]; simpl.
  - split; [intros _ y [] | reflexivity].
  - pose proof (filter_length_le f l) as Hle.
    destruct (f x) eqn:Ex; simpl.
    + split.
      * intros H y [<- | Hy]; [assumption |]. apply IH; [lia | assumption].
      * intros H. f_equal. apply IH. intros y Hy. apply H. now right.
    + split; [lia |].
      intros H. specialize (H x (or_introl eq_refl)). congruence.
Qed.

Lemma member_In (k : string) (s : list string) : member k s = true <-> In k s.
Proof.
  unfold member. rewrite existsb_exists. split.
  - intros (x & Hx & E). apply String.eqb_eq in E. now subst.
  - intros H. exists k. split; [assumption | apply String.eqb_refl].
Qed.

Lemma ratio_of_counts (n d : nat) :
  (0 < d)%nat -> (n <= d)%nat ->
  0 <= inject_Z (Z.of_nat n) / inject_Z (Z.of_nat d) <= 1
  /\ (inject_Z (Z.of_nat n) / inject_Z (Z.of_nat d) == 1 <-> n = d)
  /\ (inject_Z (Z.of_nat n) / inject_Z (Z.of_nat d) == 0 <-> n = 0%nat).
Proof.
  intros Hd Hn.
  assert (Hd' : 0 < inject_Z (Z.of_nat d)).
  { change 0 with (inject_Z 0). rewrite <- Zlt_Qlt. lia. }
  assert (Hn0 : 0 <= inject_Z (Z.of_nat n)).
  { change 0 with (inject_Z 0). rewrite <- Zle_Qle. lia. }
  assert (Hnd : inject_Z (Z.of_nat n) <= inject_Z (Z.of_nat d)).
  { rewrite <- Zle_Qle. lia. }
  assert (Hne : ~ inject_Z (Z.of_nat d) == 0) by (intros C; rewrite C in Hd'; lra).
  split; [split |].
  - apply Qle_shift_div_l; lra.
  - apply Qle_shift_div_r; lra.
  - assert (E : inject_Z (Z.of_nat n)
                == inject_Z (Z.of_nat n) / inject_Z (Z.of_nat d) * inject_Z (Z.of_nat d))
      by (field; exact Hne).
    split; split.
    + intros H. rewrite H, Qmult_1_l in E.
      rewrite inject_Z_injective in E. lia.
    + intros ->. field. exact Hne.
    + intros H. rewrite H, Qmult_0_l in E.
      change 0 with (inject_Z 0) in E.
      rewrite inject_Z_injective in E. lia.
    + intros ->. simpl. field. exact Hne.
Qed.

End Overlap.

Section OverlapProperties.

Import TextMatching.

Lemma overlap_counts (text1 text2 : string) :
  split text1 <> [] ->
  let k1 := set_of (split text1) in
  let hits := filter (fun k => member k (set_of (split text2))) k1 in
  (0 < List.length k1)%nat
  /\ (List.length hits <= List.length k1)%nat
  /\ calculate_keyword_overlap text1 text2
     = inject_Z (Z.of_nat (List.length hits)) / inject_Z (Z.of_nat (List.length k1)).
Proof.
  intros Hne k1 hits.
  assert (Hk : k1 <> []).
  { unfold k1, set_of. destruct (split text1) as [| w ws] eqn:E; [congruence |].
    intros C. assert (Hin : In w (nodup string_dec (w :: ws))).
    { apply nodup_In. now left. }
    rewrite C in Hin. destruct Hin. }
  split; [destruct k1; [congruence | simpl; lia] |].
  split; [apply filter_length_le |].
  unfold calculate_keyword_overlap. fold k1.
  destruct k1; [congruence | reflexivity].
Qed.

Lemma overlap_range (text1 text2 : string) :
  0 <= calculate_keyword_overlap text1 text2 <= 1.
Proof.
  destruct (split text1) as [| w ws] eqn:E.
  - unfold calculate_keyword_overlap. rewrite E. simpl. lra.
  - assert (Hne : split text1 <> []) by (rewrite E; discriminate).
    destruct (overlap_counts text1 text2 Hne) as (Hd & Hn & ->).
    apply ratio_of_counts; assumption.
Qed.

End OverlapProperties.

(** X4: the keyword overlap of two texts is a fraction between 0 and 1, and it
    is 0 when the first text has no token. *)
Theorem X4_keyword_overlap_range :
  forall text1 text2 : string,
    0 <= TextMatching.calculate_keyword_overlap text1 text2 <= 1
    /\ (TextMatching.split text1 = [] ->
        TextMatching.calculate_keyword_overlap text1 text2 == 0).
Proof.
  intros text1 text2. split; [apply overlap_range |].
  intros E. unfold TextMatching.calculate_keyword_overlap. rewrite E. reflexivity.
Qed.

(** X5: for a first text with at least one token, the overlap is 1 exactly
    when each of its tokens occurs among the tokens of the second text, and 0
    exactly when none does; the measure is directional (a b c against a b is
    2/3, a b against a b c is 1). *)
Theorem X5_keyword_overlap_extremes :
  forall text1 text2 : string,
    TextMatching.split text1 <> [] ->
    (TextMatching.calculate_keyword_overlap text1 text2 == 1
     <-> forall k, In k (TextMatching.split text1) -> In k (TextMatching.split text2))
    /\ (TextMatching.calculate_keyword_overlap text1 text2 == 0
        <-> forall k, In k (TextMatching.split text1) -> ~ In k (TextMatching.split text2)).
Proof.
  intros text1 text2 Hne.
  destruct (overlap_counts text1 text2 Hne) as (Hd & Hn & ->).
  destruct (ratio_of_counts _ _ Hd Hn) as (_ & H1 & H0).
  rewrite H1, H0. clear H1 H0. split.
  - rewrite filter_length_all. split.
    + intros H k Hk.
      assert (Hk' : In k (TextMatching.set_of (TextMatching.split text1)))
        by (apply nodup_In; exact Hk).
      apply H, member_In in Hk'. now apply nodup_In in Hk'.
    + intros H k Hk. apply member_In, nodup_In, H. now apply nodup_In in Hk.
  - rewrite length_zero_iff_nil. split.
    + intros H k Hk Hk2.
      assert (Hin : In k (filter (fun k0 => TextMatching.member k0
                                    (TextMatching.set_of (TextMatching.split text2)))
                            (TextMatching.set_of (TextMatching.split text1)))).
      { apply filter_In. split; [apply nodup_In; exact Hk |].
        apply member_In, nodup_In. exact Hk2. }
      rewrite H in Hin. destruct Hin.
    + intros H.
      destruct (filter _ _) as [| k l] eqn:E; [reflexivity |].
      assert (Hin : In k (k :: l)) by now left.
      rewrite <- E in Hin. apply filter_In in Hin. destruct Hin as [Hk Hm].
      apply nodup_In in Hk. apply member_In, nodup_In in Hm.
      exfalso. exact (H k Hk Hm).
Qed.

Lemma X5_keyword_overlap_extremes_witness :
  TextMatching.split "a b" <> []
  /\ (TextMatching.calculate_keyword_overlap "a b" "a b c" == 1
      <-> forall k, In k (TextMatching.split "a b") -> In k (TextMatching.split "a b c"))
  /\ TextMatching.calculate_keyword_overlap "a b" "a b c" == 1
  /\ TextMatching.calculate_keyword_overlap "a b c" "a b" == 2 / 3.
Proof.
  assert (H : TextMatching.split "a b" <> []) by (vm_compute; discriminate).
  split; [exact H |].
  split; [exact (proj1 (X5_keyword_overlap_extremes "a b" "a b c" H)) |].
  split; reflexivity.
Defined.

(** ** Sorting *)

Section Sorting.

Import LlmService.

Context {A : Type} (key : A -> Q).

Lemma insert_desc_descending (x : A) (l : list A) :
  descending key l -> descending key (insert_desc key x l).
Proof.
  unfold descending.
  induction l as [| y l IH]; intros H; simpl.
  - repeat constructor.
  - destruct (Qle_bool (key y) (key x)) eqn:E.
    + apply Qle_bool_iff in E. constructor; [exact H | constructor; exact E].
    + apply Qle_bool_false in E.
      inversion H as [| ? ? Hs Hh]; subst.
      constructor; [apply IH; exact Hs |].
      destruct l as [| z l]; simpl.
      * constructor. now apply Qlt_le_weak.
      * destruct (Qle_bool (key z) (key x)); constructor.
        -- now apply Qlt_le_weak.
        -- inversion Hh; subst. assumption.
Qed.

Lemma sort_desc_descending (l : list A) : descending key (sort_desc key l).
Proof.
  unfold sort_desc.
  induction l as [| x l IH]; simpl; [constructor |].
  now apply insert_desc_descending.
Qed.

Lemma insert_desc_perm (x : A) (l : list A) : Permutation (x :: l) (insert_desc key x l).
Proof.
  induction l as [| y l IH]; simpl; [reflexivity |].
  destruct (Qle_bool (key y) (key x)); [reflexivity |].
  rewrite perm_swap. now constructor.
Qed.

Lemma sort_desc_perm (l : list A) : Permutation l (sort_desc key l).
Proof.
  unfold sort_desc.
  induction l as [| x l IH]; simpl; [constructor |].
  rewrite <- insert_desc_perm. now constructor.
Qed.

End Sorting.

(** ** The text matcher *)

Section TextMatcher.

Import TextMatching.

Variable ratio : string -> string -> Q.

Lemma collect_matches_In (doc : string) (threshold : Q) (corpus : list Article)
    (m : TextMatch) :
  In m (collect_matches ratio doc threshold corpus)
  <-> exists a, In a corpus /\ match_article ratio doc threshold a = Some m.
Proof.
  induction corpus as [| b rest IH]; simpl.
  - split; [intros [] | intros (a & [] & _)].
  - destruct (match_article ratio doc threshold b) as [mb |] eqn:Eb; simpl;
      rewrite IH; split.
    + intros [<- | (a & Ha & Hm)]; [exists b | exists a]; auto.
    + intros (a & [<- | Ha] & Hm); [left; congruence | right; exists a; auto].
    + intros (a & Ha & Hm). exists a. auto.
    + intros (a & [<- | Ha] & Hm); [congruence | exists a; auto].
Qed.

Lemma py_max_bounds (a b : Q) : a <= py_max a b /\ b <= py_max a b.
Proof.
  unfold py_max. destruct (Qlt_bool a b) eqn:E.
  - apply Qlt_bool_iff in E. lra.
  - apply Qlt_bool_false in E. lra.
Qed.

Lemma py_max_cases (a b : Q) : py_max a b = a \/ py_max a b = b.
Proof. unfold py_max. destruct (Qlt_bool a b); auto. Qed.

Lemma final_score_bounds (sim ko : Q) :
  0 <= sim <= 1 -> 0 <= ko <= 1 ->
  sim <= final_score_of sim ko /\ 0.9 * ko <= final_score_of sim ko
  /\ final_score_of sim ko <= 1.
Proof.
  intros Hs Hk. unfold final_score_of.
  destruct (Qle_bool 0.95 sim && Qle_bool 0.95 ko) eqn:E1; [lra |].
  destruct (Qle_bool 0.99 ko) eqn:E2.
  - destruct (py_max_bounds sim 0.95) as [B1 B2].
    destruct (py_max_cases sim 0.95) as [E | E]; rewrite E in *; lra.
  - destruct (py_max_bounds sim (ko * 0.9)) as [B1 B2].
    destruct (py_max_cases sim (ko * 0.9)) as [E | E]; rewrite E in *; lra.
Qed.

Lemma match_article_article (doc : string) (threshold : Q) (b : Article) (m : TextMatch) :
  match_article ratio doc threshold b = Some m -> article m = b.
Proof.
  unfold match_article. destruct (text b); [discriminate |].
  destruct (_ || _); [| discriminate]. intros H. injection H as <-. reflexivity.
Qed.

Lemma match_article_Some (doc : string) (threshold : Q) (a : Article) :
  (exists m, match_article ratio doc threshold a = Some m)
  <-> text a <> ""
      /\ (threshold <= final_score_of
                         (similarity_score ratio doc (TextUtils.normalize_text (text a)))
                         (calculate_keyword_overlap (TextUtils.normalize_text (text a)) doc)
          \/ contains (TextUtils.normalize_text (text a)) doc = true
          \/ contains doc (TextUtils.normalize_text (text a)) = true).
Proof.
  unfold match_article. destruct (text a) as [| c t].
  - split; [intros (m & H); discriminate | intros (H & _); congruence].
  - set (art := TextUtils.normalize_text (String c t)).
    set (f := final_score_of _ _).
    destruct (Qle_bool threshold f) eqn:Ec; cbn [orb].
    + apply Qle_bool_iff in Ec. split; [| intros _; eexists; reflexivity].
      intros _. split; [discriminate | now left].
    + apply Qle_bool_false in Ec.
      destruct (contains art doc) eqn:Ep; cbn [orb].
      * split; [| intros _; eexists; reflexivity].
        intros _. split; [discriminate | right; now left].
      * destruct (contains doc art) eqn:Eq.
        -- split; [| intros _; eexists; reflexivity].
           intros _. split; [discriminate | right; now right].
        -- split; [intros (m & H); discriminate |].
           intros (_ & [H | [H | H]]); [lra | discriminate | discriminate].
Qed.

End TextMatcher.

(** X6: the text matcher returns a corpus article exactly when the article
    has text and either its combined score reaches the threshold or its
    normalized text contains, or is contained in, the normalized document. *)
Theorem X6_text_matcher_admission :
  forall (ratio : string -> string -> Q) (pages : list Page) (corpus : list Article)
         (threshold : Q) (a : Article),
    In a corpus ->
    let doc := TextUtils.normalize_text (document_text pages) in
    let art := TextUtils.normalize_text (text a) in
    ((exists m, In m (TextMatching.match_with_pdpl_text ratio pages corpus threshold)
                /\ TextMatching.article m = a)
     <-> text a <> ""
         /\ (threshold <= TextMatching.final_score_of
                            (TextMatching.similarity_score ratio doc art)
                            (TextMatching.calculate_keyword_overlap art doc)
             \/ TextMatching.contains art doc = true
             \/ TextMatching.contains doc art = true)).
Proof.
  intros ratio pages corpus threshold a Ha doc art.
  unfold TextMatching.match_with_pdpl_text. fold (document_text pages). fold doc.
  subst art.
  apply (iff_trans
           (B := exists m, TextMatching.match_article ratio doc threshold a = Some m));
    [| apply match_article_Some].
  split.
  - intros (m & Hm & Hart).
    apply sort_desc_In, collect_matches_In in Hm.
    destruct Hm as (b & Hb & Hmb).
    pose proof (match_article_article _ _ _ _ _ Hmb) as Eb.
    exists m. congruence.
  - intros (m & Hm). exists m.
    split; [| eapply match_article_article; eauto].
    apply sort_desc_In, collect_matches_In. exists a. auto.
Qed.

Lemma X6_text_matcher_admission_witness :
  In Samples.consent_article [Samples.consent_article]
  /\ ((exists m, In m (TextMatching.match_with_pdpl_text (fun _ _ => 0.5) Samples.policy
                         [Samples.consent_article] 0.4)
                 /\ TextMatching.article m = Samples.consent_article)
      <-> text Samples.consent_article <> ""
          /\ (0.4 <= TextMatching.final_score_of
                       (TextMatching.similarity_score (fun _ _ => 0.5)
                          (TextUtils.normalize_text (document_text Samples.policy))
                          (TextUtils.normalize_text (text Samples.consent_article)))
                       (TextMatching.calculate_keyword_overlap
                          (TextUtils.normalize_text (text Samples.consent_article))
                          (TextUtils.normalize_text (document_text Samples.policy)))
              \/ TextMatching.contains
                   (TextUtils.normalize_text (text Samples.consent_article))
                   (TextUtils.normalize_text (document_text Samples.policy)) = true
              \/ TextMatching.contains
                   (TextUtils.normalize_text (document_text Samples.policy))
                   (TextUtils.normalize_text (text Samples.consent_article)) = true)).
Proof.
  assert (H : In Samples.consent_article [Samples.consent_article]) by now left.
  split; [exact H |].
  exact (X6_text_matcher_admission (fun _ _ => 0.5) Samples.policy
           [Samples.consent_article] 0.4 Samples.consent_article H).
Defined.

(** X7: when the sequence similarity is a ratio between 0 and 1, every match
    the text matcher returns carries a similarity between 0 and 1 that is at
    least the sequence similarity of the two normalized texts and at least
    0.9 times its keyword overlap, which itself lies between 0 and 1. *)
Theorem X7_text_match_scores :
  forall (ratio : string -> string -> Q) (pages : list Page) (corpus : list Article)
         (threshold : Q) (m : TextMatching.TextMatch),
    ratio_in_unit ratio ->
    In m (TextMatching.match_with_pdpl_text ratio pages corpus threshold) ->
    0 <= TextMatching.similarity m <= 1
    /\ 0 <= TextMatching.keyword_overlap m <= 1
    /\ 0.9 * TextMatching.keyword_overlap m <= TextMatching.similarity m
    /\ TextMatching.similarity_score ratio
         (TextUtils.normalize_text (document_text pages))
         (TextUtils.normalize_text (text (TextMatching.article m)))
       <= TextMatching.similarity m.
Proof.
  intros ratio pages corpus threshold m Hr Hm.
  unfold TextMatching.match_with_pdpl_text in Hm. fold (document_text pages) in Hm.
  apply sort_desc_In, collect_matches_In in Hm.
  destruct Hm as (a & _ & Hm).
  unfold TextMatching.match_article in Hm.
  destruct (text a) eqn:Et; [discriminate |].
  destruct (_ || _); [| discriminate].
  injection Hm as <-. simpl. rewrite Et.
  set (doc := TextUtils.normalize_text (document_text pages)).
  set (art := TextUtils.normalize_text (String a0 s)).
  pose proof (overlap_range art doc) as Hk.
  assert (Hs : 0 <= TextMatching.similarity_score ratio doc art <= 1) by apply Hr.
  destruct (final_score_bounds _ _ Hs Hk) as (B1 & B2 & B3).
  repeat split; try assumption; lra.
Qed.

Lemma X7_text_match_scores_witness :
  exists m,
    ratio_in_unit (fun _ _ => 0.5)
    /\ In m (TextMatching.match_with_pdpl_text (fun _ _ => 0.5) Samples.policy
               [Samples.consent_article] 0.4)
    /\ 0 <= TextMatching.similarity m <= 1
    /\ 0.9 * TextMatching.keyword_overlap m <= TextMatching.similarity m.
Proof.
  assert (Hr : ratio_in_unit (fun _ _ => 0.5)).
  { intros a b. split; vm_compute; discriminate. }
  eexists. split; [exact Hr |].
  assert (Hin : In (hd {| TextMatching.article := Samples.consent_article;
                          TextMatching.similarity := 0;
                          TextMatching.match_type := "";
                          TextMatching.keyword_overlap := 0 |}
                      (TextMatching.match_with_pdpl_text (fun _ _ => 0.5) Samples.policy
                         [Samples.consent_article] 0.4))
                  (TextMatching.match_with_pdpl_text (fun _ _ => 0.5) Samples.policy
                     [Samples.consent_article] 0.4)).
  { vm_compute. left. reflexivity. }
  split; [exact Hin |].
  destruct (X7_text_match_scores (fun _ _ => 0.5) Samples.policy
              [Samples.consent_article] 0.4 _ Hr Hin) as (B1 & _ & B3 & _).
  split; assumption.
Defined.

(** ** More on the coverage scorer *)

Section HybridNeverRaises.

Import ScoringUtils.

Variable llm : option Judge.
Variables bm25 e5 : Q.

Lemma score_clause_hybrid (n : Z) (doc doc_n : string) (clause : Clause) :
  exists s, score_clause false n doc doc_n llm bm25 e5 clause = Ok s.
Proof.
  unfold score_clause. destruct llm as [f |]; cbn [bind].
  - destruct (f _ _ _ _); eexists; reflexivity.
  - eexists. reflexivity.
Qed.

Lemma loop_body_hybrid (n : Z) (doc doc_n : string) (st : LoopState) (clause : Clause) :
  exists st', loop_body false n doc doc_n llm bm25 e5 st clause = Ok st'.
Proof.
  unfold loop_body. destruct (_ || _); [eexists; reflexivity |].
  destruct (score_clause_hybrid n doc doc_n clause) as [s ->]. cbn [bind].
  destruct (Qle_bool 75 _); [| destruct (Qle_bool 40 _)]; eexists; reflexivity.
Qed.

Lemma clause_loop_hybrid (n : Z) (doc doc_n : string) (cls : list Clause) :
  forall st, exists st', clause_loop false n doc doc_n llm bm25 e5 cls st = Ok st'.
Proof.
  induction cls as [| clause rest IH]; intros st; cbn [clause_loop].
  - eexists. reflexivity.
  - destruct (loop_body_hybrid n doc doc_n st clause) as [st1 ->]. cbn [bind].
    apply IH.
Qed.

Lemma clause_level_hybrid (a : Article) (cls : list Clause) (doc doc_n : string) :
  exists info, clause_level_coverage false a cls doc doc_n llm bm25 e5 = Ok info.
Proof.
  unfold clause_level_coverage.
  destruct (clause_loop_hybrid (article_number a) doc doc_n cls loop_start) as [st ->].
  cbn [bind]. eexists. reflexivity.
Qed.

Lemma article_level_hybrid (a : Article) (doc doc_n : string) (n : Z) (aid : string)
    (cls : list Clause) :
  exists info,
    _calculate_article_coverage_llm_article_level false a doc doc_n n aid cls llm bm25 e5
    = Ok info.
Proof.
  unfold _calculate_article_coverage_llm_article_level.
  destruct (_ =? _)%string; [eexists; reflexivity |].
  destruct (match llm with Some f => _ | None => None end); cbn [bind];
    eexists; reflexivity.
Qed.

End HybridNeverRaises.

(** X8: outside the strict judge-only mode the scorer never raises: whatever
    the article, the document, the judge (present or not, answering or not)
    and the retrieval scores, it returns a coverage record. *)
Theorem X8_hybrid_mode_never_raises :
  forall (a : Article) (pages : list Page) (corpus : list Article)
         (llm : option Judge) (bm25 e5 : Q),
  exists info,
    ScoringUtils.calculate_article_coverage false a pages corpus llm bm25 e5 = Ok info.
Proof.
  intros a pages corpus llm bm25 e5.
  unfold ScoringUtils.calculate_article_coverage.
  destruct llm as [f |]; destruct (is_main_article a).
  - apply article_level_hybrid.
  - apply clause_level_hybrid.
  - destruct (clauses a); [eexists; reflexivity | apply clause_level_hybrid].
  - apply clause_level_hybrid.
Qed.

(** X9: for a main article scored with a judge function in strict mode, the
    scorer raises a RuntimeError exactly when the article has requirement text
    and the judge returns null for it; an article without requirement text
    gets the empty Missing record at 0.0 in either mode, whatever the judge
    would answer. *)
Theorem X9_strict_mode_main_article :
  forall (a : Article) (pages : list Page) (corpus : list Article)
         (f : Judge) (bm25 e5 : Q),
    is_main_article a = true ->
    ((exists msg,
        ScoringUtils.calculate_article_coverage true a pages corpus (Some f) bm25 e5
        = Raise (RuntimeError msg))
     <-> article_requirement a (clauses a) <> ""
         /\ f (article_requirement a (clauses a)) (document_text pages)
              (article_number a) "Article-level" = None)
    /\ (article_requirement a (clauses a) = "" ->
        forall mode,
          ScoringUtils.calculate_article_coverage mode a pages corpus (Some f) bm25 e5
          = Ok (Banded (empty_article_record a))).
Proof.
  intros a pages corpus f bm25 e5 Hmain.
  unfold ScoringUtils.calculate_article_coverage. rewrite Hmain.
  unfold ScoringUtils._calculate_article_coverage_llm_article_level.
  fold (document_text pages). fold (article_requirement a (clauses a)).
  split.
  - destruct (article_requirement a (clauses a) =? "")%string eqn:Er.
    + apply String.eqb_eq in Er. split.
      * intros (msg & H). discriminate.
      * intros (H & _). congruence.
    + apply String.eqb_neq in Er.
      destruct (f _ _ _ _) as [r |]; cbn [bind].
      * split; [intros (msg & H); discriminate | intros (_ & H); discriminate].
      * split; [intros _; now split | intros _; eexists; reflexivity].
  - intros Hempty mode. rewrite Hempty. reflexivity.
Qed.

Lemma X9_strict_mode_main_article_witness :
  is_main_article Samples.consent_article = true
  /\ exists msg,
       ScoringUtils.calculate_article_coverage true Samples.consent_article
         Samples.policy [] (Some Samples.judge_null) 5 0.8 = Raise (RuntimeError msg).
Proof.
  split; [reflexivity |].
  apply (proj1 (X9_strict_mode_main_article Samples.consent_article Samples.policy []
                  Samples.judge_null 5 0.8 eq_refl)).
  split; [vm_compute; discriminate | reflexivity].
Defined.

Section LoopCounts.

Import ScoringUtils.

Variable mode : bool.
Variable llm : option Judge.
Variables bm25 e5 : Q.

Lemma loop_body_counted (n : Z) (doc doc_n : string) (st st' : LoopState)
    (clause : Clause) :
  loop_counted st ->
  loop_body mode n doc doc_n llm bm25 e5 st clause = Ok st' ->
  loop_counted st'.
Proof.
  unfold loop_counted. intros Hst H. unfold loop_body in H.
  destruct (_ || _); [injection H as <-; exact Hst |].
  destruct (score_clause mode n doc doc_n llm bm25 e5 clause) as [s | e];
    cbn [bind] in H; [| discriminate].
  destruct (Qle_bool 75 _); [| destruct (Qle_bool 40 _)];
    injection H as <-; cbn [ls_covered ls_partially_covered ls_missing
                            clause_coverage_scores];
    rewrite !length_app; simpl; lia.
Qed.

Lemma clause_loop_counted (n : Z) (doc doc_n : string) (cls : list Clause) :
  forall st st',
    loop_counted st ->
    clause_loop mode n doc doc_n llm bm25 e5 cls st = Ok st' ->
    loop_counted st'.
Proof.
  induction cls as [| clause rest IH]; intros st st' Hst H; cbn [clause_loop] in H.
  - now injection H as <-.
  - destruct (loop_body mode n doc doc_n llm bm25 e5 st clause) as [st1 | e] eqn:E1;
      cbn [bind] in H; [| discriminate].
    eapply IH; [| exact H]. eapply loop_body_counted; eauto.
Qed.

Lemma clause_level_counts (a : Article) (cls : list Clause) (doc doc_n : string)
    (info : CoverageInfo) :
  clause_level_coverage mode a cls doc doc_n llm bm25 e5 = Ok info ->
  counts_consistent info.
Proof.
  unfold clause_level_coverage. intros H.
  destruct (clause_loop mode (article_number a) doc doc_n llm bm25 e5 cls loop_start)
    as [st | e] eqn:El; cbn [bind] in H; [| discriminate].
  assert (Hst : loop_counted st).
  { eapply clause_loop_counted; [| exact El]. reflexivity. }
  injection H as <-. unfold counts_consistent. simpl. repeat split; try reflexivity.
  exact Hst.
Qed.

Lemma article_level_counts (a : Article) (doc doc_n : string) (n : Z) (aid : string)
    (cls : list Clause) (info : CoverageInfo) :
  _calculate_article_coverage_llm_article_level mode a doc doc_n n aid cls llm bm25 e5
    = Ok info ->
  counts_consistent info.
Proof.
  unfold _calculate_article_coverage_llm_article_level. intros H.
  destruct (_ =? _)%string.
  { injection H as <-. simpl. repeat split; reflexivity. }
  match type of H with
  | bind ?m _ = _ => destruct m as [s | e]; cbn [bind] in H; [| discriminate]
  end.
  injection H as <-. unfold counts_consistent.
  cbn [covered_clauses partially_covered_clauses missing_clauses total_clauses
       covered_clauses_count partially_covered_clauses_count missing_clauses_count].
  destruct (Qle_bool 75 _); [| destruct (Qle_bool 40 _)];
    repeat split; reflexivity.
Qed.

Lemma single_item_counts (a : Article) :
  counts_consistent (single_item_coverage a bm25 e5).
Proof.
  unfold single_item_coverage, counts_consistent.
  cbn [si_covered_clauses si_missing_clauses si_total_clauses
       si_covered_clauses_count si_missing_clauses_count].
  set (p := round2 _). unfold Qlt_bool.
  destruct (Qle_bool 40 p); simpl; repeat split; reflexivity.
Qed.

End LoopCounts.

(** X10: on every path of the scorer the counts of the returned record agree
    with its lists, and [total_clauses] is the number of clause judgments
    made (covered, partially covered and missing together; skipped clauses
    are not counted). *)
Theorem X10_record_counts_consistent :
  forall (mode : bool) (a : Article) (pages : list Page) (corpus : list Article)
         (llm : option Judge) (bm25 e5 : Q) (info : CoverageInfo),
    ScoringUtils.calculate_article_coverage mode a pages corpus llm bm25 e5 = Ok info ->
    counts_consistent info.
Proof.
  intros mode a pages corpus llm bm25 e5 info H.
  unfold ScoringUtils.calculate_article_coverage in H.
  destruct llm as [f |]; destruct (is_main_article a).
  - eapply article_level_counts; eauto.
  - eapply clause_level_counts; eauto.
  - destruct (clauses a).
    + injection H as <-. apply single_item_counts.
    + eapply clause_level_counts; eauto.
  - eapply clause_level_counts; eauto.
Qed.

Lemma X10_record_counts_consistent_witness :
  exists info,
    ScoringUtils.calculate_article_coverage false Samples.clause_entry_article
      Samples.policy [] None 5 0.8 = Ok info
    /\ counts_consistent info.
Proof.
  eexists. split; [vm_compute; reflexivity |].
  apply (X10_record_counts_consistent false Samples.clause_entry_article Samples.policy
           [] None 5 0.8).
  vm_compute. reflexivity.
Defined.

Section NoJudge.

Import ScoringUtils.

Variables bm25 e5 : Q.

Lemma loop_body_traditional (n : Z) (doc doc_n : string) (st st' : LoopState)
    (clause : Clause) :
  loop_traditional (retrieval_blend bm25 e5) st ->
  loop_body false n doc doc_n None bm25 e5 st clause = Ok st' ->
  loop_traditional (retrieval_blend bm25 e5) st'.
Proof.
  intros [Hj Hs] H. unfold loop_body in H.
  destruct (_ || _); [injection H as <-; now split |].
  unfold score_clause in H.
  cbn [bind scored_traditional _traditional_clause_match] in H.
  unfold clause_entry in H.
  cbn [coverage_score s_coverage s_method s_explanation s_confidence] in H.
  change (0.4 * (if Qlt_bool 0 bm25 then py_min 1.0 (bm25 / 10.0) else 0.0)
          + 0.6 * e5) with (retrieval_blend bm25 e5) in H.
  rewrite !Forall_app in Hj. destruct Hj as (Hc & Hp & Hm).
  assert (Hs' : Forall (fun x => x = retrieval_blend bm25 e5)
                  (clause_coverage_scores st ++ [retrieval_blend bm25 e5])).
  { apply Forall_app. split; [assumption | repeat constructor]. }
  destruct (Qle_bool 75 _); [| destruct (Qle_bool 40 _)];
    injection H as <-; split;
    cbn [ls_covered ls_partially_covered ls_missing clause_coverage_scores];
    try exact Hs';
    rewrite !Forall_app; repeat split; try assumption;
    repeat constructor.
Qed.

Lemma clause_loop_traditional (n : Z) (doc doc_n : string) (cls : list Clause) :
  forall st st',
    loop_traditional (retrieval_blend bm25 e5) st ->
    clause_loop false n doc doc_n None bm25 e5 cls st = Ok st' ->
    loop_traditional (retrieval_blend bm25 e5) st'.
Proof.
  induction cls as [| clause rest IH]; intros st st' Hst H; cbn [clause_loop] in H.
  - now injection H as <-.
  - destruct (loop_body false n doc doc_n None bm25 e5 st clause) as [st1 | e] eqn:E1;
      cbn [bind] in H; [| discriminate].
    eapply IH; [| exact H]. eapply loop_body_traditional; eauto.
Qed.

Lemma sum_constant (t : Q) (xs : list Q) :
  Forall (fun x => x = t) xs ->
  sum xs == t * inject_Z (Z.of_nat (List.length xs)).
Proof.
  induction 1 as [| x xs Hx _ IH].
  - unfold sum. simpl. change (inject_Z 0) with 0. lra.
  - rewrite sum_cons, IH, Hx.
    replace (List.length (t :: xs)) with (S (List.length xs)) by reflexivity.
    rewrite Nat2Z.inj_succ, <- Z.add_1_r, inject_Z_plus.
    change (inject_Z 1) with 1. lra.
Qed.

Lemma clause_level_traditional (a : Article) (cls : list Clause) (doc doc_n : string)
    (info : CoverageInfo) :
  clause_level_coverage false a cls doc doc_n None bm25 e5 = Ok info ->
  exists r, info = Banded r /\ traditional_record (retrieval_blend bm25 e5) r.
Proof.
  intros H.
  pose proof (clause_level_counts _ _ _ _ _ _ _ _ _ H) as Hcount.
  unfold clause_level_coverage in H.
  destruct (clause_loop false (article_number a) doc doc_n None bm25 e5 cls loop_start)
    as [st | e] eqn:El; cbn [bind] in H; [| discriminate].
  assert (Hst : loop_traditional (retrieval_blend bm25 e5) st).
  { eapply clause_loop_traditional; [| exact El]. split; constructor. }
  assert (Hcnt : loop_counted st).
  { eapply clause_loop_counted; [| exact El]. reflexivity. }
  destruct Hst as [Hj Hs].
  injection H as <-. eexists. split; [reflexivity |].
  unfold traditional_record, judgments_of.
  cbn [covered_clauses partially_covered_clauses missing_clauses total_clauses
       covered_clauses_count partially_covered_clauses_count missing_clauses_count
       coverage_percentage].
  unfold loop_counted in Hcnt.
  repeat split; try reflexivity; try exact Hj.
  - rewrite !length_app. lia.
  - intros Hne.
    destruct (clause_coverage_scores st) as [| x xs] eqn:Ex.
    + exfalso. apply Hne. simpl in Hcnt.
      destruct (ls_covered st); [| simpl in Hcnt; lia].
      destruct (ls_partially_covered st); [| simpl in Hcnt; lia].
      destruct (ls_missing st); [reflexivity | simpl in Hcnt; lia].
    + cbn [List.length Nat.ltb Nat.leb].
      apply round2_comp.
      rewrite (sum_constant _ _ Hs).
      assert (Hpos : ~ inject_Z (Z.of_nat (List.length (x :: xs))) == 0).
      { change 0 with (inject_Z 0). rewrite inject_Z_injective. simpl. lia. }
      change (S (List.length xs)) with (List.length (x :: xs)).
      set (q := inject_Z (Z.of_nat (List.length (x :: xs)))) in *.
      set (t := retrieval_blend bm25 e5).
      clearbody q t. field. exact Hpos.
  - intros Hnil.
    apply (f_equal (@List.length ClauseInfo)) in Hnil.
    rewrite !length_app in Hnil. simpl in Hnil.
    destruct (clause_coverage_scores st) as [| x xs]; [reflexivity |].
    simpl in Hcnt. lia.
Qed.

Lemma loop_body_filed (n : Z) (doc doc_n : string) (st st' : LoopState)
    (clause : Clause) (ids : list string) :
  loop_filed (round2 (retrieval_blend bm25 e5 * 100)) ids st ->
  loop_body false n doc doc_n None bm25 e5 st clause = Ok st' ->
  loop_filed (round2 (retrieval_blend bm25 e5 * 100))
    (ids ++ (if skipped_clause n clause then [] else [c_id clause]))%list st'.
Proof.
  intros [Hids Hone] H. unfold loop_body in H.
  change (((TextUtils.normalize_text (c_text clause) =? "")%string
           || (TextUtils.normalize_text (c_text clause) =? "article")%string
           || (TextUtils.normalize_text (c_text clause)
               =? "article " ++ str_of_int n)%string))
    with (skipped_clause n clause) in H.
  destruct (skipped_clause n clause).
  { injection H as <-. rewrite app_nil_r. now split. }
  unfold score_clause in H.
  cbn [bind scored_traditional _traditional_clause_match] in H.
  unfold clause_entry in H.
  cbn [coverage_score s_coverage s_method s_explanation s_confidence] in H.
  change (0.4 * (if Qlt_bool 0 bm25 then py_min 1.0 (bm25 / 10.0) else 0.0)
          + 0.6 * e5) with (retrieval_blend bm25 e5) in H.
  unfold loop_filed.
  destruct (Qle_bool 75 (round2 (retrieval_blend bm25 e5 * 100)));
    [| destruct (Qle_bool 40 (round2 (retrieval_blend bm25 e5 * 100)))];
    injection H as <-; destruct Hone as [E1 E2];
    cbn [ls_covered ls_partially_covered ls_missing];
    rewrite E1, E2 in *; (split; [| now split]);
    cbn [app] in *; rewrite ?app_nil_r in *; rewrite map_app, Hids; reflexivity.
Qed.

Lemma clause_loop_filed (n : Z) (doc doc_n : string) (cls : list Clause) :
  forall st st' ids,
    loop_filed (round2 (retrieval_blend bm25 e5 * 100)) ids st ->
    clause_loop false n doc doc_n None bm25 e5 cls st = Ok st' ->
    loop_filed (round2 (retrieval_blend bm25 e5 * 100))
      (ids ++ map c_id (filter (fun c => negb (skipped_clause n c)) cls))%list st'.
Proof.
  induction cls as [| clause rest IH]; intros st st' ids Hst H; cbn [clause_loop] in H.
  - injection H as <-. cbn [filter map]. now rewrite app_nil_r.
  - destruct (loop_body false n doc doc_n None bm25 e5 st clause) as [st1 | e] eqn:E1;
      cbn [bind] in H; [| discriminate].
    pose proof (IH _ _ _ (loop_body_filed _ _ _ _ _ _ _ Hst E1) H) as Hfin.
    cbn [filter]. destruct (skipped_clause n clause); cbn [negb map].
    + now rewrite app_nil_r in Hfin.
    + now rewrite <- app_assoc in Hfin.
Qed.

Lemma clause_level_filed (a : Article) (cls : list Clause) (doc doc_n : string)
    (r : CoverageRecord) :
  clause_level_coverage false a cls doc doc_n None bm25 e5 = Ok (Banded r) ->
  map ci_id (judgments_of (Banded r))
  = map c_id (filter (fun c => negb (skipped_clause (article_number a) c)) cls).
Proof.
  assert (Hst : loop_filed (round2 (retrieval_blend bm25 e5 * 100)) [] loop_start).
  { split; [reflexivity |].
    destruct (Qle_bool 75 _); [| destruct (Qle_bool 40 _)]; split; reflexivity. }
  unfold clause_level_coverage. intros H.
  destruct (clause_loop false (article_number a) doc doc_n None bm25 e5 cls loop_start)
    as [st | e] eqn:El; cbn [bind] in H; [| discriminate].
  destruct (clause_loop_filed _ _ _ _ _ _ _ Hst El) as [Hids _].
  injection H as <-. exact Hids.
Qed.

Lemma fallback_outcome_of (t : Q) (items : list string) (rec : CoverageRecord) :
  traditional_record t rec ->
  map ci_id (judgments_of (Banded rec)) = items ->
  fallback_outcome t items rec.
Proof.
  intros (C1 & C2 & C3 & C4 & Hj & Hp & Hz) Hids.
  assert (Hlen : List.length (judgments_of (Banded rec)) = List.length items).
  { now rewrite <- Hids, length_map. }
  unfold fallback_outcome. repeat split; try assumption.
  - intros Hne. apply Hp. intros E. rewrite E in Hids. now subst items.
  - intros E. apply Hz. rewrite E in Hlen. now apply length_zero_iff_nil.
  - congruence.
Qed.

End NoJudge.

(** X11: scored in hybrid mode without a judge function, a main article
    without clauses gets the single-item record: the article itself as the
    one item, at round(100 x blend, 2), where blend is the retrieval
    confidence.  Every other entry gets a record with exactly one judgment
    for each clause the loop does not pass over, in the order of the clauses
    (the entry is its own clause when it is not a main article); every
    judgment carries the traditional method and the score
    round(100 x blend, 2), and the article percentage is that same value as
    soon as one clause is scored, and 0 when every clause is passed over. *)
Theorem X11_no_judge_traditional_scores :
  forall (a : Article) (pages : list Page) (corpus : list Article) (bm25 e5 : Q),
    (is_main_article a = true /\ clauses a = [] ->
     exists r,
       ScoringUtils.calculate_article_coverage false a pages corpus None bm25 e5
       = Ok (SingleItem r)
       /\ si_coverage_percentage r = round2 (retrieval_blend bm25 e5 * 100)
       /\ si_total_clauses r = 1%nat
       /\ (si_covered_clauses r ++ si_missing_clauses r)%list = [a])
    /\ (~ (is_main_article a = true /\ clauses a = []) ->
        exists r,
          ScoringUtils.calculate_article_coverage false a pages corpus None bm25 e5
          = Ok (Banded r)
          /\ fallback_outcome (retrieval_blend bm25 e5) (scored_items false a) r).
Proof.
  intros a pages corpus bm25 e5.
  unfold ScoringUtils.calculate_article_coverage, scored_items. cbn [andb].
  assert (Hcl : forall cls,
            exists r,
              ScoringUtils.clause_level_coverage false a cls
                (String.concat " " (map page_text pages))
                (TextUtils.normalize_text (String.concat " " (map page_text pages)))
                None bm25 e5 = Ok (Banded r)
              /\ fallback_outcome (retrieval_blend bm25 e5)
                   (map c_id
                      (filter (fun c => negb (skipped_clause (article_number a) c))
                         cls)) r).
  { intros cls.
    destruct (clause_level_hybrid None bm25 e5 a cls
                (String.concat " " (map page_text pages))
                (TextUtils.normalize_text (String.concat " " (map page_text pages))))
      as [info Hinfo].
    destruct (clause_level_traditional _ _ _ _ _ _ _ Hinfo) as (r & -> & Hr).
    exists r. split; [exact Hinfo |].
    apply fallback_outcome_of; [exact Hr |].
    eapply clause_level_filed. exact Hinfo. }
  destruct (is_main_article a).
  - destruct (clauses a) as [| c cs].
    + split; [intros _ | intros H; exfalso; apply H; now split].
      eexists. split; [reflexivity |].
      cbn [ScoringUtils.single_item_coverage si_coverage_percentage si_total_clauses
           si_covered_clauses si_missing_clauses].
      split; [reflexivity |]. split; [reflexivity |].
      destruct (Qlt_bool _ 40); reflexivity.
    + split; [intros [_ H]; discriminate | intros _; apply Hcl].
  - split; [intros [H _]; discriminate | intros _; apply Hcl].
Qed.

Section Previews.

Import ScoringUtils.

Lemma substring_length (s : string) :
  forall n m, (String.length (substring n m s) <= m)%nat.
Proof.
  induction s as [| c s IH]; intros n m.
  - destruct n, m; simpl; lia.
  - destruct n as [| n]; [destruct m as [| m] |]; simpl.
    + lia.
    + specialize (IH 0%nat m). lia.
    + apply IH.
Qed.

Lemma append_length (a b : string) :
  String.length (a ++ b) = (String.length a + String.length b)%nat.
Proof. induction a as [| c a IH]; simpl; [reflexivity | now rewrite IH]. Qed.

Lemma preview_length (t : string) :
  (String.length (preview t) <= 203)%nat
  /\ ((String.length t <= 200)%nat -> preview t = t).
Proof.
  unfold preview. destruct (200 <? String.length t)%nat eqn:E.
  - apply Nat.ltb_lt in E. split; [| lia].
    rewrite append_length. pose proof (substring_length t 0 200). simpl. lia.
  - apply Nat.ltb_ge in E. split; [lia | reflexivity].
Qed.

Variable mode : bool.
Variable llm : option Judge.
Variables bm25 e5 : Q.

(** A property of every clause entry holds of every judgment the clause loop
    files. *)
Lemma clause_loop_entries (P : ClauseInfo -> Prop) (n : Z) (doc doc_n : string) :
  (forall clause s, P (clause_entry mode n clause s)) ->
  forall cls st st',
    Forall P (ls_covered st ++ ls_partially_covered st ++ ls_missing st) ->
    clause_loop mode n doc doc_n llm bm25 e5 cls st = Ok st' ->
    Forall P (ls_covered st' ++ ls_partially_covered st' ++ ls_missing st').
Proof.
  intros HP.
  induction cls as [| clause rest IH]; intros st st' Hst H; cbn [clause_loop] in H.
  - now injection H as <-.
  - destruct (loop_body mode n doc doc_n llm bm25 e5 st clause) as [st1 | e] eqn:E1;
      cbn [bind] in H; [| discriminate].
    eapply IH; [| exact H].
    unfold loop_body in E1.
    destruct (_ || _); [injection E1 as <-; exact Hst |].
    destruct (score_clause mode n doc doc_n llm bm25 e5 clause) as [s | e];
      cbn [bind] in E1; [| discriminate].
    rewrite !Forall_app in Hst. destruct Hst as (Hc & Hp & Hm).
    destruct (Qle_bool 75 _); [| destruct (Qle_bool 40 _)];
      injection E1 as <-;
      cbn [ls_covered ls_partially_covered ls_missing];
      rewrite !Forall_app; repeat split; try assumption;
      constructor; try apply HP; constructor.
Qed.

End Previews.

(** X12: the text stored with a clause judgment is a preview of at most 203
    characters (200 of the clause or article text and three dots), on every
    path of the scorer. *)
Theorem X12_judgment_text_is_bounded :
  forall (mode : bool) (a : Article) (pages : list Page) (corpus : list Article)
         (llm : option Judge) (bm25 e5 : Q) (info : CoverageInfo),
    ScoringUtils.calculate_article_coverage mode a pages corpus llm bm25 e5 = Ok info ->
    Forall (fun j => (String.length (ci_text j) <= 203)%nat) (judgments_of info).
Proof.
  intros mode a pages corpus llm bm25 e5 info H.
  assert (Hloop : forall cls doc doc_n,
            ScoringUtils.clause_level_coverage mode a cls doc doc_n llm bm25 e5 = Ok info ->
            Forall (fun j => (String.length (ci_text j) <= 203)%nat) (judgments_of info)).
  { intros cls doc doc_n Hc. unfold ScoringUtils.clause_level_coverage in Hc.
    destruct (ScoringUtils.clause_loop _ _ _ _ _ _ _ _ _) as [st | e] eqn:El;
      cbn [bind] in Hc; [| discriminate].
    injection Hc as <-. unfold judgments_of.
    cbn [covered_clauses partially_covered_clauses missing_clauses].
    eapply clause_loop_entries; [| | exact El].
    - intros clause s. unfold ScoringUtils.clause_entry. cbn [ci_text].
      apply preview_length.
    - constructor. }
  unfold ScoringUtils.calculate_article_coverage in H.
  assert (Hart : forall doc doc_n n aid cls,
            ScoringUtils._calculate_article_coverage_llm_article_level mode a doc doc_n
              n aid cls llm bm25 e5 = Ok info ->
            Forall (fun j => (String.length (ci_text j) <= 203)%nat) (judgments_of info)).
  { intros doc doc_n n aid cls Ha.
    unfold ScoringUtils._calculate_article_coverage_llm_article_level in Ha.
    destruct (_ =? _)%string; [injection Ha as <-; constructor |].
    match type of Ha with
    | bind ?m _ = _ => destruct m as [s | e]; cbn [bind] in Ha; [| discriminate]
    end.
    injection Ha as <-. unfold judgments_of.
    cbn [covered_clauses partially_covered_clauses missing_clauses].
    destruct (Qle_bool 75 _); [| destruct (Qle_bool 40 _)]; cbn [app];
      (constructor; [cbn [ci_text]; apply preview_length | constructor]). }
  destruct llm as [f |]; destruct (is_main_article a).
  - eapply Hart; eauto.
  - eapply Hloop; eauto.
  - destruct (clauses a); [injection H as <-; constructor | eapply Hloop; eauto].
  - eapply Hloop; eauto.
Qed.

Lemma X12_judgment_text_is_bounded_witness :
  exists info,
    ScoringUtils.calculate_article_coverage false Samples.consent_article
      Samples.policy [] (Some (Samples.judge_const 0.9)) 5 0.8 = Ok info
    /\ Forall (fun j => (String.length (ci_text j) <= 203)%nat) (judgments_of info).
Proof.
  eexists. split; [vm_compute; reflexivity |].
  apply (X12_judgment_text_is_bounded false Samples.consent_article Samples.policy []
           (Some (Samples.judge_const 0.9)) 5 0.8).
  vm_compute. reflexivity.
Defined.

(** X13: the judge adapter never raises and never leaves the unit interval:
    it returns null when clause matching or the model is disabled, when no
    client exists and when the request or its parsing fails, and otherwise a
    score that is a whole percentage between 0 and 100 divided by 100. *)
Theorem X13_judge_adapter_contract :
  forall (llm_clause_matching llm_enabled openai_client : bool)
         (ask : string -> string -> Z -> string -> result LlmService.ParsedReply)
         (clause_text pdf_text : string) (article_number : Z) (clause_label : string),
    let answer :=
      LlmService.llm_clause_match llm_clause_matching llm_enabled openai_client ask
        clause_text pdf_text article_number clause_label in
    (llm_clause_matching && llm_enabled && openai_client = false -> answer = None)
    /\ (forall e, ask clause_text pdf_text article_number clause_label = Raise e ->
                  answer = None)
    /\ (forall r, answer = Some r ->
          0 <= score r <= 1
          /\ exists k, (0 <= k <= 100)%Z /\ score r == inject_Z k / 100).
Proof.
  intros lcm en cl ask ct pdf n l answer.
  split; [| split].
  - unfold answer, LlmService.llm_clause_match.
    destruct lcm, en, cl; simpl; intros H; try discriminate; reflexivity.
  - intros e He. unfold answer, LlmService.llm_clause_match. rewrite He.
    destruct (_ || _); [reflexivity |]. destruct (negb cl); reflexivity.
  - intros r Hr. split.
    + eapply (llm_clause_match_contract lcm en cl ask); [reflexivity | exact Hr].
    + unfold answer, LlmService.llm_clause_match in Hr.
      destruct (_ || _); [discriminate |].
      destruct (negb cl); [discriminate |].
      destruct (ask ct pdf n l) as [p |]; [| discriminate].
      injection Hr as <-. unfold LlmService.judge_result. cbn [score].
      eexists. split; [| apply Qdiv_comp; reflexivity].
      destruct (LlmService.score_match p); lia.
Qed.

(** ** More on the aggregator *)

Section AggregatorMore.

Import ScoringUtils.

Lemma collect_bands_fold (matches : list MatchRecord) :
  collect_bands matches = fold_left band_step matches [].
Proof. reflexivity. Qed.

Lemma loops_same_keys (matches : list MatchRecord) :
  forall (d : dict Q) (b : dict Band),
    keys d = keys b ->
    keys (fold_left score_step matches d) = keys (fold_left band_step matches b).
Proof.
  induction matches as [| m ms IH]; intros d b H; simpl; [exact H |].
  apply IH. unfold score_step, band_step.
  destruct (skipped (record_number m)); [exact H |].
  rewrite !keys_set_if_absent, H. reflexivity.
Qed.

Lemma collect_same_keys (matches : list MatchRecord) :
  keys (collect_scores matches) = keys (collect_bands matches).
Proof.
  rewrite collect_scores_fold, collect_bands_fold. now apply loops_same_keys.
Qed.

(** The keys of [article_scores]: the include-listed numbers of the records. *)
Lemma collect_scores_keys (matches : list MatchRecord) (n : Z) :
  In n (keys (collect_scores matches))
  <-> skipped n = false /\ retrieved_article matches n.
Proof.
  rewrite collect_scores_fold. split.
  - intros H. apply score_loop_keys in H.
    destruct H as [[] | (m & Hm & E & Hs)].
    split; [exact Hs | exists m; auto].
  - intros (Hs & m & Hm & E).
    destruct (lookup n (fold_left score_step matches [])) eqn:El.
    + destruct (in_dec Z.eq_dec n (keys (fold_left score_step matches []))) as [Hin | Hout];
        [exact Hin |].
      apply lookup_None in Hout. congruence.
    + rewrite score_loop_lookup in El. unfold lookup at 1 in El. simpl in El.
      rewrite Hs in El.
      destruct (find (fun m0 => (record_number m0 =? n)%Z) matches) eqn:Ef;
        [discriminate |].
      apply (find_none _ _ Ef) in Hm. cbv beta in Hm.
      apply Z.eqb_neq in Hm. congruence.
Qed.

Lemma set_if_absent_present {V : Type} (d : dict V) (k : Z) (v : V) :
  In k (keys d) -> set_if_absent d k v = d.
Proof.
  intros H. unfold set_if_absent. apply mem_In in H. now rewrite H.
Qed.

Lemma insert_sorted_In (x y : Z) (l : list Z) :
  In y (insert_sorted x l) <-> y = x \/ In y l.
Proof.
  induction l as [| z l IH]; simpl; [intuition congruence |].
  destruct (x <=? z)%Z; simpl; [intuition congruence |].
  rewrite IH. intuition congruence.
Qed.

Lemma sorted_In (y : Z) (l : list Z) : In y (sorted l) <-> In y l.
Proof.
  unfold sorted. induction l as [| x l IH]; simpl; [tauto |].
  rewrite insert_sorted_In, IH. intuition congruence.
Qed.

Lemma insert_sorted_length (x : Z) (l : list Z) :
  List.length (insert_sorted x l) = S (List.length l).
Proof.
  induction l as [| z l IH]; simpl; [reflexivity |].
  destruct (x <=? z)%Z; simpl; [reflexivity | now rewrite IH].
Qed.

Lemma sorted_length (l : list Z) : List.length (sorted l) = List.length l.
Proof.
  unfold sorted. induction l as [| x l IH]; simpl; [reflexivity |].
  now rewrite insert_sorted_length, IH.
Qed.

Lemma insert_sorted_increasing (x : Z) (l : list Z) :
  ~ In x l -> Sorted Z.lt l -> Sorted Z.lt (insert_sorted x l).
Proof.
  induction l as [| y l IH]; intros Hx Hs; simpl.
  - repeat constructor.
  - destruct (Z.leb_spec x y) as [Hle | Hgt].
    + constructor; [exact Hs |]. constructor.
      assert (x <> y) by (intros ->; apply Hx; now left). lia.
    + inversion Hs as [| ? ? Hs' Hh]; subst.
      constructor.
      * apply IH; [| exact Hs']. intros H. apply Hx. now right.
      * destruct l as [| z l]; simpl; [constructor; exact Hgt |].
        destruct (x <=? z)%Z; constructor; [exact Hgt |].
        inversion Hh; subst. assumption.
Qed.

Lemma sorted_increasing (l : list Z) : NoDup l -> Sorted Z.lt (sorted l).
Proof.
  unfold sorted. induction 1 as [| x l Hx Hnd IH]; simpl; [constructor |].
  apply insert_sorted_increasing; [| exact IH].
  intros H. apply Hx. apply (proj1 (sorted_In x l)). exact H.
Qed.

Lemma increasing_NoDup (l : list Z) : Sorted Z.lt l -> NoDup l.
Proof.
  intros H. apply Sorted_StronglySorted in H; [| intros a b c; lia].
  induction H as [| x l Hs IH Hall]; constructor; [| exact IH].
  intros Hin. rewrite Forall_forall in Hall. specialize (Hall _ Hin). lia.
Qed.

End AggregatorMore.

(** X14: the aggregator raises exactly when it is given records but the
    scope is empty (no article of the caller's list is on the include list),
    and what it raises then is the division error of the average. *)
Theorem X14_aggregator_raises_on_empty_scope :
  forall (matches : list ScoringUtils.MatchRecord) (total_articles : nat)
         (all_article_numbers : option (list Z)),
    (ScoringUtils.calculate_overall_score matches total_articles all_article_numbers
     = Raise ZeroDivisionError
     <-> matches <> [] /\ ScoringUtils.scope_of all_article_numbers = [])
    /\ (forall e,
          ScoringUtils.calculate_overall_score matches total_articles all_article_numbers
          = Raise e -> e = ZeroDivisionError).
Proof.
  intros matches total_articles all_article_numbers.
  unfold ScoringUtils.calculate_overall_score.
  destruct matches as [| m ms].
  - split; [split |]; [discriminate | intros [H _]; congruence | discriminate].
  - destruct (List.length (ScoringUtils.scope_of all_article_numbers) =? 0)%nat eqn:El.
    + apply Nat.eqb_eq, length_zero_iff_nil in El.
      split; [split |].
      * intros _. split; [discriminate | exact El].
      * reflexivity.
      * intros e H. congruence.
    + apply Nat.eqb_neq in El.
      split; [split |]; [discriminate | | discriminate].
      intros [_ H]. rewrite H in El. simpl in El. congruence.
Qed.

(** X15: when at least one record is given, a further record changes nothing
    in the report if its article already has a record (the first record
    wins) or is not on the include list. *)
Theorem X15_aggregator_ignores_duplicates :
  forall (matches : list ScoringUtils.MatchRecord) (m : ScoringUtils.MatchRecord)
         (total_articles : nat) (all_article_numbers : option (list Z)),
    matches <> [] ->
    retrieved_article matches (record_number m)
    \/ ~ In (record_number m) ScoringUtils.INCLUDED_ARTICLES_FOR_OVERALL ->
    ScoringUtils.calculate_overall_score (matches ++ [m]) total_articles
      all_article_numbers
    = ScoringUtils.calculate_overall_score matches total_articles all_article_numbers.
Proof.
  intros matches m total_articles all_article_numbers Hne Hm.
  assert (Hs : ScoringUtils.collect_scores (matches ++ [m])
               = ScoringUtils.collect_scores matches).
  { rewrite !collect_scores_fold, fold_left_app. simpl. unfold score_step at 1.
    destruct (ScoringUtils.skipped (record_number m)) eqn:Esk; [reflexivity |].
    apply set_if_absent_present. rewrite <- collect_scores_fold.
    apply collect_scores_keys. split; [exact Esk |].
    destruct Hm as [Hm | Hm]; [exact Hm |].
    exfalso. apply Hm. now apply skipped_false_included. }
  assert (Hb : ScoringUtils.collect_bands (matches ++ [m])
               = ScoringUtils.collect_bands matches).
  { rewrite !collect_bands_fold, fold_left_app. simpl. unfold band_step at 1.
    destruct (ScoringUtils.skipped (record_number m)) eqn:Esk; [reflexivity |].
    apply set_if_absent_present.
    rewrite <- collect_bands_fold, <- collect_same_keys.
    apply collect_scores_keys. split; [exact Esk |].
    destruct Hm as [Hm | Hm]; [exact Hm |].
    exfalso. apply Hm. now apply skipped_false_included. }
  unfold ScoringUtils.calculate_overall_score.
  rewrite Hs, Hb.
  destruct matches as [| m0 ms]; [congruence |]. reflexivity.
Qed.

Lemma X15_aggregator_ignores_duplicates_witness :
  ScoringUtils.calculate_overall_score
    (AggregatorSamples.only_article_4 ++ [AggregatorSamples.record 4 10 Missing]) 3%nat
    (Some AggregatorSamples.scope_4_5_10)
  = ScoringUtils.calculate_overall_score AggregatorSamples.only_article_4 3%nat
      (Some AggregatorSamples.scope_4_5_10).
Proof.
  apply (X15_aggregator_ignores_duplicates AggregatorSamples.only_article_4
           (AggregatorSamples.record 4 10 Missing) 3%nat
           (Some AggregatorSamples.scope_4_5_10)).
  - discriminate.
  - left. exists (AggregatorSamples.record 4 90 Full). split; [now left | reflexivity].
Defined.

(** X16: the report lists as missing exactly the articles of the scope for
    which no record was given, each once and in ascending order when the
    scope has no duplicates. *)
Theorem X16_missing_articles :
  forall (matches : list ScoringUtils.MatchRecord) (total_articles : nat)
         (all_article_numbers : option (list Z)) (r : ScoringUtils.OverallReport),
    ScoringUtils.calculate_overall_score matches total_articles all_article_numbers
    = Ok r ->
    (forall n, In n (ScoringUtils.missing_articles r)
               <-> In n (ScoringUtils.scope_of all_article_numbers)
                   /\ ~ retrieved_article matches n)
    /\ ScoringUtils.missing_count r = List.length (ScoringUtils.missing_articles r)
    /\ (matches <> [] -> NoDup (ScoringUtils.scope_of all_article_numbers) ->
        Sorted Z.lt (ScoringUtils.missing_articles r)).
Proof.
  intros matches total_articles all_article_numbers r H.
  unfold ScoringUtils.calculate_overall_score in H.
  destruct matches as [| m ms].
  - injection H as <-. cbn [ScoringUtils.missing_articles ScoringUtils.missing_count].
    split; [| split; [reflexivity | congruence]].
    intros n. split; [| tauto].
    intros Hn. split; [exact Hn |]. intros (m & [] & _).
  - destruct (List.length (ScoringUtils.scope_of all_article_numbers) =? 0)%nat;
      [discriminate |].
    injection H as <-. cbn [ScoringUtils.missing_articles ScoringUtils.missing_count].
    split; [| split; [reflexivity |]].
    + intros n. rewrite sorted_In, filter_In, negb_true_iff. split.
      * intros (Hn & Hmem). split; [exact Hn |].
        intros Hr.
        assert (Hk : In n (ScoringUtils.keys (ScoringUtils.collect_scores (m :: ms)))).
        { apply collect_scores_keys. split; [| exact Hr].
          now destruct (scope_not_skipped _ _ Hn). }
        apply mem_In in Hk. congruence.
      * intros (Hn & Hr). split; [exact Hn |].
        destruct (ScoringUtils.mem n _) eqn:Hmem; [| reflexivity].
        apply mem_In, collect_scores_keys in Hmem. tauto.
    + intros _ Hnd. apply sorted_increasing. now apply NoDup_filter.
Qed.

Lemma X16_missing_articles_witness :
  exists r,
    ScoringUtils.calculate_overall_score AggregatorSamples.only_article_4 3%nat
      (Some AggregatorSamples.scope_4_5_10) = Ok r
    /\ (forall n, In n (ScoringUtils.missing_articles r)
                  <-> In n (ScoringUtils.scope_of (Some AggregatorSamples.scope_4_5_10))
                      /\ ~ retrieved_article AggregatorSamples.only_article_4 n).
Proof.
  eexists. split; [vm_compute; reflexivity |].
  apply (X16_missing_articles AggregatorSamples.only_article_4 3%nat
           (Some AggregatorSamples.scope_4_5_10)).
  vm_compute. reflexivity.
Defined.

Section BandCounts.

Import ScoringUtils.

Lemma with_band_length (b : Band) (d : dict Band) :
  List.length (with_band b d)
  = List.length (filter (fun kv => band_eqb (snd kv) b) d).
Proof. unfold with_band. now rewrite sorted_length, length_map. Qed.

Lemma bands_partition (d : dict Band) :
  (List.length (filter (fun kv => band_eqb (snd kv) Full) d)
   + List.length (filter (fun kv => band_eqb (snd kv) Partial) d)
   + List.length (filter (fun kv => band_eqb (snd kv) Missing) d))%nat
  = List.length d.
Proof.
  induction d as [| [k []] d IH]; simpl; lia.
Qed.

Lemma filter_split_length {A : Type} (f : A -> bool) (l : list A) :
  (List.length (filter f l) + List.length (filter (fun x => negb (f x)) l))%nat
  = List.length l.
Proof.
  induction l as [| x l IH]; simpl; [reflexivity |].
  destruct (f x); simpl; lia.
Qed.

(** In a duplicate-free scope, the members that are keys are as many as the
    keys, when the keys are distinct numbers of the scope. *)
Lemma keys_in_scope_length (ks scope : list Z) :
  NoDup ks -> NoDup scope -> incl ks scope ->
  List.length (filter (fun n => mem n ks) scope) = List.length ks.
Proof.
  intros Hk Hs Hincl.
  apply Permutation_length, NoDup_Permutation.
  - now apply NoDup_filter.
  - exact Hk.
  - intros x. rewrite filter_In, mem_In. split; [tauto |].
    intros Hx. split; [now apply Hincl | exact Hx].
Qed.

End BandCounts.

(** X17: in every report the articles counted as covered, partially covered
    and of low coverage are together the articles analysed: each analysed
    article falls in exactly one band. *)
Theorem X17_band_counts_partition :
  forall (matches : list ScoringUtils.MatchRecord) (total_articles : nat)
         (all_article_numbers : option (list Z)) (r : ScoringUtils.OverallReport),
    ScoringUtils.calculate_overall_score matches total_articles all_article_numbers
    = Ok r ->
    (ScoringUtils.covered_count r + ScoringUtils.partially_covered_count r
     + ScoringUtils.low_coverage_count r)%nat
    = ScoringUtils.articles_analyzed r.
Proof.
  intros matches total_articles all_article_numbers r H.
  unfold ScoringUtils.calculate_overall_score in H.
  destruct matches as [| m ms]; [injection H as <-; reflexivity |].
  destruct (List.length (ScoringUtils.scope_of all_article_numbers) =? 0)%nat;
    [discriminate |].
  injection H as <-.
  cbn [ScoringUtils.covered_count ScoringUtils.partially_covered_count
       ScoringUtils.low_coverage_count ScoringUtils.articles_analyzed].
  rewrite !with_band_length, bands_partition.
  rewrite <- (length_map fst (ScoringUtils.collect_bands (m :: ms))).
  rewrite <- (length_map fst (ScoringUtils.collect_scores (m :: ms))).
  fold (ScoringUtils.keys (ScoringUtils.collect_bands (m :: ms))).
  fold (ScoringUtils.keys (ScoringUtils.collect_scores (m :: ms))).
  now rewrite collect_same_keys.
Qed.

Lemma X17_band_counts_partition_witness :
  exists r,
    ScoringUtils.calculate_overall_score
      [AggregatorSamples.record 4 90 Full; AggregatorSamples.record 5 50 Partial;
       AggregatorSamples.record 4 10 Missing] 3%nat
      (Some AggregatorSamples.scope_4_5_10) = Ok r
    /\ (ScoringUtils.covered_count r + ScoringUtils.partially_covered_count r
        + ScoringUtils.low_coverage_count r)%nat
       = ScoringUtils.articles_analyzed r
    /\ ScoringUtils.articles_analyzed r = 2%nat.
Proof.
  eexists. split; [vm_compute; reflexivity |].
  split; [| reflexivity].
  apply (X17_band_counts_partition
           [AggregatorSamples.record 4 90 Full; AggregatorSamples.record 5 50 Partial;
            AggregatorSamples.record 4 10 Missing] 3%nat
           (Some AggregatorSamples.scope_4_5_10)).
  vm_compute. reflexivity.
Defined.

(** X18: when the scope has no duplicates and every include-listed record
    belongs to it, the articles analysed and the articles missing are
    together the articles of the scope. *)
Theorem X18_analysed_and_missing_cover_scope :
  forall (matches : list ScoringUtils.MatchRecord) (total_articles : nat)
         (all_article_numbers : option (list Z)) (r : ScoringUtils.OverallReport),
    NoDup (ScoringUtils.scope_of all_article_numbers) ->
    (forall m, In m matches ->
       In (record_number m) ScoringUtils.INCLUDED_ARTICLES_FOR_OVERALL ->
       In (record_number m) (ScoringUtils.scope_of all_article_numbers)) ->
    ScoringUtils.calculate_overall_score matches total_articles all_article_numbers
    = Ok r ->
    (ScoringUtils.articles_analyzed r + ScoringUtils.missing_count r)%nat
    = ScoringUtils.total_articles r
    /\ ScoringUtils.total_articles r
       = List.length (ScoringUtils.scope_of all_article_numbers).
Proof.
  intros matches total_articles all_article_numbers r Hnd Hrec H.
  unfold ScoringUtils.calculate_overall_score in H.
  destruct matches as [| m ms]; [injection H as <-; split; reflexivity |].
  destruct (List.length (ScoringUtils.scope_of all_article_numbers) =? 0)%nat;
    [discriminate |].
  injection H as <-.
  cbn [ScoringUtils.articles_analyzed ScoringUtils.missing_count
       ScoringUtils.total_articles].
  split; [| reflexivity].
  rewrite sorted_length.
  set (d := ScoringUtils.collect_scores (m :: ms)).
  set (scope := ScoringUtils.scope_of all_article_numbers) in *.
  rewrite <- (filter_split_length (fun n => ScoringUtils.mem n (ScoringUtils.keys d)) scope).
  f_equal.
  rewrite keys_in_scope_length.
  - unfold ScoringUtils.keys. now rewrite length_map.
  - unfold d. rewrite collect_scores_fold. apply score_loop_NoDup. constructor.
  - exact Hnd.
  - intros k Hk. apply collect_scores_keys in Hk.
    destruct Hk as (Hs & m' & Hm' & <-).
    apply Hrec; [exact Hm' | now apply skipped_false_included].
Qed.

Lemma X18_analysed_and_missing_cover_scope_witness :
  exists r,
    ScoringUtils.calculate_overall_score AggregatorSamples.only_article_4 3%nat
      (Some AggregatorSamples.scope_4_5_10) = Ok r
    /\ (ScoringUtils.articles_analyzed r + ScoringUtils.missing_count r)%nat
       = ScoringUtils.total_articles r.
Proof.
  eexists. split; [vm_compute; reflexivity |].
  apply (X18_analysed_and_missing_cover_scope AggregatorSamples.only_article_4 3%nat
           (Some AggregatorSamples.scope_4_5_10)).
  - vm_compute. repeat constructor; simpl; intuition discriminate.
  - intros m [<- | []] _. vm_compute. now left.
  - vm_compute. reflexivity.
Defined.

Section OverallRange.

Import ScoringUtils.

Lemma score_loop_values (P : Q -> Prop) (matches : list MatchRecord) :
  (forall m, In m matches -> P (record_percentage m)) ->
  forall d : dict Q,
    Forall P (values d) -> Forall P (values (fold_left score_step matches d)).
Proof.
  induction matches as [| m ms IH]; intros HP d Hd; simpl; [exact Hd |].
  apply IH; [intros x Hx; apply HP; now right |].
  unfold score_step. destruct (skipped (record_number m)); [exact Hd |].
  unfold set_if_absent. destruct (mem _ _); [exact Hd |].
  unfold values in *. rewrite map_app. apply Forall_app. split; [exact Hd |].
  constructor; [apply HP; now left | constructor].
Qed.

Lemma sum_percent (xs : list Q) :
  Forall percent xs ->
  0 <= sum xs <= 100 * inject_Z (Z.of_nat (List.length xs)).
Proof.
  induction 1 as [| x xs Hx _ IH].
  - unfold sum. simpl. change (inject_Z 0) with 0. lra.
  - rewrite sum_cons.
    replace (List.length (x :: xs)) with (S (List.length xs)) by reflexivity.
    rewrite Nat2Z.inj_succ, <- Z.add_1_r, inject_Z_plus.
    change (inject_Z 1) with 1. unfold percent in Hx. lra.
Qed.

Lemma quotient_percent (s : Q) (k n : nat) :
  0 <= s <= 100 * inject_Z (Z.of_nat k) -> (k <= n)%nat -> (0 < n)%nat ->
  percent (round2 (s / inject_Z (Z.of_nat n))).
Proof.
  intros Hs Hk Hn.
  assert (Hn' : 0 < inject_Z (Z.of_nat n)).
  { change 0 with (inject_Z 0). rewrite <- Zlt_Qlt. lia. }
  assert (Hkn : inject_Z (Z.of_nat k) <= inject_Z (Z.of_nat n)).
  { rewrite <- Zle_Qle. lia. }
  apply round2_percent.
  - apply Qle_shift_div_l; lra.
  - apply Qle_shift_div_r; lra.
Qed.

End OverallRange.

(** X19: when every record carries a percentage between 0 and 100, the scope
    has no duplicates and every include-listed record belongs to it, the
    overall score and the average article coverage of the report lie between
    0 and 100. *)
Theorem X19_overall_score_in_range :
  forall (matches : list ScoringUtils.MatchRecord) (total_articles : nat)
         (all_article_numbers : option (list Z)) (r : ScoringUtils.OverallReport),
    (forall m, In m matches -> percent (record_percentage m)) ->
    NoDup (ScoringUtils.scope_of all_article_numbers) ->
    (forall m, In m matches ->
       In (record_number m) ScoringUtils.INCLUDED_ARTICLES_FOR_OVERALL ->
       In (record_number m) (ScoringUtils.scope_of all_article_numbers)) ->
    ScoringUtils.calculate_overall_score matches total_articles all_article_numbers
    = Ok r ->
    percent (ScoringUtils.overall_score r)
    /\ percent (ScoringUtils.average_article_coverage r).
Proof.
  intros matches total_articles all_article_numbers r Hp Hnd Hrec H.
  unfold ScoringUtils.calculate_overall_score in H.
  destruct matches as [| m ms].
  { injection H as <-. split; unfold percent; simpl; lra. }
  destruct (List.length (ScoringUtils.scope_of all_article_numbers) =? 0)%nat eqn:El;
    [discriminate |].
  apply Nat.eqb_neq in El.
  injection H as <-.
  cbn [ScoringUtils.overall_score ScoringUtils.average_article_coverage].
  set (d := ScoringUtils.collect_scores (m :: ms)).
  assert (Hv : Forall percent (ScoringUtils.values d)).
  { unfold d. rewrite collect_scores_fold. apply score_loop_values; [exact Hp |].
    constructor. }
  pose proof (sum_percent _ Hv) as Hsum.
  assert (Hlen : List.length (ScoringUtils.values d) = List.length d).
  { unfold ScoringUtils.values. apply length_map. }
  rewrite Hlen in Hsum.
  assert (Hk : (List.length d <= List.length (ScoringUtils.scope_of all_article_numbers))%nat).
  { rewrite <- (length_map fst d). apply NoDup_incl_length.
    - unfold d. rewrite collect_scores_fold.
      apply (score_loop_NoDup (m :: ms) []). constructor.
    - intros k Hk. apply collect_scores_keys in Hk.
      destruct Hk as (Hs & m' & Hm' & <-).
      apply Hrec; [exact Hm' | now apply skipped_false_included]. }
  split.
  - apply (quotient_percent _ (List.length d)); [exact Hsum | exact Hk | lia].
  - destruct d as [| kv d'] eqn:Ed; [unfold percent; simpl; lra |].
    cbn [ScoringUtils.nonempty].
    apply (quotient_percent _ (List.length (kv :: d'))); [exact Hsum | lia | simpl; lia].
Qed.

Lemma X19_overall_score_in_range_witness :
  exists r,
    ScoringUtils.calculate_overall_score AggregatorSamples.only_article_4 3%nat
      (Some AggregatorSamples.scope_4_5_10) = Ok r
    /\ percent (ScoringUtils.overall_score r)
    /\ percent (ScoringUtils.average_article_coverage r).
Proof.
  eexists. split; [vm_compute; reflexivity |].
  apply (X19_overall_score_in_range AggregatorSamples.only_article_4 3%nat
           (Some AggregatorSamples.scope_4_5_10)).
  - intros m [<- | []]. split; vm_compute; discriminate.
  - vm_compute. repeat constructor; simpl; intuition discriminate.
  - intros m [<- | []] _. vm_compute. now left.
  - vm_compute. reflexivity.
Defined.

Lemma applicable_numbers (pdpl_articles : list Article) :
  Sorted Z.lt (Corpus.get_applicable_article_numbers pdpl_articles)
  /\ NoDup (Corpus.get_applicable_article_numbers pdpl_articles)
  /\ (forall n, In n (Corpus.get_applicable_article_numbers pdpl_articles)
                <-> n <> 0%Z /\ exists a, In a pdpl_articles /\ article_number a = n).
Proof.
  unfold Corpus.get_applicable_article_numbers.
  assert (Hs : Sorted Z.lt
                 (ScoringUtils.sorted
                    (nodup Z.eq_dec
                       (filter (fun n => negb (n =? 0)%Z)
                          (map article_number pdpl_articles))))).
  { apply sorted_increasing, NoDup_nodup. }
  split; [exact Hs |]. split; [now apply increasing_NoDup |].
  intros n. rewrite sorted_In, nodup_In, filter_In, in_map_iff, negb_true_iff, Z.eqb_neq.
  split.
  - intros ((a & E & Ha) & Hn). split; [exact Hn | exists a; auto].
  - intros (Hn & a & Ha & E). split; [exists a; auto | exact Hn].
Qed.

(** X20: the article numbers of the corpus come out in strictly ascending
    order, each once, and they are exactly the non-zero numbers that some
    corpus entry carries. *)
Theorem X20_applicable_article_numbers :
  forall (pdpl_articles : list Article),
    Sorted Z.lt (Corpus.get_applicable_article_numbers pdpl_articles)
    /\ NoDup (Corpus.get_applicable_article_numbers pdpl_articles)
    /\ (forall n, In n (Corpus.get_applicable_article_numbers pdpl_articles)
                  <-> n <> 0%Z /\ exists a, In a pdpl_articles /\ article_number a = n).
Proof.
  intros pdpl_articles. apply applicable_numbers.
Qed.

Section RouteScope.

Import ScoringUtils.

Lemma scope_of_some (l : list Z) :
  scope_of (Some l) = filter (fun num => mem num INCLUDED_ARTICLES_FOR_OVERALL) l.
Proof. reflexivity. Qed.

(** The formula of the overall score, for a scope that is non-empty, free of
    duplicates and holds every include-listed record. *)
Lemma overall_score_formula (matches : list MatchRecord) (total : nat)
    (all_article_numbers : option (list Z)) :
  scope_of all_article_numbers <> [] ->
  NoDup (scope_of all_article_numbers) ->
  (forall m, In m matches ->
     In (record_number m) INCLUDED_ARTICLES_FOR_OVERALL ->
     In (record_number m) (scope_of all_article_numbers)) ->
  exists r,
    calculate_overall_score matches total all_article_numbers = Ok r
    /\ overall_score r
       == round2 (spec_overall_score (scope_of all_article_numbers) matches)
    /\ total_articles r = List.length (scope_of all_article_numbers).
Proof.
  intros Hne Hnd Hrec. unfold calculate_overall_score.
  destruct matches as [| m ms].
  - eexists. split; [reflexivity |]. split; [| reflexivity].
    cbn [overall_score].
    rewrite (round2_comp _ 0); [reflexivity |].
    unfold spec_overall_score, found_scoped_sum, first_percentage.
    simpl find. rewrite sum_zeros. reflexivity.
  - destruct (List.length (scope_of all_article_numbers) =? 0)%nat eqn:El.
    { apply Nat.eqb_eq, length_zero_iff_nil in El. contradiction. }
    eexists. split; [reflexivity |]. split; [| reflexivity].
    cbn [overall_score].
    rewrite (round2_comp _ (spec_overall_score (scope_of all_article_numbers) (m :: ms)));
      [reflexivity |].
    unfold spec_overall_score.
    rewrite (total_coverage_is_found_scoped_sum (m :: ms) all_article_numbers Hnd Hrec).
    reflexivity.
Qed.

End RouteScope.

(** X21: with the scope the routes build from the corpus, the aggregator's
    preconditions hold by construction: if some corpus article is on the
    include list and every record is about a corpus article, the aggregator
    returns a report whose overall score is the rounded quotient of the found
    percentages by the number of include-listed corpus articles. *)
Theorem X21_route_scope_overall_score :
  forall (pdpl_articles : list Article) (matches : list ScoringUtils.MatchRecord)
         (total_articles : nat),
    (exists a, In a pdpl_articles
               /\ In (article_number a) ScoringUtils.INCLUDED_ARTICLES_FOR_OVERALL) ->
    (forall m, In m matches ->
       exists a, In a pdpl_articles /\ article_number a = record_number m) ->
    let scope :=
      ScoringUtils.scope_of (Some (Corpus.get_applicable_article_numbers pdpl_articles)) in
    exists r,
      ScoringUtils.calculate_overall_score matches total_articles
        (Some (Corpus.get_applicable_article_numbers pdpl_articles)) = Ok r
      /\ ScoringUtils.overall_score r == round2 (spec_overall_score scope matches)
      /\ ScoringUtils.total_articles r = List.length scope
      /\ (forall n, In n scope
                    <-> In n ScoringUtils.INCLUDED_ARTICLES_FOR_OVERALL
                        /\ exists a, In a pdpl_articles /\ article_number a = n).
Proof.
  intros pdpl_articles matches total_articles (a0 & Ha0 & Hinc0) Hrec scope.
  destruct (applicable_numbers pdpl_articles) as (_ & Hnd & Hin).
  assert (Hzero : ~ In 0%Z ScoringUtils.INCLUDED_ARTICLES_FOR_OVERALL).
  { vm_compute. intuition discriminate. }
  assert (Hscope : forall n, In n scope
                     <-> In n ScoringUtils.INCLUDED_ARTICLES_FOR_OVERALL
                         /\ exists a, In a pdpl_articles /\ article_number a = n).
  { intros n. unfold scope. rewrite scope_of_some, filter_In, mem_In, Hin. split.
    - tauto.
    - intros (Hi & Hex). repeat split; try assumption. intros ->. contradiction. }
  destruct (overall_score_formula matches total_articles
              (Some (Corpus.get_applicable_article_numbers pdpl_articles)))
    as (r & Hr & Hs & Ht).
  - fold scope. intros Hnil.
    assert (H0 : In (article_number a0) scope) by (apply Hscope; eauto).
    rewrite Hnil in H0. destruct H0.
  - rewrite scope_of_some. now apply NoDup_filter.
  - intros m Hm Hi. fold scope. apply Hscope. split; [exact Hi | now apply Hrec].
  - exists r. repeat split; try assumption; apply Hscope; assumption.
Qed.

Lemma X21_route_scope_overall_score_witness :
  exists r,
    ScoringUtils.calculate_overall_score AggregatorSamples.only_article_4 0%nat
      (Some (Corpus.get_applicable_article_numbers
               [Samples.consent_article; Samples.heading_article])) = Ok r
    /\ ScoringUtils.overall_score r == 45
    /\ ScoringUtils.total_articles r = 2%nat.
Proof.
  destruct (X21_route_scope_overall_score
              [Samples.consent_article; Samples.heading_article]
              AggregatorSamples.only_article_4 0%nat) as (r & Hr & _).
  - exists Samples.consent_article. split; [now left | vm_compute; now left].
  - intros m [<- | []]. exists Samples.consent_article. split; [now left | reflexivity].
  - exists r. split; [exact Hr |].
    vm_compute in Hr. injection Hr as <-. split; reflexivity.
Defined.

Lemma X13_judge_adapter_contract_witness :
  LlmService.llm_clause_match true true false (fun _ _ _ _ => Raise (KeyError "k"))
    "clause" "document" 4%Z "1" = None.
Proof.
  apply (proj1 (X13_judge_adapter_contract true true false
                  (fun _ _ _ _ => Raise (KeyError "k")) "clause" "document" 4%Z "1")).
  reflexivity.
Defined.

Lemma X14_aggregator_raises_on_empty_scope_witness :
  ScoringUtils.calculate_overall_score AggregatorSamples.only_article_4 3%nat
    (Some [1; 2; 3]%Z) = Raise ZeroDivisionError.
Proof.
  apply (proj1 (X14_aggregator_raises_on_empty_scope AggregatorSamples.only_article_4
                  3%nat (Some [1; 2; 3]%Z))).
  split; [discriminate | reflexivity].
Defined.

(** ** More on the re-rank stage *)

Section RerankMore.

Import LlmService.

Lemma apply_score_article (c : Candidate) (s : option Q) :
  cand_article (apply_score c s) = cand_article c.
Proof. destruct s; reflexivity. Qed.

Lemma apply_scores_articles (l : list Candidate) :
  forall scores, map cand_article (apply_scores l scores) = map cand_article l.
Proof.
  induction l as [| c l IH]; intros [| s scores]; simpl; try reflexivity;
    now rewrite IH.
Qed.

Lemma rescored_articles (scores : list Q) (candidates : list Candidate) (n : nat) :
  map cand_article
    (apply_scores (firstn n candidates) scores
     ++ map (fun cand => apply_score cand None) (skipn n candidates))
  = map cand_article candidates.
Proof.
  rewrite map_app, apply_scores_articles, map_map.
  change (map (fun x => cand_article (apply_score x None)) (skipn n candidates))
    with (map cand_article (skipn n candidates)).
  rewrite <- map_app, firstn_skipn. reflexivity.
Qed.

End RerankMore.

(** X22: whatever the flags and the reply, the re-rank stage returns
    min(top_k, number of candidates) candidates; it only re-orders: when
    nothing is cut off, the articles returned are the articles given, each as
    often as it was given. *)
Theorem X22_rerank_keeps_candidates :
  forall (llm_enabled openai_client : bool) (reply : result (list Q))
         (query_text : string) (candidates : list LlmService.Candidate) (top_k : nat),
    let out :=
      LlmService.llm_rerank_articles llm_enabled openai_client reply query_text
        candidates top_k in
    List.length out = Nat.min top_k (List.length candidates)
    /\ ((List.length candidates <= top_k)%nat ->
        Permutation (map LlmService.cand_article out)
          (map LlmService.cand_article candidates)).
Proof.
  intros llm_enabled openai_client reply query_text candidates top_k out.
  assert (Hplain : List.length (firstn top_k candidates)
                   = Nat.min top_k (List.length candidates)
                   /\ ((List.length candidates <= top_k)%nat ->
                       Permutation
                         (map LlmService.cand_article (firstn top_k candidates))
                         (map LlmService.cand_article candidates))).
  { split; [apply length_firstn |].
    intros Hk. rewrite firstn_all2 by exact Hk. reflexivity. }
  unfold out, LlmService.llm_rerank_articles.
  destruct (negb llm_enabled || negb openai_client); [exact Hplain |].
  destruct candidates as [| c0 cs] eqn:Ec.
  { split; [destruct top_k; reflexivity | reflexivity]. }
  rewrite <- Ec in *.
  destruct reply as [[| s0 ss] | e]; try exact Hplain.
  set (n := Nat.min 50 (List.length candidates)).
  set (A := LlmService.apply_scores (firstn n candidates) (s0 :: ss)).
  set (B := map (fun cand => LlmService.apply_score cand None) (skipn n candidates)).
  assert (Hlen : List.length (LlmService.sort_desc LlmService.key_final_score A ++ B)
                 = List.length candidates).
  { rewrite length_app, sort_desc_length, <- length_app.
    unfold A, B. apply rescored_length. }
  split.
  - rewrite length_firstn, Hlen. reflexivity.
  - intros Hk. rewrite firstn_all2 by (rewrite Hlen; exact Hk).
    rewrite <- (rescored_articles (s0 :: ss) candidates n). fold A B.
    rewrite !map_app. apply Permutation_app_tail, Permutation_map.
    symmetry. apply sort_desc_perm.
Qed.

(** X23: the re-rank stage degrades silently: when the model is disabled, no
    client exists, the request or the parsing of its answer raises, or no
    score could be parsed, it returns the first top_k candidates unchanged
    and in the order it was given them. *)
Theorem X23_rerank_degrades_to_embedding_order :
  forall (llm_enabled openai_client : bool) (reply : result (list Q))
         (query_text : string) (candidates : list LlmService.Candidate) (top_k : nat),
    llm_enabled = false \/ openai_client = false
    \/ (exists e, reply = Raise e) \/ reply = Ok [] ->
    LlmService.llm_rerank_articles llm_enabled openai_client reply query_text
      candidates top_k
    = firstn top_k candidates.
Proof.
  intros llm_enabled openai_client reply query_text candidates top_k H.
  unfold LlmService.llm_rerank_articles.
  destruct (negb llm_enabled || negb openai_client) eqn:Eflags; [reflexivity |].
  destruct candidates as [| c0 cs]; [now rewrite firstn_nil |].
  destruct H as [-> | [-> | [(e & ->) | ->]]]; try reflexivity.
  - discriminate.
  - destruct llm_enabled; discriminate.
Qed.

Lemma X23_rerank_degrades_to_embedding_order_witness :
  LlmService.llm_rerank_articles true true (Raise (KeyError "choices")) "policy text"
    RerankSamples.shortlist 1
  = firstn 1 RerankSamples.shortlist.
Proof.
  apply (X23_rerank_degrades_to_embedding_order true true (Raise (KeyError "choices"))
           "policy text" RerankSamples.shortlist 1).
  right. right. left. eexists. reflexivity.
Defined.

(** ** More on the matching pipeline *)

Section PipelineMore.

Import MatchingService.

Lemma key_eqb_eq (a b : option string * Z) : key_eqb a b = true <-> a = b.
Proof.
  destruct a as [[x |] m], b as [[y |] n]; unfold key_eqb; simpl;
    rewrite ?andb_true_iff, ?String.eqb_eq, ?Z.eqb_eq;
    split; intros H; try discriminate; try (destruct H; discriminate);
    try (destruct H; subst; reflexivity); try (injection H as -> ->; auto);
    try (injection H as ->; auto).
Qed.

Lemma seen_In (k : option string * Z) (seen_keys : list (option string * Z)) :
  seen k seen_keys = true <-> In k seen_keys.
Proof.
  unfold seen. rewrite existsb_exists. split.
  - intros (x & Hx & E). apply key_eqb_eq in E. now subst.
  - intros H. exists k. split; [exact H | now apply key_eqb_eq].
Qed.

Lemma combining_add (seen_keys : list (option string * Z)) (combined : list Match)
    (m : Match) :
  combining (seen_keys, combined) ->
  seen (key_of m) seen_keys = false ->
  combining (key_of m :: seen_keys, (combined ++ [m])%list).
Proof.
  intros [Hk Hnd] Hs. simpl in Hk, Hnd.
  assert (Hnot : ~ In (key_of m) (map key_of combined)).
  { intros H. apply Hk, seen_In in H. congruence. }
  split; simpl.
  - intros k. rewrite map_app, in_app_iff, <- Hk. simpl. tauto.
  - rewrite map_app. simpl.
    apply NoDup_rev in Hnd.
    rewrite <- (rev_involutive (map key_of combined ++ [key_of m])).
    apply NoDup_rev. rewrite rev_app_distr. simpl.
    constructor; [| exact Hnd].
    intros H. apply in_rev in H. contradiction.
Qed.

Lemma add_semantic_combining (l : list Match) :
  forall st, combining st -> combining (fold_left add_semantic l st).
Proof.
  induction l as [| m l IH]; intros st Hst; simpl; [exact Hst |].
  apply IH. unfold add_semantic. destruct st as [seen_keys combined].
  destruct (Qlt_bool _ MINIMUM_SIMILARITY); [exact Hst |].
  destruct (seen (key_of m) seen_keys) eqn:Es; [exact Hst |].
  now apply combining_add.
Qed.

Lemma add_text_combining (threshold : Q) (l : list Match) :
  forall st st',
    (forall x, st = Ok x -> combining x) ->
    fold_left (add_text threshold) l st = Ok st' ->
    combining st'.
Proof.
  induction l as [| m l IH]; intros st st' Hst H; simpl in H.
  - now apply Hst.
  - eapply IH; [| exact H].
    intros x Hx. unfold add_text in Hx.
    destruct st as [[seen_keys combined] | e]; cbn [bind] in Hx; [| discriminate].
    specialize (Hst _ eq_refl).
    destruct (seen (key_of m) seen_keys) eqn:Es; [injection Hx as <-; exact Hst |].
    destruct (similarity m) as [s |]; [| discriminate].
    destruct (Qle_bool threshold s); injection Hx as <-; [| exact Hst].
    now apply combining_add.
Qed.

Lemma combine_matches_distinct (semantic_matches text_matches : list Match)
    (threshold : Q) (use_text_fallback : bool) (combined : list Match) :
  combine_matches semantic_matches text_matches threshold use_text_fallback
    = Ok combined ->
  NoDup (map key_of combined).
Proof.
  unfold combine_matches. intros H.
  assert (Hsem : combining (fold_left add_semantic semantic_matches ([], []))).
  { apply add_semantic_combining. split; simpl; [tauto | constructor]. }
  destruct use_text_fallback.
  - destruct (fold_left (add_text threshold) text_matches _) as [st' |] eqn:Et;
      cbn [bind] in H; [| discriminate].
    injection H as <-.
    eapply add_text_combining; [| exact Et].
    intros x Hx. injection Hx as <-. exact Hsem.
  - cbn [bind] in H. injection H as <-. apply Hsem.
Qed.

End PipelineMore.

(** X24: the pipeline never scores an article twice: in the list it returns,
    no two matches share the pair of article id and article number, and the
    list is ordered by coverage percentage, highest first. *)
Theorem X24_pipeline_distinct_and_ordered :
  forall (mode : bool) (judge : Judge)
         (semantic_matches text_matcher : list MatchingService.Match)
         (pages : list Page) (corpus : list Article) (threshold : Q) (top_k : nat)
         (use_text_fallback use_llm_rerank : bool)
         (out : list MatchingService.ScoredMatch),
    MatchingService.match_with_pdpl mode judge semantic_matches text_matcher pages
      corpus threshold top_k use_text_fallback use_llm_rerank = Ok out ->
    NoDup (map (fun sm => MatchingService.key_of (MatchingService.retrieved sm)) out)
    /\ descending (fun sm => percentage_of (MatchingService.coverage sm)) out.
Proof.
  intros mode judge semantic_matches text_matcher pages corpus threshold top_k
         use_text_fallback use_llm_rerank out H.
  unfold MatchingService.match_with_pdpl in H.
  destruct (MatchingService.combine_matches _ _ _ _) as [combined |] eqn:Ec;
    cbn [bind] in H; [| discriminate].
  destruct (MatchingService.score_all _ _ _ _ _) as [scored |] eqn:Es;
    cbn [bind] in H; [| discriminate].
  injection H as <-. split; [| apply sort_desc_descending].
  apply combine_matches_distinct in Ec.
  apply score_all_retrieved in Es.
  rewrite <- Es, map_map in Ec.
  eapply Permutation_NoDup; [| exact Ec].
  apply Permutation_map, sort_desc_perm.
Qed.

Lemma X24_pipeline_distinct_and_ordered_witness :
  exists out,
    MatchingService.match_with_pdpl false (Samples.judge_const 0.9)
      [MatchingSamples.hybrid_match; MatchingSamples.hybrid_match]
      [MatchingSamples.text_match] Samples.policy [] 0.5 15 true false = Ok out
    /\ List.length out = 2%nat
    /\ NoDup (map (fun sm => MatchingService.key_of (MatchingService.retrieved sm)) out)
    /\ descending (fun sm => percentage_of (MatchingService.coverage sm)) out.
Proof.
  eexists. split; [vm_compute; reflexivity |].
  split; [reflexivity |].
  apply (X24_pipeline_distinct_and_ordered false (Samples.judge_const 0.9)
           [MatchingSamples.hybrid_match; MatchingSamples.hybrid_match]
           [MatchingSamples.text_match] Samples.policy [] 0.5 15 true false).
  vm_compute. reflexivity.
Defined.

(** ** The judge-only pipeline *)

Section JudgeOnly.

Import ScoringUtils.

Variable judge : Judge.
Variable pages : list Page.
Variable corpus : list Article.

Lemma main_article_entry (mode : bool) (a : Article) (info : CoverageInfo) :
  is_main_article a = true ->
  calculate_article_coverage mode a pages corpus (Some judge) 0.0 0.0 = Ok info ->
  judged_entry judge pages
    {| LlmOnly.article := a;
       LlmOnly.entry_article_number := article_number a;
       LlmOnly.article_title := title a;
       LlmOnly.coverage := info |}.
Proof.
  intros Hmain H. unfold judged_entry. cbn [LlmOnly.article LlmOnly.coverage].
  unfold calculate_article_coverage in H. rewrite Hmain in H.
  unfold _calculate_article_coverage_llm_article_level in H.
  fold (document_text pages) in H. fold (article_requirement a (clauses a)) in H.
  destruct (article_requirement a (clauses a) =? "")%string eqn:Er.
  - apply String.eqb_eq in Er. injection H as <-.
    eexists. split; [reflexivity |]. split; [reflexivity | congruence].
  - apply String.eqb_neq in Er.
    destruct (judge _ _ _ _) as [answer |].
    + cbn [bind] in H. injection H as <-.
      eexists. split; [reflexivity |]. split; [congruence | reflexivity].
    + destruct mode; cbn [bind] in H; [discriminate |].
      injection H as <-.
      eexists. split; [reflexivity |]. split; [congruence |].
      intros _. reflexivity.
Qed.

Lemma strict_main_outcome (a : Article) :
  is_main_article a = true ->
  (exists info,
     calculate_article_coverage true a pages corpus (Some judge) 0.0 0.0 = Ok info)
  <-> (article_requirement a (clauses a) <> "" ->
       judge (article_requirement a (clauses a)) (document_text pages)
         (article_number a) "Article-level" <> None).
Proof.
  intros Hmain.
  unfold calculate_article_coverage. rewrite Hmain.
  unfold _calculate_article_coverage_llm_article_level.
  fold (document_text pages). fold (article_requirement a (clauses a)).
  destruct (article_requirement a (clauses a) =? "")%string eqn:Er.
  - apply String.eqb_eq in Er. split; [congruence | intros _; eexists; reflexivity].
  - apply String.eqb_neq in Er.
    destruct (judge _ _ _ _) as [answer |]; cbn [bind].
    + split; [intros _ _; discriminate | intros _; eexists; reflexivity].
    + split; [intros (info & H); discriminate | intros H; exfalso; now apply H].
Qed.

Lemma score_main_strict (mains : list Article) :
  Forall (fun a => is_main_article a = true) mains ->
  (exists out, LlmOnly.score_main_articles true judge pages corpus mains = Ok out)
  <-> judge_answers_all judge pages mains.
Proof.
  unfold judge_answers_all.
  induction 1 as [| a rest Ha _ IH]; cbn [LlmOnly.score_main_articles].
  - split; [intros _ a [] | intros _; eexists; reflexivity].
  - pose proof (strict_main_outcome a Ha) as Hone.
    destruct (calculate_article_coverage true a pages corpus (Some judge) 0.0 0.0)
      as [info | e]; cbn [bind].
    + destruct (LlmOnly.score_main_articles true judge pages corpus rest)
        as [rest' | e]; cbn [bind].
      * split; [| intros _; eexists; reflexivity].
        intros _ b [<- | Hb]; [apply Hone; eexists; reflexivity |].
        apply (proj1 IH); [eexists; reflexivity | exact Hb].
      * split; [intros (out & H); discriminate |].
        intros Hall.
        assert (Hrest : exists out, @Raise (list LlmOnly.Entry) e = Ok out).
        { apply IH. intros b Hb. apply Hall. now right. }
        exact Hrest.
    + split; [intros (out & H); discriminate |].
      intros Hall.
      assert (Hex : exists info, @Raise CoverageInfo e = Ok info).
      { apply Hone. apply Hall. now left. }
      destruct Hex as (info & Hinfo). discriminate.
Qed.

Lemma score_main_entries (mode : bool) (mains : list Article) :
  Forall (fun a => is_main_article a = true) mains ->
  forall out,
    LlmOnly.score_main_articles mode judge pages corpus mains = Ok out ->
    map LlmOnly.article out = mains /\ Forall (judged_entry judge pages) out.
Proof.
  induction 1 as [| a rest Ha _ IH]; intros out H; cbn [LlmOnly.score_main_articles] in H.
  - injection H as <-. split; [reflexivity | constructor].
  - destruct (calculate_article_coverage mode a pages corpus (Some judge) 0.0 0.0)
      as [info | e] eqn:Ei; cbn [bind] in H; [| discriminate].
    destruct (LlmOnly.score_main_articles mode judge pages corpus rest)
      as [rest' | e]; cbn [bind] in H; [| discriminate].
    injection H as <-. destruct (IH rest' eq_refl) as [Hm Hj].
    split; [simpl; now rewrite Hm |].
    constructor; [| exact Hj]. now apply (main_article_entry mode).
Qed.

Lemma main_articles_are_main :
  Forall (fun a => is_main_article a = true) (filter is_main_article corpus).
Proof. apply Forall_forall. intros a Ha. apply filter_In in Ha. tauto. Qed.

End JudgeOnly.

(** X25: in strict mode the judge-only pipeline returns a result exactly when
    the judge answers for every main article that has requirement text; one
    null answer aborts the whole evaluation. *)
Theorem X25_judge_only_pipeline_succeeds :
  forall (judge : Judge) (pages : list Page) (corpus : list Article),
    (exists out, LlmOnly.match_with_pdpl_llm_only true judge pages corpus = Ok out)
    <-> judge_answers_all judge pages (filter is_main_article corpus).
Proof.
  intros judge pages corpus.
  rewrite <- (score_main_strict judge pages corpus _ (main_articles_are_main corpus)).
  unfold LlmOnly.match_with_pdpl_llm_only.
  destruct (LlmOnly.score_main_articles true judge pages corpus _) as [scored | e];
    cbn [bind].
  - split; intros _; eexists; reflexivity.
  - split; intros (out & H); discriminate.
Qed.

(** X26: when the judge-only pipeline returns, its entries are the main
    articles of the corpus, each once, ordered by coverage percentage,
    highest first; every entry holds the judge's score as a percentage, the
    empty record for an article without requirement text, or, outside strict
    mode, 0 for an article the judge did not answer for. *)
Theorem X26_judge_only_pipeline_entries :
  forall (mode : bool) (judge : Judge) (pages : list Page) (corpus : list Article)
         (out : list LlmOnly.Entry),
    LlmOnly.match_with_pdpl_llm_only mode judge pages corpus = Ok out ->
    Permutation (map LlmOnly.article out) (filter is_main_article corpus)
    /\ Forall (judged_entry judge pages) out
    /\ descending (fun e => percentage_of (LlmOnly.coverage e)) out.
Proof.
  intros mode judge pages corpus out H.
  unfold LlmOnly.match_with_pdpl_llm_only in H.
  destruct (LlmOnly.score_main_articles mode judge pages corpus _) as [scored | e] eqn:Es;
    cbn [bind] in H; [| discriminate].
  injection H as <-.
  destruct (score_main_entries judge pages corpus mode _ (main_articles_are_main corpus)
              _ Es) as [Hm Hj].
  split; [| split].
  - rewrite <- Hm. apply Permutation_map. symmetry. apply sort_desc_perm.
  - apply Forall_forall. intros x Hx. apply sort_desc_In in Hx.
    rewrite Forall_forall in Hj. now apply Hj.
  - apply sort_desc_descending.
Qed.

Lemma X26_judge_only_pipeline_entries_witness :
  exists out,
    LlmOnly.match_with_pdpl_llm_only true (Samples.judge_const 0.9) Samples.policy
      [Samples.consent_article; Samples.clause_entry_article] = Ok out
    /\ List.length out = 1%nat
    /\ Forall (judged_entry (Samples.judge_const 0.9) Samples.policy) out.
Proof.
  eexists. split; [vm_compute; reflexivity |].
  split; [reflexivity |].
  apply (X26_judge_only_pipeline_entries true (Samples.judge_const 0.9) Samples.policy
           [Samples.consent_article; Samples.clause_entry_article]).
  vm_compute. reflexivity.
Defined.

(** ** Hybrid retrieval *)

Section HybridRetrieval.

Import RetrievalService.

Lemma to_matches_each (match_type : string) (l : list LlmService.Candidate) :
  forall ms,
    to_matches match_type l = Ok ms ->
    Forall2 (fun c m => to_match match_type c = Ok m) l ms.
Proof.
  induction l as [| c l IH]; intros ms H; cbn [to_matches] in H.
  - injection H as <-. constructor.
  - destruct (to_match match_type c) as [m |] eqn:Em; cbn [bind] in H; [| discriminate].
    destruct (to_matches match_type l) as [ms' |]; cbn [bind] in H; [| discriminate].
    injection H as <-. constructor; [exact Em | now apply IH].
Qed.

Lemma Sorted_firstn {A : Type} (R : A -> A -> Prop) (l : list A) :
  Sorted R l -> forall k, Sorted R (firstn k l).
Proof.
  induction 1 as [| x l Hs IH Hh]; intros [| k]; simpl; try constructor.
  - apply IH.
  - destruct Hh; destruct k; simpl; constructor. assumption.
Qed.

Lemma Sorted_transfer {A B : Type} (P : A -> B -> Prop) (ka : A -> Q) (kb : B -> Q)
    (l : list A) (ms : list B) :
  Forall2 P l ms ->
  (forall a b, In a l -> P a b -> ka a == kb b) ->
  descending ka l -> descending kb ms.
Proof.
  unfold descending. intros H. induction H as [| a b l ms Hab Hrest IH]; intros Hk Hs.
  - constructor.
  - inversion Hs as [| ? ? Hs' Hh]; subst.
    constructor.
    + apply IH; [| exact Hs']. intros x y Hx. apply Hk. now right.
    + destruct Hrest as [| a' b' l' ms' Hab' _]; constructor.
      inversion Hh; subst.
      rewrite <- (Hk a b (or_introl eq_refl) Hab).
      rewrite <- (Hk a' b' (or_intror (or_introl eq_refl)) Hab').
      assumption.
Qed.

Lemma to_match_embedded (cosine : Article -> Q) (hit : Article * Q * Z)
    (m : MatchingService.Match) :
  to_match "hybrid_bm25_e5" (embedded cosine hit) = Ok m ->
  embedding_ranked m
  /\ MatchingService.similarity m = Some (cosine (MatchingService.article m))
  /\ similarity_key m = key_e5 (embedded cosine hit).
Proof.
  destruct hit as [[a b] i]. unfold to_match, embedded. cbn.
  intros H. injection H as <-. cbn. split; [| split; reflexivity].
  exists (cosine a). repeat split. discriminate.
Qed.

Variables bm25_ready llm_enabled llm_reranking openai_client : bool.
Variable semantic_search : nat -> list MatchingService.Match.
Variable lexical_stage : result (list (Article * Q * Z)).
Variable embedding_stage : result (Article -> Q).
Variable reply : result (list Q).

(** Without re-ranking the hybrid retrieval either falls back to the
    semantic search or returns embedding-ranked matches. *)
Lemma hybrid_without_rerank (query_text : string) (top_k_bm25 top_k_final : nat) :
  let out :=
    hybrid_retrieval_bm25_e5 bm25_ready llm_enabled llm_reranking openai_client
      semantic_search lexical_stage embedding_stage reply query_text top_k_bm25
      top_k_final false in
  out = semantic_search top_k_final
  \/ ((List.length out <= top_k_final)%nat
      /\ descending similarity_key out
      /\ exists cosine,
           embedding_stage = Ok cosine
           /\ Forall (fun m => embedding_ranked m
                               /\ MatchingService.similarity m
                                  = Some (cosine (MatchingService.article m))) out).
Proof.
  intros out. unfold out, hybrid_retrieval_bm25_e5.
  destruct (negb bm25_ready); [now left |].
  destruct lexical_stage as [[| h hits] | e]; [now left | | now left].
  destruct embedding_stage as [cosine | e]; [| now left].
  cbn [andb].
  set (cands := LlmService.sort_desc key_e5 (map (embedded cosine) (h :: hits))).
  destruct (to_matches "hybrid_bm25_e5" (firstn top_k_final cands)) as [ms |] eqn:Em;
    [| now left].
  right. apply to_matches_each in Em.
  assert (Hall : forall c, In c (firstn top_k_final cands) ->
                           exists hit, c = embedded cosine hit).
  { intros c Hc. apply in_firstn in Hc. unfold cands in Hc.
    apply sort_desc_In, in_map_iff in Hc. destruct Hc as (hit & <- & _). now exists hit. }
  split; [| split].
  - rewrite <- (Forall2_length Em), length_firstn. lia.
  - eapply (Sorted_transfer _ key_e5 similarity_key _ _ Em).
    + intros c m Hc Hcm. destruct (Hall c Hc) as (hit & ->).
      destruct (to_match_embedded cosine hit m Hcm) as (_ & _ & <-). reflexivity.
    + apply Sorted_firstn, sort_desc_descending.
  - exists cosine. split; [reflexivity |].
    clear - Em Hall. induction Em as [| c m l ms Hcm _ IH]; constructor.
    + destruct (Hall c (or_introl eq_refl)) as (hit & ->).
      destruct (to_match_embedded cosine hit m Hcm) as (H1 & H2 & _). now split.
    + apply IH. intros x Hx. apply Hall. now right.
Qed.

End HybridRetrieval.

(** X27: called without LLM re-ranking, the hybrid retrieval either returns
    what the semantic search returns (lexical index missing, a stage
    failing, no lexical candidate) or at most top_k_final matches ordered by
    similarity, highest first, each carrying its lexical score and an
    embedding score equal to its similarity. *)
Theorem X27_hybrid_retrieval_without_rerank :
  forall (bm25_ready llm_enabled llm_reranking openai_client : bool)
         (semantic_search : nat -> list MatchingService.Match)
         (lexical_stage : result (list (Article * Q * Z)))
         (embedding_stage : result (Article -> Q)) (reply : result (list Q))
         (query_text : string) (top_k_bm25 top_k_final : nat),
    let out :=
      RetrievalService.hybrid_retrieval_bm25_e5 bm25_ready llm_enabled llm_reranking
        openai_client semantic_search lexical_stage embedding_stage reply query_text
        top_k_bm25 top_k_final false in
    out = semantic_search top_k_final
    \/ ((List.length out <= top_k_final)%nat
        /\ descending similarity_key out
        /\ Forall embedding_ranked out).
Proof.
  intros bm25_ready llm_enabled llm_reranking openai_client semantic_search
         lexical_stage embedding_stage reply query_text top_k_bm25 top_k_final out.
  destruct (hybrid_without_rerank bm25_ready llm_enabled llm_reranking openai_client
              semantic_search lexical_stage embedding_stage reply query_text
              top_k_bm25 top_k_final) as [H | (Hl & Hd & cosine & _ & Hf)].
  - left. exact H.
  - right. split; [exact Hl |]. split; [exact Hd |].
    eapply Forall_impl; [| exact Hf]. intros m [H _]. exact H.
Qed.

(** ** The pipeline over its retrieval stages *)

Lemma score_all_In (mode : bool) (judge : Judge) (pages : list Page)
    (corpus : list Article) (combined : list MatchingService.Match) :
  forall scored,
    MatchingService.score_all mode judge pages corpus combined = Ok scored ->
    forall sm, In sm scored ->
      ScoringUtils.calculate_article_coverage mode
        (MatchingService.article (MatchingService.retrieved sm)) pages corpus
        (Some judge)
        (ScoringUtils.get (MatchingService.bm25_score (MatchingService.retrieved sm)) 0.0)
        (scorer_embedding_input (MatchingService.retrieved sm))
      = Ok (MatchingService.coverage sm).
Proof.
  induction combined as [| m rest IH]; intros scored H sm Hsm;
    cbn [MatchingService.score_all] in H.
  - injection H as <-. destruct Hsm.
  - destruct (ScoringUtils.calculate_article_coverage _ _ _ _ _ _ _) as [c |] eqn:Ec;
      cbn [bind] in H; [| discriminate].
    destruct (MatchingService.score_all mode judge pages corpus rest) as [rest' |];
      cbn [bind] in H; [| discriminate].
    injection H as <-. destruct Hsm as [<- | Hsm].
    + exact Ec.
    + now apply (IH rest').
Qed.

Lemma semantic_search_no_embedding (qdrant_client : bool)
    (search : nat -> result (list (Article * Q))) (query_text : string) (top_k : nat)
    (m : MatchingService.Match) :
  In m (RetrievalService.semantic_search_pdpl qdrant_client search query_text top_k) ->
  scorer_embedding_input m = 0.0.
Proof.
  unfold RetrievalService.semantic_search_pdpl.
  destruct (negb qdrant_client); [intros [] |].
  destruct (search top_k) as [hits |]; [| intros []].
  intros H. apply in_map_iff in H. destruct H as (hit & <- & _). reflexivity.
Qed.

(** X28: with re-ranking off, the similarity floor of the pipeline keeps
    negative embedding scores away from the scorer: when the cosine
    similarities do not exceed 1 and the judge keeps its contract, every
    match the pipeline returns was scored with an embedding score in 0..1
    (0 for a match of the text matcher or of the fallback search) and all
    its coverage percentages lie between 0 and 100, with the text fallback
    on or off. *)
Theorem X28_pipeline_without_rerank_in_range :
  forall (mode : bool) (judge : Judge) (ratio : string -> string -> Q)
         (bm25_ready llm_enabled llm_reranking openai_client qdrant_client : bool)
         (search : nat -> result (list (Article * Q)))
         (lexical_stage : result (list (Article * Q * Z)))
         (embedding_stage : result (Article -> Q)) (reply : result (list Q))
         (pages : list Page) (corpus : list Article) (threshold : Q) (top_k : nat)
         (use_text_fallback : bool) (out : list MatchingService.ScoredMatch),
    judge_contract (Some judge) ->
    cosine_at_most_one embedding_stage ->
    Pipeline.match_with_pdpl mode judge ratio bm25_ready llm_enabled llm_reranking
      openai_client qdrant_client search lexical_stage embedding_stage reply pages
      corpus threshold top_k use_text_fallback false = Ok out ->
    forall sm, In sm out ->
      0 <= scorer_embedding_input (MatchingService.retrieved sm) <= 1
      /\ percent (percentage_of (MatchingService.coverage sm))
      /\ Forall (fun j => percent (coverage_score j))
           (judgments_of (MatchingService.coverage sm)).
Proof.
  intros mode judge ratio bm25_ready llm_enabled llm_reranking openai_client
         qdrant_client search lexical_stage embedding_stage reply pages corpus
         threshold top_k use_text_fallback out Hjudge Hcos H sm Hsm.
  unfold Pipeline.match_with_pdpl, MatchingService.match_with_pdpl in H.
  set (query := String.concat " " (map page_text pages)) in H.
  set (fallback := RetrievalService.semantic_search_pdpl qdrant_client search query) in H.
  set (semantic := RetrievalService.hybrid_retrieval_bm25_e5 _ _ _ _ _ _ _ _ _ _ _ _) in H.
  set (texts := if use_text_fallback then _ else []) in H.
  destruct (MatchingService.combine_matches _ _ _ _) as [combined |] eqn:Ec;
    cbn [bind] in H; [| discriminate].
  destruct (MatchingService.score_all _ _ _ _ _) as [scored |] eqn:Es;
    cbn [bind] in H; [| discriminate].
  injection H as <-.
  apply sort_desc_In in Hsm.
  pose proof (score_all_In _ _ _ _ _ _ Es sm Hsm) as Hcov.
  apply combine_matches_admitted in Ec.
  apply score_all_retrieved in Es.
  assert (Hin : In (MatchingService.retrieved sm) combined).
  { rewrite <- Es. now apply in_map. }
  rewrite Forall_forall in Ec. specialize (Ec _ Hin).
  set (m := MatchingService.retrieved sm) in *.
  assert (He : 0 <= scorer_embedding_input m <= 1).
  { destruct Ec as [(Hm & s & Hs & Hle) | (Hf & Hm & _)].
    - destruct (hybrid_without_rerank bm25_ready llm_enabled llm_reranking
                  openai_client fallback lexical_stage embedding_stage reply query
                  200 (top_k * 3)) as [Hfb | (_ & _ & cosine & Hstage & Hall)];
        fold semantic in Hfb || fold semantic in Hall.
      + rewrite Hfb in Hm. unfold fallback in Hm.
        rewrite (semantic_search_no_embedding _ _ _ _ _ Hm). lra.
      + rewrite Forall_forall in Hall.
        destruct (Hall m Hm) as ((e & Hsim & He5 & _) & Hcosine).
        unfold scorer_embedding_input. rewrite He5. cbn [MatchingService.get2].
        assert (e = s) by congruence. subst e.
        assert (Hs1 : s <= 1).
        { rewrite Hs in Hcosine. injection Hcosine as ->. now apply Hcos. }
        unfold MatchingService.MINIMUM_SIMILARITY in Hle. lra.
    - unfold texts in Hm. rewrite Hf in Hm.
      apply in_map_iff in Hm. destruct Hm as (t & <- & _).
      unfold scorer_embedding_input. cbn. lra. }
  split; [exact He |].
  exact (calculate_article_coverage_ranges mode _ _ He (Some judge) _ pages corpus _
           Hjudge Hcov).
Qed.

Lemma X28_pipeline_without_rerank_in_range_witness :
  exists out,
    Pipeline.match_with_pdpl false (Samples.judge_const 0.9) (fun _ _ => 0.5)
      true false false false true (fun _ => Ok [])
      (Ok [(Samples.heading_article, 4, 0%Z); (Samples.consent_article, 2, 1%Z)])
      (Ok (fun a => if (article_number a =? 5)%Z then 0.82 else - (0.3)))
      (Ok []) Samples.policy
      [Samples.heading_article; Samples.consent_article] 0.5 15 false false = Ok out
    /\ List.length out = 1%nat
    /\ forall sm, In sm out ->
         0 <= scorer_embedding_input (MatchingService.retrieved sm) <= 1
         /\ percent (percentage_of (MatchingService.coverage sm))
         /\ Forall (fun j => percent (coverage_score j))
              (judgments_of (MatchingService.coverage sm)).
Proof.
  eexists. split; [vm_compute; reflexivity |].
  split; [reflexivity |].
  apply (X28_pipeline_without_rerank_in_range false (Samples.judge_const 0.9)
           (fun _ _ => 0.5) true false false false true (fun _ => Ok [])
           (Ok [(Samples.heading_article, 4, 0%Z); (Samples.consent_article, 2, 1%Z)])
           (Ok (fun a => if (article_number a =? 5)%Z then 0.82 else - (0.3)))
           (Ok []) Samples.policy
           [Samples.heading_article; Samples.consent_article] 0.5 15 false).
  - intros f Hf c d n l r Hr. injection Hf as <-. injection Hr as <-.
    split; vm_compute; discriminate.
  - intros cosine Hc a. injection Hc as <-.
    destruct (article_number a =? 5)%Z; vm_compute; discriminate.
  - vm_compute. reflexivity.
Defined.

(** ** Loading the corpus *)

Section Loader.

Import FileUtils.

(** Induction over a clause with the property known for its sub-clauses. *)
Lemma RawClause_nested_ind (P : RawClause -> Prop) :
  (forall label text sub, Forall P sub -> P (raw_clause label text sub)) ->
  forall c, P c.
Proof.
  intros H. fix IH 1. intros [label text sub]. apply H.
  induction sub as [| c sub IHsub]; constructor.
  - apply IH.
  - exact IHsub.
Qed.

Lemma process_clause_sub (article_number : Z) (current_path : string)
    (parent_id : option string) (sub : list RawClause) :
  match sub with
  | [] => []
  | _ :: _ => flat_map (process_clause article_number current_path parent_id) sub
  end
  = flat_map (process_clause article_number current_path parent_id) sub.
Proof. destruct sub; reflexivity. Qed.

Lemma process_clause_preorder (c : RawClause) :
  forall article_number parent_path parent_id,
    map (fun e => (e_label e, e_text e))
      (process_clause article_number parent_path parent_id c)
    = preorder c.
Proof.
  induction c as [label text sub IH] using RawClause_nested_ind.
  intros article_number parent_path parent_id.
  cbn [process_clause preorder]. rewrite process_clause_sub.
  cbn [map e_label e_text]. f_equal.
  induction IH as [| c sub Hc _ IHsub]; [reflexivity |].
  cbn [flat_map]. rewrite map_app, Hc, IHsub. reflexivity.
Qed.

Lemma process_clause_fields (c : RawClause) :
  forall article_number parent_path parent_id,
    Forall (fun e => e_article_number e = article_number
                     /\ e_is_main_article e = false)
      (process_clause article_number parent_path parent_id c).
Proof.
  induction c as [label text sub IH] using RawClause_nested_ind.
  intros article_number parent_path parent_id.
  cbn [process_clause]. rewrite process_clause_sub.
  constructor; [split; reflexivity |].
  apply Forall_flat_map.
  eapply Forall_impl; [| exact IH]. intros c Hc. apply Hc.
Qed.

Lemma parents_known_mono (l : list ClauseEntry) :
  forall known known',
    incl known known' -> parents_known known l -> parents_known known' l.
Proof.
  induction l as [| e l IH]; intros known known' Hincl H; [exact I |].
  destruct H as [Hp Hrest]. split; [now apply Hincl |].
  apply (IH (e_id e :: known)); [| exact Hrest].
  intros x [<- | Hx]; [now left | right; now apply Hincl].
Qed.

Lemma parents_known_app (a : list ClauseEntry) :
  forall known b,
    parents_known known a ->
    parents_known (map e_id a ++ known)%list b ->
    parents_known known (a ++ b)%list.
Proof.
  induction a as [| e a IH]; intros known b Ha Hb; [exact Hb |].
  destruct Ha as [Hp Ha]. split; [exact Hp |].
  apply IH; [exact Ha |].
  eapply parents_known_mono; [| exact Hb].
  intros x Hx. cbn [map app] in Hx. apply in_app_iff.
  destruct Hx as [<- | Hx]; [right; now left |].
  apply in_app_iff in Hx. destruct Hx as [Hx | Hx]; [now left | right; now right].
Qed.

Lemma process_clause_parents (c : RawClause) :
  forall article_number parent_path parent_id known,
    In (or_default parent_id ("PDPL:" ++ str_of_int article_number)%string) known ->
    parents_known known (process_clause article_number parent_path parent_id c).
Proof.
  induction c as [label text sub IH] using RawClause_nested_ind.
  intros article_number parent_path parent_id known Hk.
  cbn [process_clause]. rewrite process_clause_sub.
  split; [exact Hk |]. cbn [e_id].
  set (current_path := match parent_path with
                       | EmptyString => label
                       | _ => (parent_path ++ "/" ++ label)%string
                       end).
  set (own := ("PDPL:" ++ str_of_int article_number ++ ":"
               ++ replace "/" ":" current_path)%string).
  assert (Hown : forall known', In own known' ->
                 In (or_default (Some own)
                       ("PDPL:" ++ str_of_int article_number)%string) known').
  { intros known' H. exact H. }
  assert (Hin : In own (own :: known)) by now left.
  revert Hin. generalize (own :: known) as known'.
  induction IH as [| c sub Hc _ IHsub]; intros known' Hin; [exact I |].
  cbn [flat_map]. apply parents_known_app.
  - apply Hc. now apply Hown.
  - apply IHsub. apply in_app_iff. now right.
Qed.

Lemma process_clauses_parents (clauses : list RawClause) :
  forall article_number parent_path parent_id known,
    In (or_default parent_id ("PDPL:" ++ str_of_int article_number)%string) known ->
    parents_known known
      (flat_map (process_clause article_number parent_path parent_id) clauses).
Proof.
  induction clauses as [| c clauses IH];
    intros article_number parent_path parent_id known Hk; [exact I |].
  cbn [flat_map]. apply parents_known_app.
  - apply process_clause_parents. exact Hk.
  - apply IH. apply in_app_iff. now right.
Qed.

Lemma parents_known_before (l : list ClauseEntry) :
  forall known,
    parents_known known l ->
    forall l1 e l2, l = (l1 ++ e :: l2)%list ->
      In (e_parent_id e) known \/ exists p, In p l1 /\ e_id p = e_parent_id e.
Proof.
  induction l as [| x l IH]; intros known H l1 e l2 E.
  - destruct l1; discriminate.
  - destruct H as [Hp Hrest]. destruct l1 as [| y l1].
    + injection E as <- _. now left.
    + injection E as <- E.
      destruct (IH _ Hrest l1 e l2 E) as [[Hx | Hx] | (p & Hp1 & Hp2)].
      * right. exists x. split; [now left | exact Hx].
      * now left.
      * right. exists p. split; [now right | exact Hp2].
Qed.

Lemma str_of_int_inj (a b : Z) : str_of_int a = str_of_int b -> a = b.
Proof.
  unfold str_of_int. intros H.
  assert (Hnil : forall z, Z.to_int z <> Decimal.Pos Decimal.Nil
                           /\ Z.to_int z <> Decimal.Neg Decimal.Nil).
  { intros [| p | p]; split; cbn; try discriminate;
      intros E; injection E as E; exact (Unsigned.to_uint_nonnil p E). }
  apply to_int_inj.
  assert (E : Some (Z.to_int a) = Some (Z.to_int b)).
  { rewrite <- (NilZero.isi (Z.to_int a)) by apply Hnil.
    rewrite <- (NilZero.isi (Z.to_int b)) by apply Hnil.
    now rewrite H. }
  now injection E.
Qed.

Lemma article_entry_main (articles : list RawArticle) :
  filter is_main_article (map article_entry articles) = map article_entry articles.
Proof.
  induction articles as [| a articles IH]; [reflexivity |].
  cbn [map filter]. unfold article_entry at 1. cbn [is_main_article].
  now rewrite IH.
Qed.

Lemma article_entry_ids (articles : list RawArticle) :
  NoDup (map number articles) -> NoDup (map id (map article_entry articles)).
Proof.
  intros H. rewrite map_map.
  change (map (fun x => id (article_entry x)) articles)
    with (map (fun x => ("PDPL:" ++ str_of_int (number x))%string) articles).
  rewrite <- (map_map number (fun n => ("PDPL:" ++ str_of_int n)%string)).
  apply Finite.Injective_map_NoDup; [| exact H].
  intros a b E. apply str_of_int_inj.
  cbn in E. now injection E.
Qed.

End Loader.

(** X29: process_clauses_recursively flattens the clause tree of an article
    completely and in document order (each clause before its sub-clauses,
    these in their order), marks every entry as a clause entry of the
    article, and gives every entry a parent that is the article itself or an
    entry placed before it in the list. *)
Theorem X29_clause_tree_flattening :
  forall (clauses : list FileUtils.RawClause) (article_number : Z),
    let out := FileUtils.process_clauses_recursively clauses article_number "" None in
    map (fun e => (FileUtils.e_label e, FileUtils.e_text e)) out
    = flat_map preorder clauses
    /\ Forall (fun e => FileUtils.e_article_number e = article_number
                        /\ FileUtils.e_is_main_article e = false) out
    /\ forall l1 e l2, out = (l1 ++ e :: l2)%list ->
         FileUtils.e_parent_id e = ("PDPL:" ++ str_of_int article_number)%string
         \/ exists p, In p l1 /\ FileUtils.e_id p = FileUtils.e_parent_id e.
Proof.
  intros clauses article_number out. unfold out, FileUtils.process_clauses_recursively.
  split; [| split].
  - induction clauses as [| c clauses IH]; [reflexivity |].
    cbn [flat_map]. now rewrite map_app, process_clause_preorder, IH.
  - apply Forall_flat_map, Forall_forall. intros c _. apply process_clause_fields.
  - intros l1 e l2 E.
    assert (H : parents_known [("PDPL:" ++ str_of_int article_number)%string]
                  (flat_map (FileUtils.process_clause article_number "" None) clauses)).
    { apply process_clauses_parents. now left. }
    destruct (parents_known_before _ _ H l1 e l2 E) as [[Hp | []] | Hp].
    + left. now symmetry.
    + now right.
Qed.

(** X30: from a corpus file in the nested format load_pdpl_articles builds
    one main article per article of the file, in the file's order, with the
    clause tree flattened in document order; distinct article numbers give
    distinct ids; and since every loaded entry is a main article, the
    judge-only pipeline, when it returns, returns exactly the loaded
    articles, each once. *)
Theorem X30_loaded_corpus :
  forall (articles : list FileUtils.RawArticle),
    let corpus := FileUtils.load_pdpl_articles (FileUtils.nested_format articles) in
    map article_number corpus = map FileUtils.number articles
    /\ Forall2 (fun raw a =>
                  map (fun c => (c_label c, c_text c)) (clauses a)
                  = flat_map preorder (FileUtils.raw_clauses raw)) articles corpus
    /\ (NoDup (map FileUtils.number articles) -> NoDup (map id corpus))
    /\ forall (mode : bool) (judge : Judge) (pages : list Page)
              (out : list LlmOnly.Entry),
         LlmOnly.match_with_pdpl_llm_only mode judge pages corpus = Ok out ->
         Permutation (map LlmOnly.article out) corpus.
Proof.
  intros articles corpus. unfold corpus. cbn [FileUtils.load_pdpl_articles].
  split; [| split; [| split]].
  - rewrite map_map. reflexivity.
  - induction articles as [| raw articles IH]; constructor; [| exact IH].
    unfold FileUtils.article_entry. cbn [clauses]. rewrite map_map.
    change (fun x => (c_label (FileUtils.entry_clause x),
                      c_text (FileUtils.entry_clause x)))
      with (fun e => (FileUtils.e_label e, FileUtils.e_text e)).
    unfold FileUtils.process_clauses_recursively.
    induction (FileUtils.raw_clauses raw) as [| c cs IHc]; [reflexivity |].
    cbn [flat_map]. now rewrite map_app, process_clause_preorder, IHc.
  - apply article_entry_ids.
  - intros mode judge pages out H.
    unfold LlmOnly.match_with_pdpl_llm_only in H.
    destruct (LlmOnly.score_main_articles mode judge pages _ _) as [scored | e] eqn:Es;
      cbn [bind] in H; [| discriminate].
    injection H as <-.
    destruct (score_main_entries judge pages _ mode _ (main_articles_are_main _)
                _ Es) as [Hm _].
    rewrite article_entry_main in Hm. rewrite <- Hm.
    apply Permutation_map. symmetry. apply sort_desc_perm.
Qed.
